(** * FastStream audio configuration manager: equalizer, mixer, meters, profiles

    A shallow embedding of [AudioConfigManager] and of the profile classes
    ([AudioEQNode], [AudioChannelControl], [AudioProfile]).

    Conventions.
    - The numeric curves ([symmetricalLogScaleY], the slider mapping, the
      frequency response) are embedded over the reals: a JavaScript number is
      read as the real it denotes, [Math.log10], [Math.pow] and [Math.log] as
      the exact functions, and [-Infinity] as a constructor of its own.
    - Numbers that the code only stores and copies (gains, frequencies,
      timestamps) are rationals or integers, so that the structural part of
      the model computes.
    - Objects that the code shares and mutates (the profiles of the store and
      the active profile) live in an explicit heap of references. *)

From Stdlib Require Import ZArith QArith Qround Reals Lra Lia List String.
From Stdlib Require Lqa.
From stdpp Require Import gmap strings list pretty.

(** ** Numeric curves over the reals *)

Module Curve.
Local Open Scope R_scope.

(** A JavaScript number that is either a real or [-Infinity]. *)
Inductive jsnum : Type :=
  | NegInfinity
  | Num (r : R).

(** [Math.sign]. *)
Definition Math_sign (x : R) : R :=
  if Rlt_dec 0 x then 1 else if Rlt_dec x 0 then -1 else 0.

(** [Math.log], the natural logarithm. *)
Definition Math_log (x : R) : R := ln x.

(** [Math.log10], meaningful for positive arguments. *)
Definition Math_log10 (x : R) : R := ln x / ln 10.

(** [Math.pow] for a positive base. *)
Definition Math_pow (b e : R) : R := Rpower b e.

(** Modelled from the spec: [Utils.clamp] is imported from [Utils.mjs], which
    is not part of the sources; the spec uses [clamp(v, lo, hi)] for the value
    [v] forced into the interval from [lo] to [hi]. *)
Definition clamp (v lo hi : R) : R := Rmin (Rmax v lo) hi.

(** [symmetricalLogScaleY(x, c)]. *)
Definition symmetricalLogScaleY (x c : R) : R :=
  Math_sign x * Math_log10 (Rabs (x / c) + 1).

(** [symmetricalLogScaleX(y, c)]. *)
Definition symmetricalLogScaleX (y c : R) : R :=
  Math_sign y * c * (Math_pow 10 (Rabs y) - 1).

(** The constant [c = 40 / Math.log(10)] of both mixer mappings. *)
Definition mixer_c : R := 40 / Math_log 10.

(** [mixerDBToPositionRatio(db)]. The guard [db <= -50] holds for
    [-Infinity]. *)
Definition mixerDBToPositionRatio (db : jsnum) : R :=
  match db with
  | NegInfinity => 1
  | Num d =>
      if Rle_dec d (-50) then 1
      else
        let c := mixer_c in
        let maxY := symmetricalLogScaleY 10 c in
        let minY := symmetricalLogScaleY (-50) c in
        let y := symmetricalLogScaleY d c in
        clamp ((maxY - y) / (maxY - minY)) 0 1
  end.

(** [mixerPositionRatioToDB(ratio)]. *)
Definition mixerPositionRatioToDB (ratio : R) : jsnum :=
  if Rle_dec 1 ratio then NegInfinity
  else
    let c := mixer_c in
    let maxY := symmetricalLogScaleY 10 c in
    let minY := symmetricalLogScaleY (-50) c in
    let y := maxY - ratio * (maxY - minY) in
    Num (clamp (symmetricalLogScaleX y c) (-50) 10).

(** [dbToGain(db)] and [gainToDB(gain)]. *)
Definition dbToGain (db : R) : R := Math_pow 10 (db / 20).
Definition gainToDB (gain : R) : R := 20 * Math_log10 gain.

(** *** Elementary facts *)

Lemma ln10_pos : 0 < ln 10.
Proof.
  rewrite <- ln_1. apply ln_increasing; lra.
Qed.

Lemma mixer_c_pos : 0 < mixer_c.
Proof.
  unfold mixer_c, Math_log. apply Rdiv_lt_0_compat; [lra | apply ln10_pos].
Qed.

Lemma Math_sign_pos x : 0 < x -> Math_sign x = 1.
Proof.
  intros H. unfold Math_sign. destruct (Rlt_dec 0 x); [reflexivity | lra].
Qed.

Lemma Math_sign_neg x : x < 0 -> Math_sign x = -1.
Proof.
  intros H. unfold Math_sign.
  destruct (Rlt_dec 0 x); [lra |]. destruct (Rlt_dec x 0); [reflexivity | lra].
Qed.

Lemma Math_sign_zero : Math_sign 0 = 0.
Proof.
  unfold Math_sign.
  destruct (Rlt_dec 0 0); [lra |]. destruct (Rlt_dec 0 0); [lra | reflexivity].
Qed.

Lemma Math_log10_1 : Math_log10 1 = 0.
Proof. unfold Math_log10. rewrite ln_1. unfold Rdiv. apply Rmult_0_l. Qed.

Lemma Math_log10_lt a b : 0 < a -> a < b -> Math_log10 a < Math_log10 b.
Proof.
  intros Ha Hab. unfold Math_log10.
  apply Rmult_lt_compat_r.
  - apply Rinv_0_lt_compat, ln10_pos.
  - apply ln_increasing; assumption.
Qed.

Lemma Math_log10_pos a : 1 < a -> 0 < Math_log10 a.
Proof.
  intros Ha. rewrite <- Math_log10_1. apply Math_log10_lt; lra.
Qed.

Lemma Math_pow10_log10 a : 0 < a -> Math_pow 10 (Math_log10 a) = a.
Proof.
  intros Ha. unfold Math_pow, Rpower, Math_log10.
  replace (ln a / ln 10 * ln 10) with (ln a).
  - apply exp_ln, Ha.
  - field. apply Rgt_not_eq, ln10_pos.
Qed.

(** [symmetricalLogScaleY] on each side of zero. *)
Lemma symY_pos x c :
  0 < c -> 0 < x -> symmetricalLogScaleY x c = Math_log10 (x / c + 1).
Proof.
  intros Hc Hx. unfold symmetricalLogScaleY.
  rewrite Math_sign_pos by assumption.
  rewrite Rabs_pos_eq.
  - ring.
  - left. apply Rdiv_lt_0_compat; assumption.
Qed.

Lemma symY_neg x c :
  0 < c -> x < 0 -> symmetricalLogScaleY x c = - Math_log10 (- x / c + 1).
Proof.
  intros Hc Hx. unfold symmetricalLogScaleY.
  rewrite Math_sign_neg by assumption.
  assert (Hq : x / c < 0).
  { unfold Rdiv. apply Rmult_neg_pos; [exact Hx | apply Rinv_0_lt_compat, Hc]. }
  rewrite Rabs_left by exact Hq.
  replace (- (x / c)) with (- x / c) by (unfold Rdiv; ring).
  ring.
Qed.

Lemma symY_zero c : symmetricalLogScaleY 0 c = 0.
Proof.
  unfold symmetricalLogScaleY. rewrite Math_sign_zero. ring.
Qed.

Lemma symY_pos_gt0 x c : 0 < c -> 0 < x -> 0 < symmetricalLogScaleY x c.
Proof.
  intros Hc Hx. rewrite symY_pos by assumption.
  apply Math_log10_pos.
  assert (0 < x / c) by (apply Rdiv_lt_0_compat; assumption). lra.
Qed.

Lemma symY_neg_lt0 x c : 0 < c -> x < 0 -> symmetricalLogScaleY x c < 0.
Proof.
  intros Hc Hx. rewrite symY_neg by assumption.
  assert (0 < - x / c) by (apply Rdiv_lt_0_compat; lra).
  assert (0 < Math_log10 (- x / c + 1)) by (apply Math_log10_pos; lra).
  lra.
Qed.

(** [symmetricalLogScaleY] is strictly increasing in its first argument. *)
Lemma symY_lt x1 x2 c :
  0 < c -> x1 < x2 -> symmetricalLogScaleY x1 c < symmetricalLogScaleY x2 c.
Proof.
  intros Hc Hlt.
  assert (Hic : 0 < / c) by (apply Rinv_0_lt_compat, Hc).
  destruct (Rtotal_order x1 0) as [H1 | [H1 | H1]];
    destruct (Rtotal_order x2 0) as [H2 | [H2 | H2]]; try lra.
  - (* both negative *)
    rewrite (symY_neg x1), (symY_neg x2) by assumption.
    assert (0 < - x2 / c) by (apply Rdiv_lt_0_compat; lra).
    assert (- x2 / c < - x1 / c).
    { unfold Rdiv. apply Rmult_lt_compat_r; lra. }
    assert (Math_log10 (- x2 / c + 1) < Math_log10 (- x1 / c + 1))
      by (apply Math_log10_lt; lra).
    lra.
  - subst x2. rewrite symY_zero. apply symY_neg_lt0; assumption.
  - pose proof (symY_neg_lt0 x1 c Hc H1).
    pose proof (symY_pos_gt0 x2 c Hc H2). lra.
  - subst x1. rewrite symY_zero. apply symY_pos_gt0; assumption.
  - rewrite (symY_pos x1), (symY_pos x2) by assumption.
    assert (0 < x1 / c) by (apply Rdiv_lt_0_compat; lra).
    assert (x1 / c < x2 / c).
    { unfold Rdiv. apply Rmult_lt_compat_r; lra. }
    apply Math_log10_lt; lra.
Qed.

Lemma symY_le x1 x2 c :
  0 < c -> x1 <= x2 -> symmetricalLogScaleY x1 c <= symmetricalLogScaleY x2 c.
Proof.
  intros Hc [Hlt | Heq].
  - left. apply symY_lt; assumption.
  - subst. right. reflexivity.
Qed.

(** [symmetricalLogScaleX] inverts [symmetricalLogScaleY]. *)
Lemma symX_symY x c :
  0 < c -> symmetricalLogScaleX (symmetricalLogScaleY x c) c = x.
Proof.
  intros Hc.
  destruct (Rtotal_order x 0) as [Hx | [Hx | Hx]].
  - pose proof (symY_neg_lt0 x c Hc Hx) as Hy.
    unfold symmetricalLogScaleX.
    rewrite Math_sign_neg by exact Hy.
    rewrite Rabs_left by exact Hy.
    rewrite symY_neg by assumption.
    rewrite Ropp_involutive.
    assert (0 < - x / c) by (apply Rdiv_lt_0_compat; lra).
    rewrite Math_pow10_log10 by lra.
    field. apply Rgt_not_eq, Hc.
  - subst x. rewrite symY_zero. unfold symmetricalLogScaleX.
    rewrite Math_sign_zero. ring.
  - pose proof (symY_pos_gt0 x c Hc Hx) as Hy.
    unfold symmetricalLogScaleX.
    rewrite Math_sign_pos by exact Hy.
    rewrite Rabs_pos_eq by (left; exact Hy).
    rewrite symY_pos by assumption.
    assert (0 < x / c) by (apply Rdiv_lt_0_compat; lra).
    rewrite Math_pow10_log10 by lra.
    field. apply Rgt_not_eq, Hc.
Qed.

Lemma clamp_id v lo hi : lo <= v -> v <= hi -> clamp v lo hi = v.
Proof.
  intros H1 H2. unfold clamp.
  rewrite Rmax_left by exact H1. apply Rmin_left, H2.
Qed.

Lemma clamp_bounds v lo hi : lo <= hi -> lo <= clamp v lo hi <= hi.
Proof.
  intros H. unfold clamp. split.
  - apply Rmin_glb; [apply Rmax_r | exact H].
  - apply Rmin_r.
Qed.

Lemma clamp_mono v w lo hi : v <= w -> clamp v lo hi <= clamp w lo hi.
Proof.
  intros H. unfold clamp.
  apply Rle_min_compat_r. apply Rle_max_compat_r. exact H.
Qed.

(** The span of the slider, [maxY - minY], is positive. *)
Lemma mixer_span_pos :
  0 < symmetricalLogScaleY 10 mixer_c - symmetricalLogScaleY (-50) mixer_c.
Proof.
  pose proof (symY_lt (-50) 10 mixer_c mixer_c_pos). lra.
Qed.

(** *** The slider mapping *)

(** Below the guard, the position of a decibel value is the unclamped
    quotient, and it lies in the half-open interval from 0 to 1. *)
Lemma position_unclamped d :
  -50 < d -> d <= 10 ->
  let maxY := symmetricalLogScaleY 10 mixer_c in
  let minY := symmetricalLogScaleY (-50) mixer_c in
  let y := symmetricalLogScaleY d mixer_c in
  mixerDBToPositionRatio (Num d) = (maxY - y) / (maxY - minY)
  /\ 0 <= (maxY - y) / (maxY - minY) < 1.
Proof.
  intros Hlo Hhi maxY minY y.
  pose proof mixer_c_pos as Hc.
  assert (Hy1 : minY < y) by (apply symY_lt; assumption).
  assert (Hy2 : y <= maxY) by (apply symY_le; assumption).
  assert (Hspan : 0 < maxY - minY) by lra.
  assert (Hq : 0 <= (maxY - y) / (maxY - minY) < 1).
  { split.
    - apply Rmult_le_pos; [lra | left; apply Rinv_0_lt_compat, Hspan].
    - apply (Rmult_lt_reg_r (maxY - minY)); [exact Hspan |].
      unfold Rdiv. rewrite Rmult_assoc, Rinv_l by lra. lra. }
  split; [| exact Hq].
  unfold mixerDBToPositionRatio.
  destruct (Rle_dec d (-50)) as [Hle | _]; [lra |].
  fold maxY minY y. apply clamp_id; lra.
Qed.

Lemma mixerDBToPositionRatio_guard d :
  d <= -50 -> mixerDBToPositionRatio (Num d) = 1.
Proof.
  intros H. unfold mixerDBToPositionRatio.
  destruct (Rle_dec d (-50)); [reflexivity | contradiction].
Qed.

Lemma mixerPositionRatioToDB_guard ratio :
  1 <= ratio -> mixerPositionRatioToDB ratio = NegInfinity.
Proof.
  intros H. unfold mixerPositionRatioToDB.
  destruct (Rle_dec 1 ratio); [reflexivity | contradiction].
Qed.

Lemma mixerDBToPositionRatio_range db :
  0 <= mixerDBToPositionRatio db <= 1.
Proof.
  destruct db as [| d]; simpl; [lra |].
  destruct (Rle_dec d (-50)); [lra |].
  apply clamp_bounds. lra.
Qed.

(** The position never increases with the decibel value, on the whole real
    line. *)
Lemma mixerDBToPositionRatio_antitone d1 d2 :
  d1 <= d2 ->
  mixerDBToPositionRatio (Num d2) <= mixerDBToPositionRatio (Num d1).
Proof.
  intros Hle.
  destruct (Rle_dec d1 (-50)) as [H1 | H1].
  - rewrite (mixerDBToPositionRatio_guard d1 H1).
    apply mixerDBToPositionRatio_range.
  - unfold mixerDBToPositionRatio.
    destruct (Rle_dec d1 (-50)) as [| _]; [contradiction |].
    destruct (Rle_dec d2 (-50)) as [| _]; [lra |].
    cbv zeta. apply clamp_mono.
    pose proof mixer_span_pos as Hspan.
    pose proof (symY_le d1 d2 mixer_c mixer_c_pos Hle) as Hy.
    unfold Rdiv. apply Rmult_le_compat_r.
    + left. apply Rinv_0_lt_compat, Hspan.
    + lra.
Qed.

(** C2, as stated, fails at the lower end of the interval: -50 dB is sent to
    position 1, and position 1 is sent to [-Infinity], which is no real
    number and so within no tolerance of -50. *)
Lemma mixer_roundtrip_fails_at_minus_50 :
  (-50 <= -50 <= 10)
  /\ mixerPositionRatioToDB (mixerDBToPositionRatio (Num (-50))) = NegInfinity
  /\ ~ (exists r : R,
          mixerPositionRatioToDB (mixerDBToPositionRatio (Num (-50))) = Num r).
Proof.
  assert (E : mixerPositionRatioToDB (mixerDBToPositionRatio (Num (-50)))
              = NegInfinity).
  { rewrite mixerDBToPositionRatio_guard by lra.
    apply mixerPositionRatioToDB_guard. lra. }
  split; [lra |]. split; [exact E |].
  intros [r Hr]. rewrite E in Hr. discriminate Hr.
Qed.

(** C2 (amended): for every db strictly above -50 and at most 10,
    [mixerPositionRatioToDB (mixerDBToPositionRatio db)] is db itself (the
    real-number reading of the round trip); every ratio of at least 1 is sent
    to [-Infinity]; every db of at most -50, and [-Infinity], is sent to
    ratio 1; so -50 itself round-trips to [-Infinity]. *)
Theorem mixer_roundtrip :
  (forall db : R, -50 < db -> db <= 10 ->
     mixerPositionRatioToDB (mixerDBToPositionRatio (Num db)) = Num db)
  /\ (forall ratio : R, 1 <= ratio ->
        mixerPositionRatioToDB ratio = NegInfinity)
  /\ (forall db : R, db <= -50 -> mixerDBToPositionRatio (Num db) = 1)
  /\ mixerDBToPositionRatio NegInfinity = 1
  /\ mixerPositionRatioToDB (mixerDBToPositionRatio (Num (-50))) = NegInfinity.
Proof.
  split; [| split; [| split; [| split]]].
  - intros db Hlo Hhi.
    destruct (position_unclamped db Hlo Hhi) as [Eq [Hq0 Hq1]].
    rewrite Eq. unfold mixerPositionRatioToDB.
    match goal with
    | |- context [Rle_dec 1 ?q] => destruct (Rle_dec 1 q) as [Hge | _]
    end; [lra |].
    cbv zeta. f_equal.
    pose proof mixer_span_pos as Hspan.
    match goal with
    | |- clamp (symmetricalLogScaleX ?y _) _ _ = _ =>
        replace y with (symmetricalLogScaleY db mixer_c)
          by (field; lra)
    end.
    rewrite symX_symY by apply mixer_c_pos.
    apply clamp_id; lra.
  - exact mixerPositionRatioToDB_guard.
  - exact mixerDBToPositionRatio_guard.
  - reflexivity.
  - rewrite mixerDBToPositionRatio_guard by lra.
    apply mixerPositionRatioToDB_guard. lra.
Qed.

Lemma mixer_roundtrip_witness :
  mixerPositionRatioToDB (mixerDBToPositionRatio (Num 0)) = Num 0
  /\ mixerPositionRatioToDB 1 = NegInfinity
  /\ mixerDBToPositionRatio (Num (-60)) = 1.
Proof.
  destruct mixer_roundtrip as [Hrt [Hinf [Hone _]]].
  split; [apply (Hrt 0); lra |].
  split; [apply (Hinf 1); lra | apply (Hone (-60)); lra].
Defined.

(** C10: [mixerDBToPositionRatio] returns a value between 0 and 1 for every
    real db (and for [-Infinity]), and for db1 <= db2 between -50 and 10 the
    position of db1 is at least the position of db2. *)
Theorem mixerDBToPositionRatio_range_antitone :
  (forall db : jsnum, 0 <= mixerDBToPositionRatio db <= 1)
  /\ (forall db1 db2 : R,
        -50 <= db1 -> db1 <= db2 -> db2 <= 10 ->
        mixerDBToPositionRatio (Num db1) >= mixerDBToPositionRatio (Num db2)).
Proof.
  split.
  - exact mixerDBToPositionRatio_range.
  - intros db1 db2 _ Hle _. apply Rle_ge.
    apply mixerDBToPositionRatio_antitone, Hle.
Qed.

Lemma mixerDBToPositionRatio_range_antitone_witness :
  0 <= mixerDBToPositionRatio (Num 3) <= 1
  /\ mixerDBToPositionRatio (Num (-20)) >= mixerDBToPositionRatio (Num 5).
Proof.
  destruct mixerDBToPositionRatio_range_antitone as [Hr Hm].
  split; [apply Hr | apply (Hm (-20) 5); lra].
Defined.

End Curve.

(** ** Frequency response of the equalizer chain *)

Module Response.
Local Open Scope R_scope.
Import Curve.

Section Synthesizer.

(** The live filter instances are host objects ([BiquadFilterNode]); the host
    gives the linear magnitude of a filter at a frequency. *)
Variable BiquadFilterNode : Type.
Variable magnitude : BiquadFilterNode -> R -> R.

(** [node.getFrequencyResponse(frequencyArray, magResponse, phaseResponse)]:
    the host fills [magResponse] with the magnitude at each frequency. *)
Definition getFrequencyResponse (node : BiquadFilterNode) (frequencyArray : list R)
  : list R :=
  map (magnitude node) frequencyArray.

(** The loop that fills [frequencyArray]. *)
Definition frequencyAt (maxFreq : R) (bufferLength : nat) (i : nat) : R :=
  let step := Math_log10 (maxFreq / 20) / INR bufferLength in
  Rmin (Math_pow 10 (INR i * step + Math_log10 20)) maxFreq.

Definition frequencyArray (maxFreq : R) (bufferLength : nat) : list R :=
  map (frequencyAt maxFreq bufferLength) (seq 0 bufferLength).

(** [20 * Math.log10(magnitude)] for a magnitude that is not negative, as
    the magnitude of a filter is: [Math.log10(0)] is [-Infinity]. *)
Definition decibels (mag : R) : jsnum :=
  if Req_dec_T mag 0 then NegInfinity else Num (20 * Math_log10 mag).

(** The sum of two decibel values: [-Infinity] plus a number, or plus
    [-Infinity], is [-Infinity]. *)
Definition dbPlus (a b : jsnum) : jsnum :=
  match a, b with
  | Num x, Num y => Num (x + y)
  | _, _ => NegInfinity
  end.

(** The inner loop [dbResponse[i] += 20 * Math.log10(currentMagResponse[i])]. *)
Definition accumulate (dbResponse : list jsnum) (currentMagResponse : list R)
  : list jsnum :=
  zip_with (fun db mag => dbPlus db (decibels mag))
    dbResponse currentMagResponse.

(** [this.equalizerNodes.forEach(...)] over a zero-filled [dbResponse]. *)
Definition dbResponseOf (maxFreq : R) (bufferLength : nat)
    (equalizerNodes : list BiquadFilterNode) : list jsnum :=
  let freqs := frequencyArray maxFreq bufferLength in
  fold_left
    (fun dbResponse node =>
       accumulate dbResponse (getFrequencyResponse node freqs))
    equalizerNodes
    (replicate bufferLength (Num 0)).

(** The width the canvas reports after
    [canvas.width = clientWidth * devicePixelRatio]: an integer. *)
Definition canvasWidth (clientWidth : nat) (devicePixelRatio : Q) : nat :=
  Z.to_nat (Qfloor (inject_Z (Z.of_nat clientWidth) * devicePixelRatio)).

(** [renderEqualizerResponse()], up to the assignment of
    [this.equalizerDbResponse]; [None] when one of the two guards returns
    early. [analysers] says that both analysers exist. *)
Definition renderEqualizerResponse (analysers : bool)
    (clientWidth clientHeight : nat) (devicePixelRatio : Q)
    (sampleRate : R) (equalizerNodes : list BiquadFilterNode)
  : option (list jsnum) :=
  if negb analysers then None
  else if (clientWidth =? 0)%nat || (clientHeight =? 0)%nat then None
  else
    let width := canvasWidth clientWidth devicePixelRatio in
    let maxFreq := sampleRate / 2 in
    let bufferLength := width in
    Some (dbResponseOf maxFreq bufferLength equalizerNodes).

(** The sum of the decibel contributions of the stages at one frequency. *)
Definition stageSum (equalizerNodes : list BiquadFilterNode) (freq : R)
  : jsnum :=
  fold_right dbPlus (Num 0)
    (map (fun node => decibels (magnitude node freq)) equalizerNodes).

Lemma dbPlus_assoc a b c : dbPlus (dbPlus a b) c = dbPlus a (dbPlus b c).
Proof.
  destruct a as [| x], b as [| y], c as [| z]; simpl; try reflexivity.
  f_equal. ring.
Qed.

Lemma dbPlus_0_r a : dbPlus a (Num 0) = a.
Proof. destruct a as [| x]; simpl; [reflexivity | f_equal; ring]. Qed.

Lemma dbPlus_0_l a : dbPlus (Num 0) a = a.
Proof. destruct a as [| x]; simpl; [reflexivity | f_equal; ring]. Qed.

Lemma decibels_pos mag : 0 < mag -> decibels mag = Num (20 * Math_log10 mag).
Proof.
  intros H. unfold decibels. destruct (Req_dec_T mag 0) as [E | _];
    [lra | reflexivity].
Qed.

Lemma decibels_zero : decibels 0 = NegInfinity.
Proof.
  unfold decibels. destruct (Req_dec_T 0 0) as [_ | E];
    [reflexivity | contradiction E; reflexivity].
Qed.

(** Over stages of positive magnitude the sum is the sum of real numbers. *)
Lemma stageSum_pos (equalizerNodes : list BiquadFilterNode) freq :
  (forall node, node ∈ equalizerNodes -> 0 < magnitude node freq) ->
  stageSum equalizerNodes freq
  = Num (fold_right Rplus 0
           (map (fun node => 20 * Math_log10 (magnitude node freq))
              equalizerNodes)).
Proof.
  unfold stageSum.
  induction equalizerNodes as [| node nodes IH]; intros Hpos; simpl;
    [reflexivity |].
  rewrite IH by (intros n Hn; apply Hpos; right; exact Hn).
  rewrite decibels_pos by (apply Hpos; left). reflexivity.
Qed.

(** One stage of magnitude 0 makes the sum [-Infinity]. *)
Lemma stageSum_zero (equalizerNodes : list BiquadFilterNode) freq :
  (exists node, node ∈ equalizerNodes /\ magnitude node freq = 0) ->
  stageSum equalizerNodes freq = NegInfinity.
Proof.
  unfold stageSum.
  induction equalizerNodes as [| node nodes IH]; intros [n [Hn Hz]].
  - apply elem_of_nil in Hn. contradiction.
  - simpl. apply elem_of_cons in Hn as [<- | Hn].
    + rewrite Hz, decibels_zero. reflexivity.
    + rewrite IH by (exists n; split; assumption).
      destruct (decibels (magnitude node freq)); reflexivity.
Qed.

Lemma length_frequencyArray maxFreq n : length (frequencyArray maxFreq n) = n.
Proof. unfold frequencyArray. rewrite length_map. apply length_seq. Qed.

Lemma lookup_frequencyArray maxFreq n i :
  (i < n)%nat -> frequencyArray maxFreq n !! i = Some (frequencyAt maxFreq n i).
Proof.
  intros Hi. unfold frequencyArray.
  rewrite list_lookup_fmap, lookup_seq_lt by exact Hi. reflexivity.
Qed.

(** One pass of the outer loop adds one stage's contribution to every
    entry. *)
Lemma lookup_accumulate db freqs node i d f :
  db !! i = Some d -> freqs !! i = Some f ->
  accumulate db (getFrequencyResponse node freqs) !! i
  = Some (dbPlus d (decibels (magnitude node f))).
Proof.
  intros Hd Hf. unfold accumulate, getFrequencyResponse.
  rewrite lookup_zip_with, Hd. simpl.
  rewrite list_lookup_fmap, Hf. reflexivity.
Qed.

Lemma lookup_fold_accumulate freqs nodes : forall db i d f,
  db !! i = Some d -> freqs !! i = Some f ->
  fold_left
    (fun dbResponse node =>
       accumulate dbResponse (getFrequencyResponse node freqs)) nodes db !! i
  = Some (dbPlus d (stageSum nodes f)).
Proof.
  induction nodes as [| node nodes IH]; intros db i d f Hd Hf; simpl.
  - rewrite Hd. f_equal. unfold stageSum. simpl. symmetry. apply dbPlus_0_r.
  - rewrite (IH _ i (dbPlus d (decibels (magnitude node f))) f).
    + f_equal. unfold stageSum. simpl. apply dbPlus_assoc.
    + apply lookup_accumulate; assumption.
    + exact Hf.
Qed.

Lemma length_fold_accumulate freqs nodes : forall db,
  length db = length freqs ->
  length (fold_left
    (fun dbResponse node =>
       accumulate dbResponse (getFrequencyResponse node freqs)) nodes db)
  = length freqs.
Proof.
  induction nodes as [| node nodes IH]; intros db Hlen; simpl.
  - exact Hlen.
  - apply IH. unfold accumulate, getFrequencyResponse.
    rewrite length_zip_with, length_map. lia.
Qed.

Lemma lookup_dbResponseOf maxFreq n nodes i :
  (i < n)%nat ->
  dbResponseOf maxFreq n nodes !! i
  = Some (stageSum nodes (frequencyAt maxFreq n i)).
Proof.
  intros Hi. unfold dbResponseOf. cbv zeta.
  rewrite (lookup_fold_accumulate _ nodes _ i (Num 0)
             (frequencyAt maxFreq n i)).
  - f_equal. apply dbPlus_0_l.
  - apply lookup_replicate_2. exact Hi.
  - apply lookup_frequencyArray, Hi.
Qed.

Lemma length_dbResponseOf maxFreq n nodes :
  length (dbResponseOf maxFreq n nodes) = n.
Proof.
  unfold dbResponseOf. cbv zeta.
  rewrite length_fold_accumulate; [apply length_frequencyArray |].
  rewrite length_replicate, length_frequencyArray. reflexivity.
Qed.

(** C3: when both guards pass, the response holds one decibel value per
    canvas column (the sample count); sample i is taken at
    [min(10^(i*step + log10 20), nyquist)] with
    [step = log10(nyquist/20) / sampleCount]; each value is the sum over the
    stages of [20 * log10] of the stage's magnitude at that frequency, where
    a stage of magnitude 0 contributes [-Infinity] and makes the sum
    [-Infinity]: over stages of positive magnitude the value is the sum of
    real numbers; for an empty chain every value is 0. The magnitude of a
    filter is not negative. *)
Theorem renderEqualizerResponse_samples
    (clientWidth clientHeight : nat) (devicePixelRatio : Q)
    (sampleRate : R) (equalizerNodes : list BiquadFilterNode) :
  (forall node freq, 0 <= magnitude node freq) ->
  clientWidth <> 0%nat -> clientHeight <> 0%nat ->
  let sampleCount := canvasWidth clientWidth devicePixelRatio in
  let nyquist := sampleRate / 2 in
  let step := Math_log10 (nyquist / 20) / INR sampleCount in
  exists dbResponse,
    renderEqualizerResponse true clientWidth clientHeight devicePixelRatio
      sampleRate equalizerNodes = Some dbResponse
    /\ length dbResponse = sampleCount
    /\ (forall i, (i < sampleCount)%nat ->
          let freq := Rmin (Math_pow 10 (INR i * step + Math_log10 20))
                        nyquist in
          frequencyArray nyquist sampleCount !! i = Some freq
          /\ dbResponse !! i
             = Some (fold_right dbPlus (Num 0)
                       (map (fun node => decibels (magnitude node freq))
                          equalizerNodes))
          /\ ((forall node, node ∈ equalizerNodes ->
                 0 < magnitude node freq) ->
              dbResponse !! i
              = Some (Num (fold_right Rplus 0
                             (map (fun node =>
                                     20 * Math_log10 (magnitude node freq))
                                equalizerNodes))))
          /\ ((exists node, node ∈ equalizerNodes
                            /\ magnitude node freq = 0) ->
              dbResponse !! i = Some NegInfinity))
    /\ (equalizerNodes = [] -> forall i, (i < sampleCount)%nat ->
          dbResponse !! i = Some (Num 0)).
Proof.
  intros Hmag Hw Hh sampleCount nyquist step.
  exists (dbResponseOf nyquist sampleCount equalizerNodes).
  split; [| split; [| split]].
  - unfold renderEqualizerResponse. simpl.
    destruct clientWidth; [contradiction |].
    destruct clientHeight; [contradiction |]. reflexivity.
  - apply length_dbResponseOf.
  - intros i Hi freq.
    assert (Hat : dbResponseOf nyquist sampleCount equalizerNodes !! i
                  = Some (stageSum equalizerNodes freq))
      by (apply lookup_dbResponseOf, Hi).
    split; [apply lookup_frequencyArray, Hi |].
    split; [exact Hat |]. split.
    + intros Hpos. rewrite Hat, (stageSum_pos _ _ Hpos). reflexivity.
    + intros Hzero. rewrite Hat, (stageSum_zero _ _ Hzero). reflexivity.
  - intros -> i Hi. rewrite lookup_dbResponseOf by exact Hi. reflexivity.
Qed.

End Synthesizer.

(** A chain of two stages of constant magnitude 1 on a canvas of 4 columns. *)
Lemma renderEqualizerResponse_samples_witness :
  exists dbResponse,
    renderEqualizerResponse unit (fun _ _ => 1) true 4 3 1 44100 [tt; tt]
    = Some dbResponse
    /\ length dbResponse = 4%nat.
Proof.
  destruct (renderEqualizerResponse_samples unit (fun _ _ => 1)
              4 3 1 44100 [tt; tt]) as [db [H1 [H2 _]]];
    [intros; lra | lia | lia |].
  exists db. split; [exact H1 | exact H2].
Defined.

End Response.

(** ** Outcomes of methods and event handlers

    A call either returns or is cut short by a JavaScript exception; both
    carry the state reached at that moment. *)

Inductive error : Type :=
  | TypeError
  | Error (message : string).

Inductive outcome (A : Type) : Type :=
  | Returned (a : A)
  | Thrown (e : error) (a : A).
Arguments Returned {A} a.
Arguments Thrown {A} e a.

Definition outcome_state {A : Type} (o : outcome A) : A :=
  match o with Returned a => a | Thrown _ a => a end.

(** ** The mixer: effective gains, solo, padding *)

Module Mixer.
Local Open Scope Q_scope.

(** [AudioChannelControl]: the fields set by the constructor. A channel id
    that is no index of the host's arrays (a missing id is [NaN]) behaves like
    any out-of-range integer. *)
Record AudioChannelControl : Type := mkChannel {
  channelId : Z;
  gain : Q;
  muted : bool;
  solo : bool
}.

Definition setSolo (b : bool) (channel : AudioChannelControl)
  : AudioChannelControl :=
  {| channelId := channelId channel; gain := gain channel;
     muted := muted channel; solo := b |}.

Definition setMuted (b : bool) (channel : AudioChannelControl)
  : AudioChannelControl :=
  {| channelId := channelId channel; gain := gain channel;
     muted := b; solo := solo channel |}.

(** [array[id]] is defined exactly for the integers from 0 below the
    length. *)
Definition arrayIndex (len : nat) (id : Z) : option nat :=
  if ((0 <=? id) && (id <? Z.of_nat len))%Z then Some (Z.to_nat id) else None.

(** [channels.find((channel) => channel.solo)], as the position of the
    channel found: [channel !== soloChannel] compares object identities, and
    the objects of the array are pairwise distinct. *)
Fixpoint findSolo (channels : list AudioChannelControl) : option nat :=
  match channels with
  | [] => None
  | channel :: rest =>
      if solo channel then Some 0%nat else S <$> findSolo rest
  end.

(** The value that the body of the [forEach] of [updateMixerNodes] assigns
    for the channel at position [i]. *)
Definition assignedGain (soloChannel : option nat) (i : nat)
    (channel : AudioChannelControl) : Q :=
  match soloChannel with
  | Some s =>
      if negb (i =? s)%nat && negb (channelId channel =? 6)%Z then 0
      else if muted channel then 0 else gain channel
  | None => if muted channel then 0 else gain channel
  end.

(** The [forEach] of [updateMixerNodes] from position [i] on;
    [this.channelGains[channel.id].gain.value = v] throws when
    [channelGains[channel.id]] is undefined. *)
Fixpoint pushGains (soloChannel : option nat) (i : nat)
    (channels : list AudioChannelControl) (channelGains : list Q)
  : outcome (list Q) :=
  match channels with
  | [] => Returned channelGains
  | channel :: rest =>
      match arrayIndex (length channelGains) (channelId channel) with
      | None => Thrown TypeError channelGains
      | Some k =>
          pushGains soloChannel (S i) rest
            (<[k := assignedGain soloChannel i channel]> channelGains)
      end
  end.

(** [updateMixerNodes()]: [channelGains] holds the [gain.value] of the host
    gain nodes, [currentProfile] the mixer channels of the active profile. *)
Definition updateMixerNodes (channelGains : option (list Q))
    (currentProfile : option (list AudioChannelControl))
  : outcome (option (list Q)) :=
  match channelGains, currentProfile with
  | Some gains, Some channels =>
      match pushGains (findSolo channels) 0 channels gains with
      | Returned gains' => Returned (Some gains')
      | Thrown e gains' => Thrown e (Some gains')
      end
  | _, _ => Returned channelGains
  end.

(** The [forEach] of the solo handler: each channel's flag is cleared before
    its element is used, and [els.soloButton] throws when
    [this.mixerChannelElements[channel.id]] is undefined. *)
Fixpoint clearSolo (nElements : nat) (channels : list AudioChannelControl)
  : outcome (list AudioChannelControl) :=
  match channels with
  | [] => Returned []
  | channel :: rest =>
      match arrayIndex nElements (channelId channel) with
      | None => Thrown TypeError (setSolo false channel :: rest)
      | Some _ =>
          match clearSolo nElements rest with
          | Returned rest' => Returned (setSolo false channel :: rest')
          | Thrown e rest' => Thrown e (setSolo false channel :: rest')
          end
      end
  end.

(** The click handler of the solo button of the channel at position [k] of
    the profile captured by [createMixerChannel], on the channels of that
    profile; [nElements] is the length of [this.mixerChannelElements]. *)
Definition soloClick (nElements : nat) (channels : list AudioChannelControl)
    (k : nat) : outcome (list AudioChannelControl) :=
  match channels !! k with
  | None => Returned channels
  | Some channel =>
      if solo channel then
        Returned (alter (fun c => setSolo (negb (solo c)) c) k channels)
      else
        match clearSolo nElements channels with
        | Returned cleared =>
            Returned (alter (fun c => setSolo (negb (solo c)) c) k cleared)
        | Thrown e cleared => Thrown e cleared
        end
  end.

(** The click handler of the mute button. *)
Definition muteClick (channels : list AudioChannelControl) (k : nat)
  : list AudioChannelControl :=
  alter (fun c => setMuted (negb (muted c)) c) k channels.

(** The padding loop of [refreshMixer]:
    [for (let i = mixerChannels.length; i < 7; i++) mixerChannels.push(...)]. *)
Definition padChannels (mixerChannels : list AudioChannelControl)
  : list AudioChannelControl :=
  let n := length mixerChannels in
  if (n <? 7)%nat then
    mixerChannels
      ++ map (fun i => mkChannel (Z.of_nat i) 1 false false) (seq n (7 - n))
  else mixerChannels.

(** [refreshMixer()] on the mixer channels of the active profile: the padded
    channels and the number of entries of [this.mixerChannelElements]. Without
    an active profile it returns before touching either. *)
Definition refreshMixer (currentProfile : option (list AudioChannelControl))
  : option (list AudioChannelControl) * nat :=
  match currentProfile with
  | None => (None, 0%nat)
  | Some mixerChannels => (Some (padChannels mixerChannels), 7%nat)
  end.



(** At most one channel of the sequence has its solo flag set. *)
Definition atMostOneSolo (channels : list AudioChannelControl) : Prop :=
  forall i j ci cj,
    channels !! i = Some ci -> channels !! j = Some cj ->
    solo ci = true -> solo cj = true -> i = j.

(** *** Effective gains *)

Lemma arrayIndex_Some len id k :
  arrayIndex len id = Some k <->
  (0 <= id < Z.of_nat len)%Z /\ k = Z.to_nat id.
Proof.
  unfold arrayIndex.
  destruct (0 <=? id)%Z eqn:E1; destruct (id <? Z.of_nat len)%Z eqn:E2; simpl;
    split; try discriminate; try lia.
  - intros [= <-]. lia.
  - intros [_ ->]. reflexivity.
Qed.








(** *** The solo button *)

Lemma clearSolo_returns nElements channels :
  (forall c, c ∈ channels ->
     (0 <= channelId c < Z.of_nat nElements)%Z) ->
  clearSolo nElements channels = Returned (map (setSolo false) channels).
Proof.
  induction channels as [| c rest IH]; intros Hrange; simpl.
  - reflexivity.
  - destruct (arrayIndex nElements (channelId c)) as [k |] eqn:Ek.
    + rewrite IH; [reflexivity |]. intros c' Hin. apply Hrange. right. exact Hin.
    + exfalso. assert (Hc : (0 <= channelId c < Z.of_nat nElements)%Z)
        by (apply Hrange; left).
      unfold arrayIndex in Ek.
      destruct (0 <=? channelId c)%Z eqn:E1;
        destruct (channelId c <? Z.of_nat nElements)%Z eqn:E2;
        simpl in Ek; try discriminate; lia.
Qed.

Lemma soloClick_enable nElements channels k channel :
  channels !! k = Some channel -> solo channel = false ->
  (forall c, c ∈ channels ->
     (0 <= channelId c < Z.of_nat nElements)%Z) ->
  exists channels',
    soloClick nElements channels k = Returned channels'
    /\ length channels' = length channels
    /\ forall j c, channels !! j = Some c ->
         channels' !! j = Some (setSolo (bool_decide (j = k)) c).
Proof.
  intros Hk Hs Hrange. unfold soloClick. rewrite Hk, Hs.
  rewrite clearSolo_returns by exact Hrange.
  eexists. split; [reflexivity |]. split.
  - rewrite length_alter, length_map. reflexivity.
  - intros j c Hj. destruct (decide (j = k)) as [-> | Hne].
    + rewrite list_lookup_alter_eq, list_lookup_fmap, Hj. simpl.
      rewrite bool_decide_eq_true_2 by reflexivity. reflexivity.
    + rewrite list_lookup_alter_ne by congruence.
      rewrite list_lookup_fmap, Hj. simpl.
      rewrite bool_decide_eq_false_2 by exact Hne. reflexivity.
Qed.

Lemma soloClick_disable nElements channels k channel :
  channels !! k = Some channel -> solo channel = true ->
  exists channels',
    soloClick nElements channels k = Returned channels'
    /\ length channels' = length channels
    /\ forall j c, channels !! j = Some c ->
         channels' !! j = Some (if decide (j = k) then setSolo false c else c).
Proof.
  intros Hk Hs. unfold soloClick. rewrite Hk, Hs.
  eexists. split; [reflexivity |]. split.
  - apply length_alter.
  - intros j c Hj. destruct (decide (j = k)) as [-> | Hne].
    + rewrite list_lookup_alter_eq, Hj. simpl.
      assert (c = channel) by congruence. subst c. rewrite Hs. reflexivity.
    + rewrite list_lookup_alter_ne by congruence. exact Hj.
Qed.

(** The [forEach] either clears every flag, when every id has a mixer
    element, or throws at the first id that has none: the flags up to that
    channel are cleared and the later channels are as they were. *)
Lemma clearSolo_cases nElements channels :
  ((forall c, c ∈ channels -> (0 <= channelId c < Z.of_nat nElements)%Z)
   /\ clearSolo nElements channels = Returned (map (setSolo false) channels))
  \/ ((exists c, c ∈ channels
                 /\ ~ (0 <= channelId c < Z.of_nat nElements)%Z)
      /\ exists cleared,
           clearSolo nElements channels = Thrown TypeError cleared
           /\ length cleared = length channels
           /\ forall j c, channels !! j = Some c ->
                exists c', cleared !! j = Some c'
                           /\ (c' = setSolo false c \/ c' = c)).
Proof.
  induction channels as [| c rest IH]; simpl.
  - left. split; [| reflexivity]. intros c Hc. inversion Hc.
  - destruct (arrayIndex nElements (channelId c)) as [i |] eqn:Ei.
    + apply arrayIndex_Some in Ei as [Hc _].
      destruct IH as [[Hall ->] | [[bad [Hbad Hout]] [cleared [-> [Hlen Hat]]]]].
      * left. split; [| reflexivity].
        intros c' Hc'. apply elem_of_cons in Hc' as [-> | Hc'];
          [exact Hc | apply Hall, Hc'].
      * right. split; [exists bad; split; [right; exact Hbad | exact Hout] |].
        eexists. split; [reflexivity |]. split; [simpl; f_equal; exact Hlen |].
        intros [| j] c' Hj; simpl in Hj.
        -- injection Hj as <-. eexists. split; [reflexivity | left; reflexivity].
        -- apply (Hat j c' Hj).
    + right. split.
      * exists c. split; [left |]. intros Hc.
        assert (Hs : arrayIndex nElements (channelId c)
                     = Some (Z.to_nat (channelId c)))
          by (apply arrayIndex_Some; split; [exact Hc | reflexivity]).
        rewrite Hs in Ei. discriminate Ei.
      * eexists. split; [reflexivity |]. split; [reflexivity |].
        intros [| j] c' Hj; simpl in Hj.
        -- injection Hj as <-. eexists. split; [reflexivity | left; reflexivity].
        -- exists c'. split; [exact Hj | right; reflexivity].
Qed.

(** C4, as stated, fails for a profile that was stored or imported with
    three soloed channels: switching the first one off leaves the other two
    soloed. *)
Lemma solo_toggle_leaves_two_soloed :
  let channels :=
    [mkChannel 0 1 false true; mkChannel 1 1 false true;
     mkChannel 2 1 false true; mkChannel 3 1 false false;
     mkChannel 4 1 false false; mkChannel 5 1 false false;
     mkChannel 6 1 false false] in
  let channels' :=
    [mkChannel 0 1 false false; mkChannel 1 1 false true;
     mkChannel 2 1 false true; mkChannel 3 1 false false;
     mkChannel 4 1 false false; mkChannel 5 1 false false;
     mkChannel 6 1 false false] in
  soloClick 7 channels 0 = Returned channels'
  /\ ~ atMostOneSolo channels'.
Proof.
  split; [reflexivity |].
  intros H.
  specialize (H 1%nat 2%nat _ _ eq_refl eq_refl eq_refl eq_refl).
  discriminate H.
Qed.

(** C4 (amended): a click on the solo button of the channel at position k.
    On a channel whose flag is false it clears the flag of every channel of
    the profile, the master included, before setting it: when the id of
    every channel has a mixer element the click returns, and immediately
    afterwards exactly the toggled channel has solo=true (toggling B after A
    was soloed leaves A's flag false and B's true); when some id has no mixer
    element the click throws a TypeError while clearing, and the toggled
    channel is left with solo=false. On a channel whose flag is true it
    clears that flag only, whatever the ids. After any click at most one
    channel is soloed provided at most one was before. *)
Theorem soloClick_exclusive
    (nElements : nat) (channels : list AudioChannelControl) (k : nat)
    (channel : AudioChannelControl) :
  channels !! k = Some channel ->
  (solo channel = false ->
   (forall c, c ∈ channels ->
      (0 <= channelId c < Z.of_nat nElements)%Z) ->
   exists channels',
     soloClick nElements channels k = Returned channels'
     /\ length channels' = length channels
     /\ (forall j c, channels !! j = Some c ->
           channels' !! j = Some (setSolo (bool_decide (j = k)) c))
     /\ atMostOneSolo channels')
  /\ (solo channel = false ->
      (exists c, c ∈ channels
                 /\ ~ (0 <= channelId c < Z.of_nat nElements)%Z) ->
      exists cleared,
        soloClick nElements channels k = Thrown TypeError cleared
        /\ length cleared = length channels
        /\ (solo <$> cleared !! k) = Some false
        /\ (forall j c, channels !! j = Some c ->
              exists c', cleared !! j = Some c'
                         /\ (c' = setSolo false c \/ c' = c))
        /\ (atMostOneSolo channels -> atMostOneSolo cleared))
  /\ (solo channel = true ->
      exists channels',
        soloClick nElements channels k = Returned channels'
        /\ length channels' = length channels
        /\ (forall j c, channels !! j = Some c ->
              channels' !! j
              = Some (if decide (j = k) then setSolo false c else c))
        /\ (atMostOneSolo channels -> atMostOneSolo channels')).
Proof.
  intros Hk. split; [| split].
  - intros Hs Hrange.
    destruct (soloClick_enable nElements channels k channel Hk Hs Hrange)
      as [channels' [Hrun [Hlen Hlook]]].
    exists channels'. split; [exact Hrun |]. split; [exact Hlen |].
    split; [exact Hlook |].
    intros i j ci cj Hi Hj Hsi Hsj.
    destruct (lookup_lt_is_Some_2 channels i) as [ci0 Hi0].
    { rewrite <- Hlen. eapply lookup_lt_Some, Hi. }
    destruct (lookup_lt_is_Some_2 channels j) as [cj0 Hj0].
    { rewrite <- Hlen. eapply lookup_lt_Some, Hj. }
    rewrite (Hlook i ci0 Hi0) in Hi. rewrite (Hlook j cj0 Hj0) in Hj.
    injection Hi as <-. injection Hj as <-. simpl in Hsi, Hsj.
    apply bool_decide_eq_true_1 in Hsi, Hsj. congruence.
  - intros Hs [bad [Hbad Hout]].
    destruct (clearSolo_cases nElements channels)
      as [[Hall _] | [_ [cleared [Hrun [Hlen Hat]]]]].
    { exfalso. apply Hout, Hall, Hbad. }
    exists cleared. split.
    { unfold soloClick. rewrite Hk, Hs, Hrun. reflexivity. }
    split; [exact Hlen |]. split; [| split; [exact Hat |]].
    + destruct (Hat k channel Hk) as [c' [Hc' [-> | ->]]];
        rewrite Hc'; simpl; [reflexivity | rewrite Hs; reflexivity].
    + intros Hone i j ci cj Hi Hj Hsi Hsj.
      destruct (lookup_lt_is_Some_2 channels i) as [ci0 Hi0].
      { rewrite <- Hlen. eapply lookup_lt_Some, Hi. }
      destruct (lookup_lt_is_Some_2 channels j) as [cj0 Hj0].
      { rewrite <- Hlen. eapply lookup_lt_Some, Hj. }
      destruct (Hat i ci0 Hi0) as [ci' [Hi' Hci]].
      destruct (Hat j cj0 Hj0) as [cj' [Hj' Hcj]].
      rewrite Hi in Hi'. injection Hi' as <-.
      rewrite Hj in Hj'. injection Hj' as <-.
      destruct Hci as [-> | ->]; [discriminate Hsi |].
      destruct Hcj as [-> | ->]; [discriminate Hsj |].
      apply (Hone i j ci0 cj0); assumption.
  - intros Hs.
    destruct (soloClick_disable nElements channels k channel Hk Hs)
      as [channels' [Hrun [Hlen Hlook]]].
    exists channels'. split; [exact Hrun |]. split; [exact Hlen |].
    split; [exact Hlook |].
    intros Hone i j ci cj Hi Hj Hsi Hsj.
    destruct (lookup_lt_is_Some_2 channels i) as [ci0 Hi0].
    { rewrite <- Hlen. eapply lookup_lt_Some, Hi. }
    destruct (lookup_lt_is_Some_2 channels j) as [cj0 Hj0].
    { rewrite <- Hlen. eapply lookup_lt_Some, Hj. }
    rewrite (Hlook i ci0 Hi0) in Hi. rewrite (Hlook j cj0 Hj0) in Hj.
    destruct (decide (i = k)); [injection Hi as <-; discriminate Hsi |].
    destruct (decide (j = k)); [injection Hj as <-; discriminate Hsj |].
    injection Hi as <-. injection Hj as <-.
    apply (Hone i j ci0 cj0); assumption.
Qed.

(** Left (channel A) is soloed; a click on the solo button of Right
    (channel B) leaves A's flag false and B's true. *)
Lemma soloClick_exclusive_witness :
  exists channels',
    soloClick 7
      [mkChannel 0 1 false true; mkChannel 1 1 false false;
       mkChannel 2 1 false false; mkChannel 3 1 false false;
       mkChannel 4 1 false false; mkChannel 5 1 false false;
       mkChannel 6 1 false false] 1 = Returned channels'
    /\ (solo <$> channels' !! 0%nat) = Some false
    /\ (solo <$> channels' !! 1%nat) = Some true.
Proof.
  destruct (soloClick_exclusive 7
              [mkChannel 0 1 false true; mkChannel 1 1 false false;
               mkChannel 2 1 false false; mkChannel 3 1 false false;
               mkChannel 4 1 false false; mkChannel 5 1 false false;
               mkChannel 6 1 false false] 1 (mkChannel 1 1 false false))
    as [Henable _]; [reflexivity |].
  destruct Henable as [channels' [Hrun [_ [Hen _]]]].
  - reflexivity.
  - intros c Hc.
    repeat (apply elem_of_cons in Hc as [-> | Hc]; [simpl; lia |]).
    inversion Hc.
  - exists channels'. split; [exact Hrun |].
    rewrite (Hen 0%nat _ eq_refl), (Hen 1%nat _ eq_refl).
    split; reflexivity.
Defined.

(** *** Padding of the mixer channels *)

Lemma padChannels_short mixerChannels :
  (length mixerChannels < 7)%nat ->
  padChannels mixerChannels
  = mixerChannels
      ++ map (fun i => mkChannel (Z.of_nat i) 1 false false)
           (seq (length mixerChannels) (7 - length mixerChannels)).
Proof.
  intros H. unfold padChannels.
  destruct (Nat.ltb_spec (length mixerChannels) 7); [reflexivity | lia].
Qed.

Lemma padChannels_long mixerChannels :
  (7 <= length mixerChannels)%nat -> padChannels mixerChannels = mixerChannels.
Proof.
  intros H. unfold padChannels.
  destruct (Nat.ltb_spec (length mixerChannels) 7); [lia | reflexivity].
Qed.

(** C6, as stated, fails for a stored profile of more than 7 channels:
    nothing truncates it. *)
Lemma refreshMixer_keeps_eight_channels :
  let stored :=
    map (fun i => mkChannel (Z.of_nat i) 1 false false) (seq 0 8) in
  refreshMixer (Some stored) = (Some stored, 7%nat)
  /\ length stored = 8%nat
  /\ length stored <> 7%nat.
Proof.
  split; [reflexivity |]. split; [reflexivity | discriminate].
Qed.

(** C6 (amended): [refreshMixer] pads the mixer channels of the active
    profile and never truncates them: afterwards the sequence has the larger
    of 7 and its former length, hence exactly 7 entries whenever the stored
    profile had at most 7; the stored entries keep their places and every
    added entry at index i is a channel of id i, gain 1, neither muted nor
    soloed. *)
Theorem refreshMixer_pads (mixerChannels : list AudioChannelControl) :
  exists padded,
    refreshMixer (Some mixerChannels) = (Some padded, 7%nat)
    /\ length padded = Nat.max 7 (length mixerChannels)
    /\ ((length mixerChannels <= 7)%nat -> length padded = 7%nat)
    /\ (forall i c, mixerChannels !! i = Some c -> padded !! i = Some c)
    /\ (forall i, (length mixerChannels <= i < 7)%nat ->
          padded !! i = Some (mkChannel (Z.of_nat i) 1 false false)).
Proof.
  exists (padChannels mixerChannels). split; [reflexivity |].
  destruct (Nat.lt_ge_cases (length mixerChannels) 7) as [Hlt | Hge].
  - rewrite padChannels_short by exact Hlt.
    split; [| split; [| split]].
    + rewrite length_app, length_map, length_seq. lia.
    + intros _. rewrite length_app, length_map, length_seq. lia.
    + intros i c Hi. apply lookup_app_l_Some, Hi.
    + intros i [Hlo Hhi]. rewrite lookup_app_r by exact Hlo.
      rewrite list_lookup_fmap, lookup_seq_lt by lia. simpl.
      do 2 f_equal. lia.
  - rewrite padChannels_long by exact Hge.
    split; [| split; [| split]].
    + lia.
    + lia.
    + intros i c Hi. exact Hi.
    + intros i [Hlo Hhi]. lia.
Qed.

Lemma refreshMixer_pads_witness :
  exists padded,
    refreshMixer (Some [mkChannel 0 (1 # 2) true false]) = (Some padded, 7%nat)
    /\ length padded = 7%nat
    /\ padded !! 3%nat = Some (mkChannel 3 1 false false).
Proof.
  destruct (refreshMixer_pads [mkChannel 0 (1 # 2) true false])
    as [padded [Hrun [_ [Hlen [_ Hnew]]]]].
  exists padded. split; [exact Hrun |]. split.
  - apply Hlen. simpl. lia.
  - apply (Hnew 3%nat). simpl. lia.
Defined.

End Mixer.

(** ** Peak-hold level meters *)

Module Meter.
Local Open Scope Z_scope.

(** The meter fields of a channel's elements: [els.peak] and [els.peakTime],
    [None] while undefined. *)
Record meterState : Type := mkMeter {
  peak : option Z;
  peakTime : option Z
}.

(** [!els.peak]: undefined and 0 are both falsy. *)
Definition noPeak (els : meterState) : bool :=
  match peak els with
  | None => true
  | Some p => p =? 0
  end.

(** [rectCount > els.peak]. *)
Definition exceeds (rectCount : Z) (els : meterState) : bool :=
  match peak els with
  | None => false
  | Some p => p <? rectCount
  end.

(** [timeDiff < 650 ? 1 : 1 - ((timeDiff - 650) / 350)]. *)
Definition freshness (timeDiff : Z) : Q :=
  if timeDiff <? 650 then 1%Q
  else (1 - inject_Z (timeDiff - 650) / 350)%Q.

(** The peak part of one iteration of [renderMixerMeters]: from
    [if (!els.peak || rectCount > els.peak)] to the end of the callback.
    The result is the new meter state and the opacity with which the peak
    line is drawn, if it is drawn. A comparison with an undefined operand
    ([NaN]) is false. *)
Definition meterTick (rectCount now : Z) (els : meterState)
  : meterState * option Q :=
  let els1 :=
    if noPeak els || exceeds rectCount els
    then {| peak := Some rectCount; peakTime := Some now |}
    else els in
  match peakTime els1, peak els1 with
  | Some t, Some p =>
      let timeDiff := now - t in
      if (timeDiff <? 1000) && (1 <=? p)
      then (els1, Some (freshness timeDiff))
      else ({| peak := Some 0; peakTime := Some now |}, None)
  | _, _ => ({| peak := Some 0; peakTime := Some now |}, None)
  end.

(** [getVolume(analyser)] on the byte data of the analyser. The sum of the
    bytes is an integer and exact; each of the two divisions gives a double,
    the quotient rounded by [fl]. *)
Definition getVolume (fl : Q -> Q) (dataArray : list Z) : Q :=
  fl (fl (inject_Z (fold_left Z.add dataArray 0%Z)
          / inject_Z (Z.of_nat (length dataArray))) / 255)%Q.

(** [Math.ceil(volHeight / rectHeight)] with [rectHeight = height / 50] and
    [volHeight = volume * yScale], [yScale = height]: the quotient, the
    product and the quotient of the two are doubles, rounded by [fl]. *)
Definition rectCountOf (fl : Q -> Q) (volume height : Q) : Z :=
  let yScale := height in
  let rectHeight := fl (height / 50)%Q in
  let volHeight := fl (volume * yScale)%Q in
  Qceiling (fl (volHeight / rectHeight)%Q).

(** One iteration of the [forEach] of [renderMixerMeters] for a channel whose
    analyser and elements exist; it returns early, leaving the meter as it
    is, when the canvas has no width or no height. *)
Definition renderMixerMeter (fl : Q -> Q) (dataArray : list Z)
    (width height : Q) (now : Z) (els : meterState) : meterState * option Q :=
  if Qeq_bool width 0 || Qeq_bool height 0 then (els, None)
  else meterTick (rectCountOf fl (getVolume fl dataArray) height) now els.

(** The stored peak and its timestamp after the update rule, in the claim's
    words: the current height and now when there is no stored peak or the
    current height exceeds it, else the stored pair. *)
Definition storedAfterUpdate (currentHeight now : Z)
    (stored : option (Z * Z)) : Z * Z :=
  match stored with
  | None => (currentHeight, now)
  | Some (storedPeak, peakTimestamp) =>
      if storedPeak <? currentHeight then (currentHeight, now)
      else (storedPeak, peakTimestamp)
  end.

(** The stored pair of a meter: none while [els.peak] is falsy. *)
Definition storedOf (els : meterState) : option (Z * Z) :=
  match peak els, peakTime els with
  | Some p, Some t => if p =? 0 then None else Some (p, t)
  | _, _ => None
  end.

(** [els.peak] and [els.peakTime] are assigned together: a truthy peak has a
    timestamp. *)
Definition meterOk (els : meterState) : Prop :=
  noPeak els = false -> peakTime els <> None.

Lemma meterTick_update currentHeight now els :
  meterOk els ->
  let '(storedPeak, peakTimestamp) :=
    storedAfterUpdate currentHeight now (storedOf els) in
  meterTick currentHeight now els
  = (let timeDiff := now - peakTimestamp in
     if (timeDiff <? 1000) && (1 <=? storedPeak)
     then (mkMeter (Some storedPeak) (Some peakTimestamp),
           Some (freshness timeDiff))
     else (mkMeter (Some 0) (Some now), None)).
Proof.
  intros Hok. unfold meterOk, noPeak in Hok.
  unfold meterTick, storedOf, storedAfterUpdate, noPeak, exceeds.
  destruct els as [[p |] [t |]]; simpl in *; try reflexivity.
  - destruct (p =? 0) eqn:Ep; simpl; [reflexivity |].
    destruct (p <? currentHeight); simpl; reflexivity.
  - destruct (p =? 0) eqn:Ep; simpl; [reflexivity |].
    exfalso. apply Hok; reflexivity.
Qed.

(** C5: with the stored peak and timestamp updated first (to the current
    height and now, when no peak is stored or the current height exceeds it)
    and [dt = now - peakTimestamp]: if dt < 1000 and the stored peak is at
    least 1, the meter keeps them and the peak line is drawn with opacity
    [dt < 650 ? 1 : 1 - (dt - 650)/350]; if dt >= 1000, the peak becomes 0
    with timestamp now and nothing is drawn. A peak of 10 stored at time 0 is
    drawn with opacity 1 - 50/350 at time 700 and is reset at time 1100 (the
    level samples of those ticks not exceeding 10). The tick is a function of
    the stored pair, now and the current height. *)
Theorem meterTick_peak_hold (currentHeight now : Z) (els : meterState) :
  meterOk els ->
  (forall storedPeak peakTimestamp,
     storedAfterUpdate currentHeight now (storedOf els)
     = (storedPeak, peakTimestamp) ->
     let dt := now - peakTimestamp in
     (dt < 1000 -> 1 <= storedPeak ->
        meterTick currentHeight now els
        = (mkMeter (Some storedPeak) (Some peakTimestamp),
           Some (if dt <? 650 then 1%Q
                 else (1 - inject_Z (dt - 650) / 350)%Q)))
     /\ (1000 <= dt ->
         meterTick currentHeight now els
         = (mkMeter (Some 0) (Some now), None)))
  /\ (forall level, level <= 10 ->
        exists opacity,
          meterTick level 700 (mkMeter (Some 10) (Some 0))
          = (mkMeter (Some 10) (Some 0), Some opacity)
          /\ (opacity == 1 - 50 / 350)%Q)
  /\ (forall level, level <= 10 ->
        meterTick level 1100 (mkMeter (Some 10) (Some 0))
        = (mkMeter (Some 0) (Some 1100), None)).
Proof.
  intros Hok. split; [| split].
  - intros storedPeak peakTimestamp Hst dt.
    pose proof (meterTick_update currentHeight now els Hok) as Hrun.
    rewrite Hst in Hrun. cbv zeta in Hrun. fold dt in Hrun.
    rewrite Hrun. clear Hrun. split.
    + intros Hdt Hp.
      destruct (Z.ltb_spec dt 1000); [| lia].
      destruct (Z.leb_spec 1 storedPeak); [| lia]. reflexivity.
    + intros Hdt. destruct (Z.ltb_spec dt 1000); [lia |]. reflexivity.
  - intros level Hlevel. eexists. split.
    + unfold meterTick, noPeak, exceeds. simpl.
      destruct (Z.ltb_spec 10 level); [lia |]. simpl. reflexivity.
    + reflexivity.
  - intros level Hlevel. unfold meterTick, noPeak, exceeds. simpl.
    destruct (Z.ltb_spec 10 level); [lia |]. reflexivity.
Qed.

Lemma meterTick_peak_hold_witness :
  meterTick 3 800 (mkMeter (Some 10) (Some 0))
  = (mkMeter (Some 10) (Some 0),
     Some (1 - inject_Z (800 - 0 - 650) / 350)%Q)
  /\ meterTick 3 1000 (mkMeter (Some 10) (Some 0))
     = (mkMeter (Some 0) (Some 1000), None).
Proof.
  assert (Hok : meterOk (mkMeter (Some 10) (Some 0)))
    by (intros _; discriminate).
  split.
  - apply (proj1 (meterTick_peak_hold 3 800 _ Hok) 10 0 eq_refl); lia.
  - apply (proj1 (meterTick_peak_hold 3 1000 _ Hok) 10 0 eq_refl); lia.
Defined.

(** The meter starts without a peak, and every tick leaves a peak with its
    timestamp. *)
Lemma meterOk_initial : meterOk (mkMeter None None).
Proof. intros H. discriminate H. Qed.

Lemma meterTick_ok currentHeight now els :
  meterOk (fst (meterTick currentHeight now els)).
Proof.
  unfold meterTick, meterOk.
  destruct (noPeak els || exceeds currentHeight els) eqn:E; simpl.
  - destruct ((now - now <? 1000) && (1 <=? currentHeight)); simpl;
      intros _; discriminate.
  - destruct els as [[p |] [t |]]; simpl in *;
      try destruct ((now - t <? 1000) && (1 <=? p)); simpl;
      intros _; discriminate.
Qed.

End Meter.

(** ** Profiles and the profile store, over a heap of objects *)

Module Store.
Local Open Scope string_scope.

(** [AudioEQNode]: the fields set by the constructor. *)
Record AudioEQNode : Type := mkEQNode {
  type : string;
  frequency : Q;
  gain : Q;
  q : Q
}.

(** Object references are natural numbers. *)
Abbreviation loc := nat (only parsing).

(** An [AudioProfile] instance: its two arrays are objects of their own. *)
Record AudioProfile : Type := mkProfile {
  id : Z;
  label : string;
  equalizerNodes : loc;
  mixerChannels : loc
}.

(** The plain object that [toObj()] builds and [fromObj(obj)] reads; it is
    what [JSON.stringify] writes and [JSON.parse] returns. An id that a file
    leaves out is overwritten before it is used. The fields are numbers as
    the constructors leave them: [parseFloat] of a frequency or a gain that
    is a number is that number, and [parseInt] of an id that is an integer
    below 10^21 in magnitude, which is printed with all its digits, is that
    integer. A larger id is printed with an exponent and [parseInt] reads
    only the digits before it ([parseInt(1e21)] is 1): an object from a file
    or from storage that holds such an id is not in the domain of [fromObj]
    below, and the theorems about objects from outside state the bound. *)
Record ProfileObj : Type := mkProfileObj {
  obj_id : Z;
  obj_label : string;
  obj_equalizerNodes : list AudioEQNode;
  obj_mixerChannels : list Mixer.AudioChannelControl
}.

Inductive object : Type :=
  | EQNodeObject (node : AudioEQNode)
  | ChannelObject (channel : Mixer.AudioChannelControl)
  | ArrayObject (elements : list loc)
  | ProfileObject (profile : AudioProfile).

(** The heap: the objects allocated so far, and the next free reference. *)
Record heap : Type := mkHeap {
  objects : gmap loc object;
  next : loc
}.

(** The references an object holds. *)
Definition refs (o : object) : list loc :=
  match o with
  | EQNodeObject _ | ChannelObject _ => []
  | ArrayObject elements => elements
  | ProfileObject profile => [equalizerNodes profile; mixerChannels profile]
  end.

Definition alloc (o : object) (h : heap) : loc * heap :=
  (next h, {| objects := <[next h := o]> (objects h); next := S (next h) |}).

Definition store (l : loc) (o : object) (h : heap) : heap :=
  {| objects := <[l := o]> (objects h); next := next h |}.

Fixpoint allocAll (os : list object) (h : heap) : list loc * heap :=
  match os with
  | [] => ([], h)
  | o :: rest =>
      let '(l, h1) := alloc o h in
      let '(ls, h2) := allocAll rest h1 in
      (l :: ls, h2)
  end.

Definition getNode (h : heap) (l : loc) : option AudioEQNode :=
  match objects h !! l with Some (EQNodeObject node) => Some node | _ => None end.

Definition getChannel (h : heap) (l : loc)
  : option Mixer.AudioChannelControl :=
  match objects h !! l with
  | Some (ChannelObject channel) => Some channel
  | _ => None
  end.

Definition getArray (h : heap) (l : loc) : option (list loc) :=
  match objects h !! l with
  | Some (ArrayObject elements) => Some elements
  | _ => None
  end.

Definition getProfile (h : heap) (l : loc) : option AudioProfile :=
  match objects h !! l with
  | Some (ProfileObject profile) => Some profile
  | _ => None
  end.

(** [new AudioProfile(id)]. *)
Definition newAudioProfile (id0 : Z) (h : heap) : loc * heap :=
  let '(nodes, h1) := alloc (ArrayObject []) h in
  let '(channels, h2) := alloc (ArrayObject []) h1 in
  alloc (ProfileObject
           {| id := id0; label := "Profile " +:+ pretty id0;
              equalizerNodes := nodes; mixerChannels := channels |}) h2.

(** [AudioProfile.fromObj(obj)]: a new profile, then new node and channel
    objects in two new arrays; for ids below 10^21 in magnitude, which the
    constructors store as they are given. *)
Definition fromObj (obj : ProfileObj) (h : heap) : loc * heap :=
  let '(profile, h1) := newAudioProfile (obj_id obj) h in
  let '(nodes, h2) :=
    allocAll (map EQNodeObject (obj_equalizerNodes obj)) h1 in
  let '(nodeArray, h3) := alloc (ArrayObject nodes) h2 in
  let '(channels, h4) :=
    allocAll (map ChannelObject (obj_mixerChannels obj)) h3 in
  let '(channelArray, h5) := alloc (ArrayObject channels) h4 in
  (profile,
   store profile
     (ProfileObject
        {| id := obj_id obj; label := obj_label obj;
           equalizerNodes := nodeArray; mixerChannels := channelArray |}) h5).

(** [profile.toObj()]; [None] when the reference is no profile of the
    heap. *)
Definition toObj (l : loc) (h : heap) : option ProfileObj :=
  profile ← getProfile h l;
  nodes ← getArray h (equalizerNodes profile);
  channels ← getArray h (mixerChannels profile);
  nodeObjs ← mapM (getNode h) nodes;
  channelObjs ← mapM (getChannel h) channels;
  Some {| obj_id := id profile; obj_label := label profile;
          obj_equalizerNodes := nodeObjs; obj_mixerChannels := channelObjs |}.

(** [profile.copy()]. *)
Definition copy (l : loc) (h : heap) : option (loc * heap) :=
  obj ← toObj l h; Some (fromObj obj h).

(** The state of the manager: the heap, [this.profiles] and
    [this.currentProfile]. The dropdown, the debounced write to storage and
    the host audio nodes are outside of it. *)
Record manager : Type := mkManager {
  heapOf : heap;
  profiles : list loc;
  currentProfile : option loc
}.

Definition withHeap (h : heap) (m : manager) : manager :=
  {| heapOf := h; profiles := profiles m; currentProfile := currentProfile m |}.

(** [this.profiles.find((profile) => profile.id === id)] finds something. *)
Definition hasId (h : heap) (ps : list loc) (i : Z) : bool :=
  existsb (fun l => match getProfile h l with
                    | Some profile => (id profile =? i)%Z
                    | None => false
                    end) ps.

(** The [while] loop of [getNextProfileID], for at most [fuel] rounds. *)
Fixpoint scanId (fuel : nat) (h : heap) (ps : list loc) (i : Z) : Z :=
  match fuel with
  | O => i
  | S fuel' => if hasId h ps i then scanId fuel' h ps (i + 1)%Z else i
  end.

(** [getNextProfileID()]: the loop leaves after at most one round per
    profile, see [getNextProfileID_free]. *)
Definition getNextProfileID (m : manager) : Z :=
  scanId (S (length (profiles m))) (heapOf m) (profiles m) 1.

(** [addProfile(profile)]. *)
Definition addProfile (profile : loc) (m : manager) : manager :=
  {| heapOf := heapOf m; profiles := profiles m ++ [profile];
     currentProfile := currentProfile m |}.

(** [newProfile()]. *)
Definition newProfile (m : manager) : manager :=
  let newID := getNextProfileID m in
  let '(profile, h) := newAudioProfile newID (heapOf m) in
  addProfile profile (withHeap h m).

(** A file offered for import. *)
Record profileFile : Type := mkProfileFile {
  fileType : string;
  fileProfiles : list ProfileObj
}.

(** [this.profiles.some((test) => test.label === profile.label)]. *)
Definition labelTaken (h : heap) (ps : list loc) (lbl : string) : bool :=
  existsb (fun l => match getProfile h l with
                    | Some profile => bool_decide (label profile = lbl)
                    | None => false
                    end) ps.

(** The body of the [forEach] of [loadProfileFile]; [today] is
    [(new Date()).toDateString()]. *)
Definition importProfile (today : string) (m : manager)
    (profileObj : ProfileObj) : manager :=
  let '(profile, h) := fromObj profileObj (heapOf m) in
  let m1 := withHeap h m in
  let newID := getNextProfileID m1 in
  let lbl :=
    if labelTaken h (profiles m) (obj_label profileObj)
    then obj_label profileObj +:+ " (loaded from file on " +:+ today +:+ ")"
    else obj_label profileObj in
  match getProfile h profile with
  | Some p =>
      addProfile profile
        (withHeap
           (store profile
              (ProfileObject
                 {| id := newID; label := lbl;
                    equalizerNodes := equalizerNodes p;
                    mixerChannels := mixerChannels p |}) h) m)
  | None => m1
  end.

(** [loadProfileFile(obj)]. *)
Definition loadProfileFile (today : string) (obj : profileFile) (m : manager)
  : outcome manager :=
  if bool_decide (fileType obj <> "audioProfile")
  then Thrown (Error "Invalid profile type") m
  else Returned (fold_left (importProfile today) (fileProfiles obj) m).

(** The [onload] handler of the file reader, after [JSON.parse]:
    [try { this.loadProfileFile(obj) } catch (e) { alert(...) }]. The result
    is the state and whether the alert was shown. *)
Definition importFile (today : string) (obj : profileFile) (m : manager)
  : manager * bool :=
  match loadProfileFile today obj m with
  | Returned m' => (m', false)
  | Thrown _ m' => (m', true)
  end.

(** [this.profiles.indexOf(profile)]. *)
Fixpoint indexOf (profile : loc) (ps : list loc) : option nat :=
  match ps with
  | [] => None
  | l :: rest =>
      if decide (l = profile) then Some O else S <$> indexOf profile rest
  end.

(** [deleteProfile(profile)]. The entry to click in the dropdown is read
    from [this.profiles[Math.max(0, index - 1)]]; reading its id throws when
    that entry is undefined. *)
Definition deleteProfile (profile : loc) (m : manager) : outcome manager :=
  let index := indexOf profile (profiles m) in
  let m1 :=
    match index with
    | Some i =>
        {| heapOf := heapOf m; profiles := delete i (profiles m);
           currentProfile := currentProfile m |}
    | None => m
    end in
  let m2 := if (length (profiles m1) =? 0)%nat then newProfile m1 else m1 in
  let selected := match index with Some i => (i - 1)%nat | None => O end in
  match profiles m2 !! selected with
  | Some _ => Returned m2
  | None => Thrown TypeError m2
  end.

(** [setCurrentProfile(profile)]. *)
Definition setCurrentProfile (profile : loc) (m : manager) : outcome manager :=
  match copy profile (heapOf m) with
  | Some (active, h) =>
      Returned {| heapOf := h; profiles := profiles m;
                  currentProfile := Some active |}
  | None => Thrown TypeError m
  end.

(** The click on the Load button, for the stored profile that the dropdown
    selects: [this.setCurrentProfile(profile); this.refreshEQNodes()]. The
    mixer is not refreshed. *)
Definition loadButtonClick (selected : option loc) (m : manager) : manager :=
  match selected with
  | Some profile => outcome_state (setCurrentProfile profile m)
  | None => m
  end.

(** [saveCurrentProfile()], for the stored profile that the dropdown
    selects. *)
Definition saveCurrentProfile (selected : option loc) (m : manager)
  : manager :=
  match selected, currentProfile m with
  | Some profile, Some active =>
      match getProfile (heapOf m) profile, copy active (heapOf m) with
      | Some p, Some (newProfile, h) =>
          match getProfile h newProfile with
          | Some np =>
              let h' :=
                store newProfile
                  (ProfileObject
                     {| id := id p; label := label p;
                        equalizerNodes := equalizerNodes np;
                        mixerChannels := mixerChannels np |}) h in
              match indexOf profile (profiles m) with
              | Some index =>
                  {| heapOf := h';
                     profiles := <[index := newProfile]> (profiles m);
                     currentProfile := currentProfile m |}
              | None => withHeap h' m
              end
          | None => withHeap h m
          end
      | _, _ => m
      end
  | _, _ => m
  end.

(** *** Edits of the active profile *)

(** The array of equalizer nodes, or of mixer channels, of the active
    profile. *)
Definition activeArray (field : AudioProfile -> loc) (m : manager)
  : option (loc * list loc) :=
  active ← currentProfile m;
  profile ← getProfile (heapOf m) active;
  elements ← getArray (heapOf m) (field profile);
  Some (field profile, elements).

(** [addEQNode(node)]: [this.currentProfile.equalizerNodes.push(node)]. *)
Definition addEQNode (node : loc) (m : manager) : manager :=
  match activeArray equalizerNodes m with
  | Some (array, nodes) =>
      withHeap (store array (ArrayObject (nodes ++ [node])) (heapOf m)) m
  | None => m
  end.

(** The click on the zero line, once the analysers exist:
    [const node = new AudioEQNode(type, frequency, 0, 1); this.addEQNode(node)]. *)
Definition zeroLineClick (type0 : string) (frequency0 : Q) (m : manager)
  : manager :=
  let '(node, h) :=
    alloc (EQNodeObject (mkEQNode type0 frequency0 0 1)) (heapOf m) in
  addEQNode node (withHeap h m).

(** Assignments to the fields of [this.currentProfile.equalizerNodes[i]];
    nothing is assigned when that node is undefined. *)
Definition updateNode (i : nat) (f : AudioEQNode -> AudioEQNode)
    (m : manager) : manager :=
  match activeArray equalizerNodes m with
  | Some (_, nodes) =>
      match nodes !! i with
      | Some l =>
          match getNode (heapOf m) l with
          | Some node => withHeap (store l (EQNodeObject (f node)) (heapOf m)) m
          | None => m
          end
      | None => m
      end
  | None => m
  end.

Definition typesThatUseGain : list string :=
  ["peaking"; "lowshelf"; "highshelf"].

Definition rotateTypes : list string :=
  ["peaking"; "lowshelf"; "highshelf"; "lowpass"; "highpass"; "notch";
   "bandpass"].

(** [rotateTypes.indexOf(node.type)]. *)
Fixpoint typeIndex (t : string) (types : list string) : option nat :=
  match types with
  | [] => None
  | t' :: rest =>
      if decide (t' = t) then Some O else S <$> typeIndex t rest
  end.

(** The types that a [BiquadFilterNode] accepts. *)
Definition biquadTypes : list string :=
  ["lowpass"; "highpass"; "bandpass"; "lowshelf"; "highshelf"; "peaking";
   "notch"; "allpass"].

(** The type of the live filter of a node of the profile: [refreshEQNodes]
    creates the filter, whose type is "lowpass", and assigns [node.type] to
    its type; the host ignores the assignment of a string that is no filter
    type. The handlers of a marker assign a new type to both. *)
Definition liveType (type0 : string) : string :=
  if bool_decide (type0 ∈ biquadTypes) then type0 else "lowpass".

(** The dragging of node [i] to a frequency and a gain; the type of the live
    filter decides whether the gain is assigned. *)
Definition dragNode (i : nat) (frequency0 newDB : Q) : manager -> manager :=
  updateNode i (fun node =>
    if bool_decide (liveType (type node) ∈ typesThatUseGain)
    then mkEQNode (type node) frequency0 newDB (q node)
    else mkEQNode (type node) frequency0 (gain node) (q node)).

(** The wheel over node [i]. *)
Definition wheelNode (i : nat) (q0 : Q) : manager -> manager :=
  updateNode i (fun node =>
    mkEQNode (type node) (frequency node) (gain node) q0).

(** The second click within 300 ms ([forward]) and the second right click
    on node [i]: the rotation starts from the type of the live filter. *)
Definition rotateNode (i : nat) (forward : bool) : manager -> manager :=
  updateNode i (fun node =>
    match typeIndex (liveType (type node)) rotateTypes with
    | None => node
    | Some index =>
        let n := length rotateTypes in
        let index' :=
          if forward then ((index + 1) mod n)%nat
          else ((index + n - 1) mod n)%nat in
        mkEQNode (default (type node) (rotateTypes !! index'))
          (frequency node) (gain node) (q node)
    end).

(** The Delete key on node [i]:
    [this.currentProfile.equalizerNodes.splice(i, 1)]. *)
Definition deleteNode (i : nat) (m : manager) : manager :=
  match activeArray equalizerNodes m with
  | Some (array, nodes) =>
      withHeap (store array (ArrayObject (delete i nodes)) (heapOf m)) m
  | None => m
  end.

(** Writing channel values back to the channel objects. *)
Definition writeChannels (ls : list loc)
    (cs : list Mixer.AudioChannelControl) (h : heap) : heap :=
  fold_left (fun h' lc => store (fst lc) (ChannelObject (snd lc)) h')
    (zip ls cs) h.

(** A handler of the mixer, given as its effect on the channel values, run on
    the channel objects of the active profile. *)
Definition updateChannels
    (f : list Mixer.AudioChannelControl -> list Mixer.AudioChannelControl)
    (m : manager) : manager :=
  match activeArray mixerChannels m with
  | Some (_, channels) =>
      match mapM (getChannel (heapOf m)) channels with
      | Some values => withHeap (writeChannels channels (f values) (heapOf m)) m
      | None => m
      end
  | None => m
  end.

(** [setChannelGain(channel, gain)] for the channel at position [k]. *)
Definition setChannelGain (k : nat) (gain0 : Q) : manager -> manager :=
  updateChannels
    (alter (fun c => Mixer.mkChannel (Mixer.channelId c) gain0
                       (Mixer.muted c) (Mixer.solo c)) k).

(** The click on the mute button of the channel at position [k]. *)
Definition activeMuteClick (k : nat) : manager -> manager :=
  updateChannels (fun values => Mixer.muteClick values k).

(** The click on the solo button of the channel at position [k]. *)
Definition activeSoloClick (nElements k : nat) : manager -> manager :=
  updateChannels
    (fun values => outcome_state (Mixer.soloClick nElements values k)).

(** The padding loop of [refreshMixer()] on the active profile. *)
Definition activeRefreshMixer (m : manager) : manager :=
  match activeArray mixerChannels m with
  | Some (array, channels) =>
      let n := length channels in
      if (n <? 7)%nat then
        let '(added, h) :=
          allocAll
            (map (fun i => ChannelObject
                             (Mixer.mkChannel (Z.of_nat i) 1 false false))
               (seq n (7 - n))) (heapOf m) in
        withHeap (store array (ArrayObject (channels ++ added)) h) m
      else m
  | None => m
  end.

(** The edits that the handlers of the equalizer and of the mixer make. *)
Inductive edit : Type :=
  | ZeroLineClick (type0 : string) (frequency0 : Q)
  | DragNode (i : nat) (frequency0 newDB : Q)
  | WheelNode (i : nat) (q0 : Q)
  | RotateNode (i : nat) (forward : bool)
  | DeleteNode (i : nat)
  | SetChannelGain (k : nat) (gain0 : Q)
  | MuteClick (k : nat)
  | SoloClick (nElements k : nat)
  | RefreshMixer.

Definition applyEdit (m : manager) (e : edit) : manager :=
  match e with
  | ZeroLineClick type0 frequency0 => zeroLineClick type0 frequency0 m
  | DragNode i frequency0 newDB => dragNode i frequency0 newDB m
  | WheelNode i q0 => wheelNode i q0 m
  | RotateNode i forward => rotateNode i forward m
  | DeleteNode i => deleteNode i m
  | SetChannelGain k gain0 => setChannelGain k gain0 m
  | MuteClick k => activeMuteClick k m
  | SoloClick nElements k => activeSoloClick nElements k m
  | RefreshMixer => activeRefreshMixer m
  end.

(** The manager before anything is loaded: no object, no profile. *)
Definition emptyManager : manager :=
  {| heapOf := {| objects := ∅; next := 0 |}; profiles := [];
     currentProfile := None |}.

(** The ids of the stored profiles. *)
Definition idsOf (h : heap) (ps : list loc) : list Z :=
  omap (fun l => id <$> getProfile h l) ps.

(** *** Invariants of the heap *)

(** Every object lies below [next] and holds references below [next]. *)
Definition wfHeap (h : heap) : Prop :=
  forall l o, objects h !! l = Some o ->
    (l < next h)%nat /\ Forall (fun r => (r < next h)%nat) (refs o).

(** The heap [h] extends [h0] from the reference [n0] on: it agrees with
    [h0] below [n0], and its objects from [n0] on hold references from [n0]
    on only. *)
Record extends (n0 : loc) (h0 h : heap) : Prop := mkExtends {
  ext_next : (n0 <= next h)%nat;
  ext_below : forall l, (l < n0)%nat -> objects h !! l = objects h0 !! l;
  ext_above : forall l o, (n0 <= l)%nat -> objects h !! l = Some o ->
                Forall (fun r => (n0 <= r)%nat) (refs o)
}.

(** The manager [m] keeps the stored profiles [ps] and edits a profile that
    lies in the part of the heap allocated from [n0] on. *)
Record detached (n0 : loc) (h0 : heap) (ps : list loc) (m : manager)
  : Prop := mkDetached {
  det_heap : extends n0 h0 (heapOf m);
  det_profiles : profiles m = ps;
  det_active : forall c, currentProfile m = Some c -> (n0 <= c)%nat
}.

(** *** Allocation *)

Lemma alloc_fst o h : fst (alloc o h) = next h.
Proof. reflexivity. Qed.

Lemma alloc_next o h : next (snd (alloc o h)) = S (next h).
Proof. reflexivity. Qed.

Lemma alloc_lookup_eq o h : objects (snd (alloc o h)) !! next h = Some o.
Proof. simpl. apply lookup_insert_eq. Qed.

Lemma alloc_lookup_ne o h l :
  l <> next h -> objects (snd (alloc o h)) !! l = objects h !! l.
Proof. intros H. simpl. apply lookup_insert_ne. congruence. Qed.

Lemma store_lookup_eq l o h : objects (store l o h) !! l = Some o.
Proof. simpl. apply lookup_insert_eq. Qed.

Lemma store_lookup_ne l l' o h :
  l' <> l -> objects (store l o h) !! l' = objects h !! l'.
Proof. intros H. simpl. apply lookup_insert_ne. congruence. Qed.

(** [allocAll] allocates consecutive references and leaves the rest of the
    heap as it is. *)
Lemma allocAll_spec os : forall h ls h',
  allocAll os h = (ls, h') ->
  next h' = (next h + length os)%nat
  /\ ls = seq (next h) (length os)
  /\ (forall i o, os !! i = Some o ->
        objects h' !! (next h + i)%nat = Some o)
  /\ (forall l, (l < next h)%nat -> objects h' !! l = objects h !! l).
Proof.
  induction os as [| o os IH]; intros h ls h' Hrun; simpl in Hrun.
  - injection Hrun as <- <-. simpl. repeat split; try lia.
    intros i o Hi. discriminate Hi.
  - destruct (allocAll os (snd (alloc o h))) as [ls1 h1] eqn:Hrest.
    simpl in Hrest. rewrite Hrest in Hrun. injection Hrun as <- <-.
    destruct (IH _ _ _ Hrest) as [Hnext [Hls [Hnew Hold]]].
    simpl in Hnext, Hls, Hnew, Hold.
    split; [simpl; lia |]. split; [simpl; f_equal; exact Hls |]. split.
    + intros [| i] o' Hi; simpl in Hi.
      * injection Hi as <-. rewrite Nat.add_0_r.
        rewrite Hold by lia. apply lookup_insert_eq.
      * replace (next h + S i)%nat with (S (next h) + i)%nat by lia.
        apply Hnew, Hi.
    + intros l Hl. rewrite Hold by lia. apply lookup_insert_ne. lia.
Qed.

(** *** Well-formed heaps *)

Lemma wfHeap_alloc o h :
  wfHeap h -> Forall (fun r => (r < next h)%nat) (refs o) ->
  wfHeap (snd (alloc o h)).
Proof.
  intros Hwf Ho l o' Hl. simpl in *.
  destruct (decide (l = next h)) as [-> | Hne].
  - rewrite lookup_insert_eq in Hl. injection Hl as <-.
    split; [lia |]. eapply Forall_impl; [exact Ho |]. simpl. intros; lia.
  - rewrite lookup_insert_ne in Hl by congruence.
    destruct (Hwf l o' Hl) as [H1 H2]. split; [lia |].
    eapply Forall_impl; [exact H2 |]. simpl. intros; lia.
Qed.

Lemma wfHeap_store l o h :
  wfHeap h -> (l < next h)%nat ->
  Forall (fun r => (r < next h)%nat) (refs o) ->
  wfHeap (store l o h).
Proof.
  intros Hwf Hl Ho l' o' Hl'. simpl in *.
  destruct (decide (l' = l)) as [-> | Hne].
  - rewrite lookup_insert_eq in Hl'. injection Hl' as <-. split; assumption.
  - rewrite lookup_insert_ne in Hl' by congruence. apply (Hwf l' o' Hl').
Qed.

Lemma wfHeap_allocAll os : forall h ls h',
  wfHeap h -> Forall (fun o => refs o = []) os ->
  allocAll os h = (ls, h') -> wfHeap h'.
Proof.
  induction os as [| o os IH]; intros h ls h' Hwf Hos Hrun; simpl in Hrun.
  - injection Hrun as <- <-. exact Hwf.
  - destruct (allocAll os (snd (alloc o h))) as [ls1 h1] eqn:Hrest.
    simpl in Hrest. rewrite Hrest in Hrun. injection Hrun as <- <-.
    apply Forall_cons in Hos as [Ho Hos].
    eapply IH; [| exact Hos | exact Hrest].
    apply (wfHeap_alloc o h Hwf). rewrite Ho. constructor.
Qed.

(** *** Extensions of a heap *)

Lemma extends_refl h : wfHeap h -> extends (next h) h h.
Proof.
  intros Hwf. split; [lia | reflexivity |].
  intros l o Hl Ho. destruct (Hwf l o Ho) as [Hlt _]. lia.
Qed.

Lemma extends_alloc n0 h0 h o :
  extends n0 h0 h -> Forall (fun r => (n0 <= r)%nat) (refs o) ->
  extends n0 h0 (snd (alloc o h)) /\ (n0 <= fst (alloc o h))%nat.
Proof.
  intros [Hn Hb Ha] Ho. split; [| simpl; lia]. split; simpl.
  - lia.
  - intros l Hl. rewrite lookup_insert_ne by lia. apply Hb, Hl.
  - intros l o' Hl Hlook. destruct (decide (l = next h)) as [-> | Hne].
    + rewrite lookup_insert_eq in Hlook. injection Hlook as <-. exact Ho.
    + rewrite lookup_insert_ne in Hlook by congruence. apply (Ha l o' Hl Hlook).
Qed.

Lemma extends_store n0 h0 h l o :
  extends n0 h0 h -> (n0 <= l)%nat ->
  Forall (fun r => (n0 <= r)%nat) (refs o) ->
  extends n0 h0 (store l o h).
Proof.
  intros [Hn Hb Ha] Hl Ho. split; simpl.
  - exact Hn.
  - intros l' Hl'. rewrite lookup_insert_ne by lia. apply Hb, Hl'.
  - intros l' o' Hl' Hlook. destruct (decide (l' = l)) as [-> | Hne].
    + rewrite lookup_insert_eq in Hlook. injection Hlook as <-. exact Ho.
    + rewrite lookup_insert_ne in Hlook by congruence.
      apply (Ha l' o' Hl' Hlook).
Qed.

Lemma extends_allocAll n0 h0 os : forall h ls h',
  extends n0 h0 h -> Forall (fun o => refs o = []) os ->
  allocAll os h = (ls, h') ->
  extends n0 h0 h' /\ Forall (fun r => (n0 <= r)%nat) ls.
Proof.
  induction os as [| o os IH]; intros h ls h' Hext Hos Hrun; simpl in Hrun.
  - injection Hrun as <- <-. split; [exact Hext | constructor].
  - destruct (allocAll os (snd (alloc o h))) as [ls1 h1] eqn:Hrest.
    simpl in Hrest. rewrite Hrest in Hrun. injection Hrun as <- <-.
    apply Forall_cons in Hos as [Ho Hos].
    destruct (extends_alloc n0 h0 h o Hext) as [Hext1 Hl].
    { rewrite Ho. constructor. }
    destruct (IH _ _ _ Hext1 Hos Hrest) as [Hext2 Hls].
    split; [exact Hext2 |]. constructor; [exact Hl | exact Hls].
Qed.

Lemma Forall_refs_nodes (ns : list AudioEQNode) :
  Forall (fun o => refs o = []) (map EQNodeObject ns).
Proof. apply Forall_fmap, Forall_forall. intros; reflexivity. Qed.

Lemma Forall_refs_channels (cs : list Mixer.AudioChannelControl) :
  Forall (fun o => refs o = []) (map ChannelObject cs).
Proof. apply Forall_fmap, Forall_forall. intros; reflexivity. Qed.

Lemma extends_newAudioProfile n0 h0 h id0 :
  extends n0 h0 h ->
  extends n0 h0 (snd (newAudioProfile id0 h))
  /\ (n0 <= fst (newAudioProfile id0 h))%nat.
Proof.
  intros Hext. unfold newAudioProfile. simpl.
  destruct (extends_alloc n0 h0 h (ArrayObject []) Hext) as [H1 Hl1];
    [constructor |].
  destruct (extends_alloc n0 h0 _ (ArrayObject []) H1) as [H2 Hl2];
    [constructor |].
  simpl in Hl1, Hl2.
  apply (extends_alloc n0 h0 _ _ H2). simpl.
  repeat constructor; simpl; lia.
Qed.

Lemma extends_fromObj n0 h0 h obj :
  extends n0 h0 h ->
  extends n0 h0 (snd (fromObj obj h)) /\ (n0 <= fst (fromObj obj h))%nat.
Proof.
  intros Hext. unfold fromObj.
  destruct (newAudioProfile (obj_id obj) h) as [profile h1] eqn:E1.
  destruct (extends_newAudioProfile n0 h0 h (obj_id obj) Hext) as [X1 L1].
  rewrite E1 in X1, L1. simpl in X1, L1.
  destruct (allocAll (map EQNodeObject (obj_equalizerNodes obj)) h1)
    as [nodes h2] eqn:E2.
  destruct (extends_allocAll n0 h0 _ _ _ _ X1 (Forall_refs_nodes _) E2)
    as [X2 L2].
  destruct (alloc (ArrayObject nodes) h2) as [nodeArray h3] eqn:E3.
  destruct (extends_alloc n0 h0 h2 (ArrayObject nodes) X2 L2) as [X3 L3].
  rewrite E3 in X3, L3. simpl in X3, L3.
  destruct (allocAll (map ChannelObject (obj_mixerChannels obj)) h3)
    as [channels h4] eqn:E4.
  destruct (extends_allocAll n0 h0 _ _ _ _ X3 (Forall_refs_channels _) E4)
    as [X4 L4].
  destruct (alloc (ArrayObject channels) h4) as [channelArray h5] eqn:E5.
  destruct (extends_alloc n0 h0 h4 (ArrayObject channels) X4 L4) as [X5 L5].
  rewrite E5 in X5, L5. simpl in X5, L5.
  simpl. split; [| exact L1].
  apply extends_store; [exact X5 | exact L1 |].
  simpl. repeat constructor; assumption.
Qed.

(** *** [fromObj] builds what [toObj] reads *)

Lemma mapM_allocated {A : Type} (get : loc -> option A) start (vs : list A) :
  (forall i v, vs !! i = Some v -> get (start + i)%nat = Some v) ->
  mapM get (seq start (length vs)) = Some vs.
Proof.
  intros Hget. apply mapM_Some_2.
  apply Forall2_same_length_lookup_2.
  - apply length_seq.
  - intros i l v Hl Hv. apply lookup_seq in Hl as [-> _]. apply Hget, Hv.
Qed.

Lemma alloc_spec o h l h' :
  alloc o h = (l, h') ->
  l = next h /\ next h' = S (next h)
  /\ objects h' !! l = Some o
  /\ (forall l', l' <> l -> objects h' !! l' = objects h !! l').
Proof.
  unfold alloc. intros [= <- <-]. simpl.
  split; [reflexivity |]. split; [reflexivity |].
  split; [apply lookup_insert_eq |].
  intros l' Hne. apply lookup_insert_ne. congruence.
Qed.

Lemma newAudioProfile_spec id0 h :
  fst (newAudioProfile id0 h) = S (S (next h))
  /\ next (snd (newAudioProfile id0 h)) = S (S (S (next h))).
Proof. split; reflexivity. Qed.

Lemma toObj_fromObj obj h :
  toObj (fst (fromObj obj h)) (snd (fromObj obj h)) = Some obj.
Proof.
  unfold fromObj.
  destruct (newAudioProfile_spec (obj_id obj) h) as [Hp Hn1].
  destruct (newAudioProfile (obj_id obj) h) as [profile h1].
  simpl in Hp, Hn1. subst profile. set (n := next h) in *.
  destruct (allocAll (map EQNodeObject (obj_equalizerNodes obj)) h1)
    as [nodes h2] eqn:E2.
  destruct (allocAll_spec _ _ _ _ E2) as [Hn2 [Hnodes [Hnew2 Hold2]]].
  rewrite length_map in Hn2, Hnodes.
  destruct (alloc (ArrayObject nodes) h2) as [a h3] eqn:E3.
  destruct (alloc_spec _ _ _ _ E3) as [Ha [Hn3 [Ha3 Hold3]]].
  destruct (allocAll (map ChannelObject (obj_mixerChannels obj)) h3)
    as [channels h4] eqn:E4.
  destruct (allocAll_spec _ _ _ _ E4) as [Hn4 [Hchannels [Hnew4 Hold4]]].
  rewrite length_map in Hn4, Hchannels.
  destruct (alloc (ArrayObject channels) h4) as [b h5] eqn:E5.
  destruct (alloc_spec _ _ _ _ E5) as [Hb [Hn5 [Hb5 Hold5]]].
  simpl.
  match goal with
  | |- toObj _ (store ?l ?o ?h0) = _ => set (h' := store l o h0)
  end.
  assert (Hlook : forall l, l <> S (S n) -> l <> b ->
            objects h' !! l = objects h4 !! l).
  { intros l H1 H2. unfold h'.
    rewrite store_lookup_ne by exact H1. apply Hold5, H2. }
  assert (Hab : (S (S (S n)) <= a)%nat /\ (S a <= b)%nat) by lia.
  assert (Hprofile : objects h' !! S (S n)
            = Some (ProfileObject
                      {| id := obj_id obj; label := obj_label obj;
                         equalizerNodes := a; mixerChannels := b |}))
    by apply store_lookup_eq.
  assert (Harr1 : objects h' !! a = Some (ArrayObject nodes)).
  { rewrite (Hlook a) by lia. rewrite Hold4 by lia. exact Ha3. }
  assert (Harr2 : objects h' !! b = Some (ArrayObject channels)).
  { unfold h'. rewrite store_lookup_ne by lia. exact Hb5. }
  clearbody h'.
  unfold toObj, getProfile, getArray.
  rewrite Hprofile. simpl. rewrite Harr1. simpl. rewrite Harr2. simpl.
  assert (Hns : mapM (getNode h') nodes = Some (obj_equalizerNodes obj)).
  { rewrite Hnodes. apply mapM_allocated. intros i v Hv.
    unfold getNode.
    assert (Hi : (i < length (obj_equalizerNodes obj))%nat)
      by (eapply lookup_lt_Some, Hv).
    rewrite Hlook by lia. rewrite Hold4 by lia. rewrite Hold3 by lia.
    rewrite (Hnew2 i (EQNodeObject v)); [reflexivity |].
    rewrite list_lookup_fmap, Hv. reflexivity. }
  rewrite Hns. simpl.
  assert (Hcs : mapM (getChannel h') channels = Some (obj_mixerChannels obj)).
  { rewrite Hchannels. apply mapM_allocated. intros i v Hv.
    unfold getChannel.
    assert (Hi : (i < length (obj_mixerChannels obj))%nat)
      by (eapply lookup_lt_Some, Hv).
    rewrite Hlook by lia.
    rewrite (Hnew4 i (ChannelObject v)); [reflexivity |].
    rewrite list_lookup_fmap, Hv. reflexivity. }
  rewrite Hcs. simpl. destruct obj; reflexivity.
Qed.

(** *** Reading below an extension *)

Lemma toObj_extends h0 h p obj :
  wfHeap h0 -> extends (next h0) h0 h ->
  toObj p h0 = Some obj -> toObj p h = Some obj.
Proof.
  intros Hwf [_ Hbelow _] Hread.
  assert (Hsame : forall l o, objects h0 !! l = Some o ->
            objects h !! l = Some o
            /\ Forall (fun r => (r < next h0)%nat) (refs o)).
  { intros l o Hl. destruct (Hwf l o Hl) as [Hlt Hrefs].
    split; [rewrite Hbelow by exact Hlt; exact Hl | exact Hrefs]. }
  unfold toObj in *. unfold getProfile, getArray in *.
  destruct (objects h0 !! p) as [[| | | profile] |] eqn:Ep;
    try discriminate Hread.
  destruct (Hsame _ _ Ep) as [Ep' Hrp]. rewrite Ep'. simpl in *.
  apply Forall_cons in Hrp as [Hr1 Hrp]. apply Forall_cons in Hrp as [Hr2 _].
  destruct (objects h0 !! equalizerNodes profile) as [[| | nodes |] |] eqn:En;
    try discriminate Hread.
  destruct (Hsame _ _ En) as [En' Hrn]. rewrite En'. simpl in *.
  destruct (objects h0 !! mixerChannels profile) as [[| | channels |] |] eqn:Ec;
    try discriminate Hread.
  destruct (Hsame _ _ Ec) as [Ec' Hrc]. rewrite Ec'. simpl in *.
  assert (Hns : mapM (getNode h) nodes = mapM (getNode h0) nodes).
  { apply Forall_mapM_ext. eapply Forall_impl; [exact Hrn |].
    intros l Hl. simpl in Hl. unfold getNode.
    rewrite Hbelow by exact Hl. reflexivity. }
  assert (Hcs : mapM (getChannel h) channels = mapM (getChannel h0) channels).
  { apply Forall_mapM_ext. eapply Forall_impl; [exact Hrc |].
    intros l Hl. simpl in Hl. unfold getChannel.
    rewrite Hbelow by exact Hl. reflexivity. }
  rewrite Hns, Hcs. exact Hread.
Qed.

(** *** Edits stay in the detached part of the heap *)

Lemma detached_withHeap n0 h0 ps m h :
  detached n0 h0 ps m -> extends n0 h0 h -> detached n0 h0 ps (withHeap h m).
Proof.
  intros [_ Hp Ha] Hext. split; simpl; assumption.
Qed.

Lemma activeArray_above n0 h0 ps m field array elements :
  detached n0 h0 ps m ->
  (forall p, field p ∈ refs (ProfileObject p)) ->
  activeArray field m = Some (array, elements) ->
  (n0 <= array)%nat /\ Forall (fun r => (n0 <= r)%nat) elements.
Proof.
  intros [[_ _ Habove] _ Hactive] Hfield Hrun.
  unfold activeArray, getProfile, getArray in Hrun.
  destruct (currentProfile m) as [c |] eqn:Ec; [| discriminate Hrun].
  simpl in Hrun. specialize (Hactive c eq_refl).
  destruct (objects (heapOf m) !! c) as [[| | | p] |] eqn:Ep;
    try discriminate Hrun.
  simpl in Hrun.
  pose proof (Habove c _ Hactive Ep) as Hrefs.
  assert (Harr : (n0 <= field p)%nat).
  { rewrite Forall_forall in Hrefs. apply Hrefs, Hfield. }
  destruct (objects (heapOf m) !! field p) as [[| | els |] |] eqn:Ea;
    try discriminate Hrun.
  simpl in Hrun. injection Hrun as <- <-.
  split; [exact Harr |]. apply (Habove (field p) _ Harr Ea).
Qed.


Lemma mixerChannels_ref p : mixerChannels p ∈ refs (ProfileObject p).
Proof. simpl. right. left. Qed.







Lemma activeRefreshMixer_detached n0 h0 ps m :
  detached n0 h0 ps m -> detached n0 h0 ps (activeRefreshMixer m).
Proof.
  intros Hdet. unfold activeRefreshMixer.
  destruct (activeArray mixerChannels m) as [[array channels] |] eqn:Ea;
    [| exact Hdet].
  destruct (activeArray_above _ _ _ _ _ _ _ Hdet mixerChannels_ref Ea)
    as [Harr Hchannels].
  destruct (length channels <? 7)%nat; [| exact Hdet].
  match goal with
  | |- context [allocAll ?os ?h] =>
      destruct (allocAll os h) as [added h1] eqn:Ealloc;
      destruct (extends_allocAll n0 h0 os h added h1) as [Hext Hadded];
      [apply Hdet | | exact Ealloc |]
  end.
  { apply Forall_fmap, Forall_forall. intros; reflexivity. }
  apply detached_withHeap; [exact Hdet |].
  apply extends_store; [exact Hext | exact Harr |].
  simpl. apply Forall_app. split; assumption.
Qed.




Lemma wfHeap_empty : wfHeap {| objects := ∅; next := 0 |}.
Proof. intros l o Hl. simpl in Hl. rewrite lookup_empty in Hl. discriminate Hl. Qed.

Lemma wfHeap_newAudioProfile id0 h :
  wfHeap h -> wfHeap (snd (newAudioProfile id0 h)).
Proof.
  intros Hwf.
  pose proof (wfHeap_alloc (ArrayObject []) h Hwf (Forall_nil_2 _)) as H1.
  pose proof (wfHeap_alloc (ArrayObject []) _ H1 (Forall_nil_2 _)) as H2.
  refine (wfHeap_alloc
            (ProfileObject
               {| id := id0; label := "Profile " +:+ pretty id0;
                  equalizerNodes := next h; mixerChannels := S (next h) |})
            _ H2 _).
  simpl. repeat constructor; lia.
Qed.

Lemma toObj_empty_profile h l p :
  getProfile h l = Some p ->
  getArray h (equalizerNodes p) = Some [] ->
  getArray h (mixerChannels p) = Some [] ->
  toObj l h = Some {| obj_id := id p; obj_label := label p;
                      obj_equalizerNodes := []; obj_mixerChannels := [] |}.
Proof.
  intros H1 H2 H3. unfold toObj.
  rewrite H1. simpl. rewrite H2. simpl. rewrite H3. reflexivity.
Qed.

Lemma toObj_newAudioProfile id0 h :
  toObj (fst (newAudioProfile id0 h)) (snd (newAudioProfile id0 h))
  = Some {| obj_id := id0; obj_label := "Profile " +:+ pretty id0;
            obj_equalizerNodes := []; obj_mixerChannels := [] |}.
Proof.
  apply (toObj_empty_profile _ _
           {| id := id0; label := "Profile " +:+ pretty id0;
              equalizerNodes := next h; mixerChannels := S (next h) |}).
  - unfold getProfile. simpl. rewrite lookup_insert_eq. reflexivity.
  - unfold getArray. simpl.
    rewrite lookup_insert_ne by lia. rewrite lookup_insert_ne by lia.
    rewrite lookup_insert_eq. reflexivity.
  - unfold getArray. simpl.
    rewrite lookup_insert_ne by lia. rewrite lookup_insert_eq. reflexivity.
Qed.


(** The Load button activates a copy of the stored profile as it is: a
    stored profile without mixer channels is active without mixer channels
    until [refreshMixer] runs. *)
Example load_button_does_not_pad :
  let m := loadButtonClick (Some 2%nat) (newProfile emptyManager) in
  currentProfile m = Some 5%nat
  /\ (obj_mixerChannels <$> toObj 5 (heapOf m)) = Some [].
Proof.
  vm_compute. split; reflexivity.
Qed.

(** *** Import and deletion *)

(** C7: a file whose type tag is not "audioProfile" makes [loadProfileFile]
    throw [Error('Invalid profile type')] before anything is changed; the
    caller catches the error and shows an alert, and the manager (the list of
    stored profiles, every object of the heap, the active profile) is the one
    from before. *)
Theorem loadProfileFile_rejects_type
    (today : string) (obj : profileFile) (m : manager) :
  fileType obj <> "audioProfile" ->
  loadProfileFile today obj m = Thrown (Error "Invalid profile type") m
  /\ importFile today obj m = (m, true).
Proof.
  intros Htype. unfold importFile, loadProfileFile.
  rewrite bool_decide_eq_true_2 by exact Htype. split; reflexivity.
Qed.

Lemma loadProfileFile_rejects_type_witness :
  loadProfileFile "Mon Jan 01 2024"
    {| fileType := "videoProfile";
       fileProfiles := [{| obj_id := 0; obj_label := "Bass";
                           obj_equalizerNodes := [];
                           obj_mixerChannels := [] |}] |}
    (newProfile emptyManager)
  = Thrown (Error "Invalid profile type") (newProfile emptyManager).
Proof.
  apply (loadProfileFile_rejects_type "Mon Jan 01 2024"). discriminate.
Defined.

Lemma indexOf_lt profile ps : forall i,
  indexOf profile ps = Some i -> (i < length ps)%nat.
Proof.
  induction ps as [| l ps IH]; intros i Hi; simpl in Hi; [discriminate Hi |].
  destruct (decide (l = profile)).
  - injection Hi as <-. simpl. lia.
  - apply fmap_Some in Hi as [j [Hj ->]]. apply IH in Hj. simpl. lia.
Qed.

Lemma indexOf_head profile ps : indexOf profile (profile :: ps) = Some O.
Proof. simpl. destruct (decide (profile = profile)); [reflexivity | congruence]. Qed.

(** [newProfile] on a store without profiles. *)
Lemma newProfile_of_empty m :
  profiles m = [] ->
  profiles (newProfile m) = [S (S (next (heapOf m)))]
  /\ toObj (S (S (next (heapOf m)))) (heapOf (newProfile m))
     = Some {| obj_id := 1; obj_label := "Profile 1";
               obj_equalizerNodes := []; obj_mixerChannels := [] |}.
Proof.
  intros Hps. destruct m as [h ps c]. simpl in Hps. subst ps.
  split; [reflexivity |].
  apply (toObj_newAudioProfile 1 h).
Qed.

(** C8: [deleteProfile] returns with a store that is not empty, whatever the
    store and the profile were; deleting the only profile of the store leaves
    exactly one profile, a new one with id 1, label "Profile 1", no equalizer
    nodes and no mixer channels. *)
Theorem deleteProfile_never_empty (profile : loc) (m : manager) :
  exists m',
    deleteProfile profile m = Returned m'
    /\ profiles m' <> []
    /\ (profiles m = [profile] ->
        exists created,
          profiles m' = [created]
          /\ (next (heapOf m) <= created)%nat
          /\ toObj created (heapOf m')
             = Some {| obj_id := 1; obj_label := "Profile 1";
                       obj_equalizerNodes := []; obj_mixerChannels := [] |}).
Proof.
  unfold deleteProfile.
  destruct (indexOf profile (profiles m)) as [i |] eqn:Ei; cbv beta iota zeta.
  - pose proof (indexOf_lt _ _ _ Ei) as Hi.
    set (m1 := {| heapOf := heapOf m; profiles := delete i (profiles m);
                  currentProfile := currentProfile m |}).
    assert (Hlen : length (profiles m1) = (length (profiles m) - 1)%nat).
    { simpl. rewrite length_delete by (apply lookup_lt_is_Some_2, Hi).
      reflexivity. }
    assert (Hheap : heapOf m1 = heapOf m) by reflexivity.
    clearbody m1.
    destruct (Nat.eqb_spec (length (profiles m1)) 0) as [Hz | Hnz].
    + (* the last profile was deleted *)
      destruct (newProfile_of_empty m1) as [Hps Hobj];
        [apply nil_length_inv, Hz |].
      assert (i = 0%nat) by lia. subst i.
      rewrite Hps. simpl lookup. cbv beta iota.
      exists (newProfile m1). split; [reflexivity |].
      split; [rewrite Hps; discriminate |].
      intros _. eexists. split; [exact Hps |].
      split; [rewrite Hheap; lia | exact Hobj].
    + assert (Hsel : (i - 1 < length (profiles m1))%nat) by lia.
      destruct (lookup_lt_is_Some_2 _ _ Hsel) as [l Hl]. rewrite Hl.
      exists m1. split; [reflexivity |].
      split; [intros Hnil; rewrite Hnil in Hnz; simpl in Hnz; lia |].
      intros Hone. rewrite Hone in Hlen. simpl in Hlen. lia.
  - destruct (Nat.eqb_spec (length (profiles m)) 0) as [Hz | Hnz].
    + destruct (newProfile_of_empty m) as [Hps Hobj];
        [apply nil_length_inv, Hz |].
      rewrite Hps. simpl lookup. cbv beta iota.
      exists (newProfile m). split; [reflexivity |].
      split; [rewrite Hps; discriminate |].
      intros Hone. rewrite Hone in Hz. simpl in Hz. lia.
    + assert (Hsel : (0 < length (profiles m))%nat) by lia.
      destruct (lookup_lt_is_Some_2 _ _ Hsel) as [l Hl]. rewrite Hl.
      exists m. split; [reflexivity |].
      split; [intros Hnil; rewrite Hnil in Hnz; simpl in Hnz; lia |].
      intros Hone. rewrite Hone, indexOf_head in Ei. discriminate Ei.
Qed.

Lemma deleteProfile_never_empty_witness :
  exists m' created,
    deleteProfile 2 (newProfile emptyManager) = Returned m'
    /\ profiles m' = [created]
    /\ (3 <= created)%nat.
Proof.
  destruct (deleteProfile_never_empty 2 (newProfile emptyManager))
    as [m' [Hrun [_ Hone]]].
  destruct (Hone eq_refl) as [created [Hps [Hfresh _]]].
  exists m', created. split; [exact Hrun |]. split; [exact Hps |].
  exact Hfresh.
Defined.

(** *** The scan for a free id terminates *)

Lemma hasId_idsOf h ps i : hasId h ps i = true <-> i ∈ idsOf h ps.
Proof.
  unfold hasId, idsOf. rewrite existsb_exists, list_elem_of_omap. split.
  - intros [l [Hin Hl]]. exists l. split; [apply list_elem_of_In, Hin |].
    destruct (getProfile h l) as [p |]; [| discriminate Hl].
    simpl. f_equal. apply Z.eqb_eq, Hl.
  - intros [l [Hin Hl]]. exists l. split; [apply list_elem_of_In, Hin |].
    destruct (getProfile h l) as [p |]; [| discriminate Hl].
    simpl in Hl. injection Hl as <-. apply Z.eqb_refl.
Qed.

Lemma length_idsOf h ps : (length (idsOf h ps) <= length ps)%nat.
Proof.
  unfold idsOf. induction ps as [| l ps IH]; [simpl; lia |].
  change (omap (fun l0 => id <$> getProfile h l0) (l :: ps))
    with (match id <$> getProfile h l with
          | Some i => i :: omap (fun l0 => id <$> getProfile h l0) ps
          | None => omap (fun l0 => id <$> getProfile h l0) ps
          end).
  destruct (id <$> getProfile h l); simpl; lia.
Qed.

Lemma scanId_inv h ps fuel : forall i,
  (1 <= i)%Z ->
  (forall j, (1 <= j < i)%Z -> hasId h ps j = true) ->
  let r := scanId fuel h ps i in
  (i <= r)%Z
  /\ (forall j, (1 <= j < r)%Z -> hasId h ps j = true)
  /\ (hasId h ps r = false \/ r = (i + Z.of_nat fuel)%Z).
Proof.
  induction fuel as [| fuel IH]; intros i Hi Htaken; simpl.
  - split; [lia |]. split; [exact Htaken |]. right. lia.
  - destruct (hasId h ps i) eqn:Ei.
    + destruct (IH (i + 1)%Z) as [H1 [H2 H3]]; [lia | |].
      { intros j Hj. destruct (decide (j = i)) as [-> | Hne];
          [exact Ei | apply Htaken; lia]. }
      split; [lia |]. split; [exact H2 |].
      destruct H3 as [H3 | H3]; [left; exact H3 | right; lia].
    + split; [lia |]. split; [exact Htaken |]. left. exact Ei.
Qed.

(** [getNextProfileID] returns the least integer from 1 on that is the id of
    no stored profile: the loop of the source leaves before the rounds
    allotted to [scanId] are used up. *)
Lemma getNextProfileID_free m :
  let r := getNextProfileID m in
  (1 <= r)%Z
  /\ hasId (heapOf m) (profiles m) r = false
  /\ forall j, (1 <= j < r)%Z -> hasId (heapOf m) (profiles m) j = true.
Proof.
  unfold getNextProfileID.
  destruct (scanId_inv (heapOf m) (profiles m) (S (length (profiles m))) 1)
    as [H1 [H2 H3]]; [lia | intros j Hj; lia |].
  cbv zeta. split; [exact H1 |]. split; [| exact H2].
  destruct H3 as [H3 | H3]; [exact H3 |].
  exfalso.
  set (n := length (profiles m)) in *.
  set (candidates := (fun k => Z.of_nat k) <$> seq 1 (S n)).
  assert (Hsub : candidates ⊆+ idsOf (heapOf m) (profiles m)).
  { apply NoDup_submseteq.
    - apply NoDup_fmap; [intros a b Hab; lia | apply NoDup_seq].
    - intros x Hx. apply list_elem_of_fmap in Hx as [k [-> Hk]].
      apply elem_of_seq in Hk. apply hasId_idsOf, H2. lia. }
  apply submseteq_length in Hsub.
  pose proof (length_idsOf (heapOf m) (profiles m)) as Hlen.
  unfold candidates in Hsub. rewrite length_fmap, length_seq in Hsub.
  fold n in Hlen. lia.
Qed.

(** *** A session: edit, then save *)

(** The store of one empty profile; the profile is activated, a node is
    added and dragged, the mixer is padded and Right is soloed. The stored
    profile is as before; the active one carries the edits; saving puts a
    copy of the active profile in the place of the stored one. *)
Example edits_reach_the_store_on_save :
  let m0 := newProfile emptyManager in
  let m1 := outcome_state (setCurrentProfile 2 m0) in
  let m2 :=
    fold_left applyEdit
      [ZeroLineClick "peaking" 1000; RefreshMixer; SoloClick 7 1;
       DragNode 0 440 3] m1 in
  let m3 := saveCurrentProfile (Some 2%nat) m2 in
  profiles m2 = [2%nat]
  /\ toObj 2 (heapOf m2) = toObj 2 (heapOf m0)
  /\ (obj_equalizerNodes <$> toObj 5 (heapOf m2))
     = Some [mkEQNode "peaking" 440 3 1]
  /\ (obj_mixerChannels <$> toObj 5 (heapOf m2))
     = Some (outcome_state (Mixer.soloClick 7 (Mixer.padChannels []) 1))
  /\ profiles m3 = [18%nat]
  /\ toObj 18 (heapOf m3) = toObj 5 (heapOf m2).
Proof.
  vm_compute. repeat split; reflexivity.
Qed.

(** *** Every operation keeps the heap well formed *)

Lemma Forall_lt_seq start len bound :
  (start + len <= bound)%nat -> Forall (fun r => (r < bound)%nat) (seq start len).
Proof.
  intros H. apply Forall_forall. intros r Hr. apply elem_of_seq in Hr. lia.
Qed.

Lemma Forall_lt_weaken (ls : list nat) a b :
  (a <= b)%nat -> Forall (fun r => (r < a)%nat) ls ->
  Forall (fun r => (r < b)%nat) ls.
Proof.
  intros Hab H. eapply Forall_impl; [exact H |]. simpl. intros; lia.
Qed.

Lemma wfHeap_fromObj obj h : wfHeap h -> wfHeap (snd (fromObj obj h)).
Proof.
  intros Hwf. unfold fromObj.
  pose proof (wfHeap_newAudioProfile (obj_id obj) h Hwf) as W1.
  destruct (newAudioProfile_spec (obj_id obj) h) as [Hp Hn1].
  destruct (newAudioProfile (obj_id obj) h) as [profile h1].
  simpl in W1, Hp, Hn1.
  destruct (allocAll (map EQNodeObject (obj_equalizerNodes obj)) h1)
    as [nodes h2] eqn:E2.
  pose proof (wfHeap_allocAll _ _ _ _ W1 (Forall_refs_nodes _) E2) as W2.
  destruct (allocAll_spec _ _ _ _ E2) as [Hn2 [Hnodes _]].
  destruct (alloc (ArrayObject nodes) h2) as [a h3] eqn:E3.
  destruct (alloc_spec _ _ _ _ E3) as [Ha [Hn3 _]].
  assert (W3 : wfHeap h3).
  { replace h3 with (snd (alloc (ArrayObject nodes) h2)) by (rewrite E3; reflexivity).
    apply wfHeap_alloc; [exact W2 |]. simpl. rewrite Hnodes.
    apply Forall_lt_seq. lia. }
  destruct (allocAll (map ChannelObject (obj_mixerChannels obj)) h3)
    as [channels h4] eqn:E4.
  pose proof (wfHeap_allocAll _ _ _ _ W3 (Forall_refs_channels _) E4) as W4.
  destruct (allocAll_spec _ _ _ _ E4) as [Hn4 [Hchannels _]].
  destruct (alloc (ArrayObject channels) h4) as [b h5] eqn:E5.
  destruct (alloc_spec _ _ _ _ E5) as [Hb [Hn5 _]].
  assert (W5 : wfHeap h5).
  { replace h5 with (snd (alloc (ArrayObject channels) h4)) by (rewrite E5; reflexivity).
    apply wfHeap_alloc; [exact W4 |]. simpl. rewrite Hchannels.
    apply Forall_lt_seq. lia. }
  simpl. apply wfHeap_store; [exact W5 | lia |].
  simpl. repeat constructor; lia.
Qed.

Lemma wfHeap_copy l h l' h' :
  wfHeap h -> copy l h = Some (l', h') -> wfHeap h' /\ (l' < next h')%nat.
Proof.
  intros Hwf Hcopy. unfold copy in Hcopy.
  destruct (toObj l h) as [obj |]; [| discriminate Hcopy].
  simpl in Hcopy. injection Hcopy as Hc.
  pose proof (wfHeap_fromObj obj h Hwf) as W.
  pose proof (toObj_fromObj obj h) as Hread.
  rewrite Hc in W, Hread. simpl in W, Hread. split; [exact W |].
  unfold toObj, getProfile in Hread.
  destruct (objects h' !! l') as [o |] eqn:El; [| discriminate Hread].
  apply (W l' o El).
Qed.

Lemma wfHeap_setCurrentProfile profile m :
  wfHeap (heapOf m) ->
  wfHeap (heapOf (outcome_state (setCurrentProfile profile m))).
Proof.
  intros Hwf. unfold setCurrentProfile.
  destruct (copy profile (heapOf m)) as [[active h] |] eqn:Ec; simpl.
  - apply (wfHeap_copy _ _ _ _ Hwf Ec).
  - exact Hwf.
Qed.

Lemma wfHeap_newProfile m : wfHeap (heapOf m) -> wfHeap (heapOf (newProfile m)).
Proof.
  intros Hwf. unfold newProfile.
  pose proof (wfHeap_newAudioProfile (getNextProfileID m) (heapOf m) Hwf) as W.
  destruct (newAudioProfile (getNextProfileID m) (heapOf m)) as [profile h].
  exact W.
Qed.

Lemma wfHeap_deleteProfile profile m :
  wfHeap (heapOf m) ->
  wfHeap (heapOf (outcome_state (deleteProfile profile m))).
Proof.
  intros Hwf. unfold deleteProfile. cbv zeta.
  match goal with
  | |- context [if ?c then newProfile ?m1 else _] =>
      assert (W1 : wfHeap (heapOf m1))
        by (destruct (indexOf profile (profiles m)); exact Hwf);
      assert (W2 : wfHeap (heapOf (if c then newProfile m1 else m1)))
        by (destruct c; [apply wfHeap_newProfile, W1 | exact W1])
  end.
  match goal with
  | |- context [match ?x with Some _ => _ | None => _ end] =>
      destruct x; exact W2
  end.
Qed.

Lemma wfHeap_importProfile today m profileObj :
  wfHeap (heapOf m) -> wfHeap (heapOf (importProfile today m profileObj)).
Proof.
  intros Hwf. unfold importProfile.
  pose proof (wfHeap_fromObj profileObj (heapOf m) Hwf) as W.
  destruct (fromObj profileObj (heapOf m)) as [profile h]. simpl in W.
  cbv zeta. unfold getProfile.
  destruct (objects h !! profile) as [[| | | p] |] eqn:Ep; try exact W.
  destruct (W _ _ Ep) as [Hlt Hrefs]. simpl.
  apply wfHeap_store; [exact W | exact Hlt | exact Hrefs].
Qed.

Lemma wfHeap_loadProfileFile today obj m :
  wfHeap (heapOf m) ->
  wfHeap (heapOf (outcome_state (loadProfileFile today obj m))).
Proof.
  intros Hwf. unfold loadProfileFile.
  destruct (bool_decide (fileType obj <> "audioProfile")); simpl;
    [exact Hwf |].
  revert m Hwf. induction (fileProfiles obj) as [| o os IH]; intros m Hwf;
    simpl; [exact Hwf |].
  apply IH, wfHeap_importProfile, Hwf.
Qed.

Lemma wfHeap_saveCurrentProfile selected m :
  wfHeap (heapOf m) -> wfHeap (heapOf (saveCurrentProfile selected m)).
Proof.
  intros Hwf. unfold saveCurrentProfile.
  destruct selected as [profile |]; [| exact Hwf].
  destruct (currentProfile m) as [active |]; [| exact Hwf].
  destruct (getProfile (heapOf m) profile) as [p |]; [| exact Hwf].
  destruct (copy active (heapOf m)) as [[newProfile h] |] eqn:Ec;
    [| exact Hwf].
  destruct (wfHeap_copy _ _ _ _ Hwf Ec) as [W Hlt].
  unfold getProfile.
  destruct (objects h !! newProfile) as [[| | | np] |] eqn:En; try exact W.
  destruct (W _ _ En) as [_ Hrefs].
  assert (W' : wfHeap
                 (store newProfile
                    (ProfileObject
                       {| id := id p; label := label p;
                          equalizerNodes := equalizerNodes np;
                          mixerChannels := mixerChannels np |}) h))
    by (apply wfHeap_store; [exact W | exact Hlt | exact Hrefs]).
  cbv zeta. destruct (indexOf profile (profiles m)); exact W'.
Qed.

Lemma activeArray_wf m field array elements :
  wfHeap (heapOf m) ->
  activeArray field m = Some (array, elements) ->
  (array < next (heapOf m))%nat
  /\ Forall (fun r => (r < next (heapOf m))%nat) elements.
Proof.
  intros Hwf Hrun. unfold activeArray, getArray in Hrun.
  destruct (currentProfile m) as [c |]; [| discriminate Hrun].
  simpl in Hrun.
  destruct (getProfile (heapOf m) c) as [p |]; [| discriminate Hrun].
  simpl in Hrun.
  destruct (objects (heapOf m) !! field p) as [[| | els |] |] eqn:Ea;
    try discriminate Hrun.
  simpl in Hrun. injection Hrun as <- <-. apply (Hwf _ _ Ea).
Qed.

Lemma wfHeap_addEQNode node m :
  wfHeap (heapOf m) -> (node < next (heapOf m))%nat ->
  wfHeap (heapOf (addEQNode node m)).
Proof.
  intros Hwf Hnode. unfold addEQNode.
  destruct (activeArray equalizerNodes m) as [[array nodes] |] eqn:Ea;
    [| exact Hwf].
  destruct (activeArray_wf _ _ _ _ Hwf Ea) as [Harr Hnodes]. simpl.
  apply wfHeap_store; [exact Hwf | exact Harr |].
  simpl. apply Forall_app. split; [exact Hnodes |].
  constructor; [exact Hnode | constructor].
Qed.

Lemma wfHeap_updateNode i f m :
  wfHeap (heapOf m) -> wfHeap (heapOf (updateNode i f m)).
Proof.
  intros Hwf. unfold updateNode.
  destruct (activeArray equalizerNodes m) as [[array nodes] |] eqn:Ea;
    [| exact Hwf].
  destruct (activeArray_wf _ _ _ _ Hwf Ea) as [_ Hnodes].
  destruct (nodes !! i) as [l |] eqn:El; [| exact Hwf].
  destruct (getNode (heapOf m) l) as [node |]; [| exact Hwf]. simpl.
  apply wfHeap_store; [exact Hwf | | constructor].
  rewrite Forall_lookup in Hnodes. apply (Hnodes i l El).
Qed.

Lemma wfHeap_writeChannels ls : forall cs h,
  wfHeap h -> Forall (fun r => (r < next h)%nat) ls ->
  wfHeap (writeChannels ls cs h).
Proof.
  unfold writeChannels.
  induction ls as [| l ls IH]; intros cs h Hwf Hls; [exact Hwf |].
  destruct cs as [| c cs]; [exact Hwf |]. simpl.
  apply Forall_cons in Hls as [Hl Hls].
  apply IH; [| exact Hls].
  apply wfHeap_store; [exact Hwf | exact Hl | constructor].
Qed.

Lemma wfHeap_updateChannels f m :
  wfHeap (heapOf m) -> wfHeap (heapOf (updateChannels f m)).
Proof.
  intros Hwf. unfold updateChannels.
  destruct (activeArray mixerChannels m) as [[array channels] |] eqn:Ea;
    [| exact Hwf].
  destruct (activeArray_wf _ _ _ _ Hwf Ea) as [_ Hchannels].
  destruct (mapM (getChannel (heapOf m)) channels) as [values |];
    [| exact Hwf].
  simpl. apply wfHeap_writeChannels; assumption.
Qed.

Lemma wfHeap_applyEdit m e :
  wfHeap (heapOf m) -> wfHeap (heapOf (applyEdit m e)).
Proof.
  intros Hwf. destruct e; simpl.
  - unfold zeroLineClick.
    pose proof (wfHeap_alloc (EQNodeObject (mkEQNode type0 frequency0 0 1))
                  (heapOf m) Hwf (Forall_nil_2 _)) as W.
    destruct (alloc (EQNodeObject (mkEQNode type0 frequency0 0 1)) (heapOf m))
      as [node h] eqn:Ealloc.
    destruct (alloc_spec _ _ _ _ Ealloc) as [Hnode [Hnext _]].
    apply wfHeap_addEQNode; simpl; [exact W | lia].
  - apply wfHeap_updateNode, Hwf.
  - apply wfHeap_updateNode, Hwf.
  - apply wfHeap_updateNode, Hwf.
  - unfold deleteNode.
    destruct (activeArray equalizerNodes m) as [[array nodes] |] eqn:Ea;
      [| exact Hwf].
    destruct (activeArray_wf _ _ _ _ Hwf Ea) as [Harr Hnodes]. simpl.
    apply wfHeap_store; [exact Hwf | exact Harr |].
    simpl. apply Forall_delete, Hnodes.
  - apply wfHeap_updateChannels, Hwf.
  - apply wfHeap_updateChannels, Hwf.
  - apply wfHeap_updateChannels, Hwf.
  - unfold activeRefreshMixer.
    destruct (activeArray mixerChannels m) as [[array channels] |] eqn:Ea;
      [| exact Hwf].
    destruct (activeArray_wf _ _ _ _ Hwf Ea) as [Harr Hchannels].
    destruct (length channels <? 7)%nat; [| exact Hwf].
    match goal with
    | |- context [allocAll ?os ?h] =>
        destruct (allocAll os h) as [added h1] eqn:Ealloc;
        pose proof (wfHeap_allocAll os h added h1 Hwf) as W;
        destruct (allocAll_spec _ _ _ _ Ealloc) as [Hn [Hadded _]]
    end.
    simpl. apply wfHeap_store.
    + apply W; [| exact Ealloc].
      apply Forall_fmap, Forall_forall. intros; reflexivity.
    + lia.
    + simpl. apply Forall_app. split.
      * eapply Forall_lt_weaken; [| exact Hchannels]. lia.
      * rewrite Hadded. apply Forall_lt_seq. lia.
Qed.

End Store.

(** ** The volume handle of a mixer channel *)

Module Slider.
Local Open Scope R_scope.
Import Curve.

(** [dbToGain(db)] on the values [mixerPositionRatioToDB] returns:
    [Math.pow(10, -Infinity / 20)] is 0. *)
Definition dbToGain_ext (db : jsnum) : R :=
  match db with
  | NegInfinity => 0
  | Num d => dbToGain d
  end.

(** [gainToDB(gain)] for a gain that is not negative: [Math.log10(0)] is
    [-Infinity]. *)
Definition gainToDB_ext (gain : R) : jsnum :=
  if Req_dec_T gain 0 then NegInfinity else Num (gainToDB gain).

(** [const zeroPos = this.mixerDBToPositionRatio(0)]. *)
Definition zeroPos : R := mixerDBToPositionRatio (Num 0).

(** The position, in percent, that [mouseMove] gives the handle for the
    pointer at [y] below the top of a track of height [clientHeight]. *)
Definition handlePercent (y clientHeight : R) : R :=
  let newYPercent := clamp (y / clientHeight * 100) 0 100 in
  let newYPercent :=
    if Rlt_dec (Rabs (newYPercent / 100 - zeroPos)) 0.025
    then zeroPos * 100 else newYPercent in
  if Rle_dec 98 newYPercent then 100 else newYPercent.

(** [mouseMove(e)]: the position of the handle and the gain passed to
    [setChannelGain]. *)
Definition mouseMove (y clientHeight : R) : R * R :=
  let newYPercent := handlePercent y clientHeight in
  let db := mixerPositionRatioToDB (newYPercent / 100) in
  (newYPercent, dbToGain_ext db).

(** The [keydown] handler of the handle at position [ratio] (its [top]
    divided by 100), for ArrowUp ([up]) and ArrowDown: the new position
    ratio and the gain passed to [setChannelGain]. *)
Definition arrowKey (up : bool) (ratio : R) : R * R :=
  let db :=
    mixerPositionRatioToDB (if up then ratio - 0.025 else ratio + 0.025) in
  (mixerDBToPositionRatio db, dbToGain_ext db).

(** The position [createMixerChannel] gives the handle of a channel:
    [mixerDBToPositionRatio(gainToDB(channel.gain))]. *)
Definition handleOfGain (gain : R) : R :=
  mixerDBToPositionRatio (gainToDB_ext gain).

Lemma Math_pow10_pos e : 0 < Math_pow 10 e.
Proof. unfold Math_pow, Rpower. apply exp_pos. Qed.

Lemma Math_pow10_0 : Math_pow 10 0 = 1.
Proof. unfold Math_pow, Rpower. rewrite Rmult_0_l. apply exp_0. Qed.

Lemma Math_pow10_lt a b : a < b -> Math_pow 10 a < Math_pow 10 b.
Proof.
  intros H. unfold Math_pow, Rpower. apply exp_increasing.
  apply Rmult_lt_compat_r; [apply ln10_pos | exact H].
Qed.

Lemma Math_pow10_le a b : a <= b -> Math_pow 10 a <= Math_pow 10 b.
Proof.
  intros [H | ->]; [left; apply Math_pow10_lt, H | right; reflexivity].
Qed.

Lemma Math_log10_pow10 e : Math_log10 (Math_pow 10 e) = e.
Proof.
  unfold Math_log10, Math_pow, Rpower. rewrite ln_exp.
  field. apply Rgt_not_eq, ln10_pos.
Qed.

(** [symmetricalLogScaleY] inverts [symmetricalLogScaleX]. *)
Lemma symY_symX y c :
  0 < c -> symmetricalLogScaleY (symmetricalLogScaleX y c) c = y.
Proof.
  intros Hc.
  destruct (Rtotal_order y 0) as [Hy | [Hy | Hy]].
  - assert (Hp : 1 < Math_pow 10 (- y)).
    { rewrite <- Math_pow10_0. apply Math_pow10_lt. lra. }
    assert (Hx : symmetricalLogScaleX y c = - (c * (Math_pow 10 (- y) - 1))).
    { unfold symmetricalLogScaleX. rewrite Math_sign_neg by exact Hy.
      rewrite Rabs_left by exact Hy. ring. }
    rewrite Hx. rewrite symY_neg; [| exact Hc |].
    + replace (- - (c * (Math_pow 10 (- y) - 1)) / c + 1)
        with (Math_pow 10 (- y)) by (field; lra).
      rewrite Math_log10_pow10. ring.
    + assert (0 < c * (Math_pow 10 (- y) - 1))
        by (apply Rmult_lt_0_compat; lra).
      lra.
  - subst y. unfold symmetricalLogScaleX. rewrite Math_sign_zero.
    replace (0 * c * (Math_pow 10 (Rabs 0) - 1)) with 0 by ring.
    apply symY_zero.
  - assert (Hp : 1 < Math_pow 10 y).
    { rewrite <- Math_pow10_0. apply Math_pow10_lt. lra. }
    assert (Hx : symmetricalLogScaleX y c = c * (Math_pow 10 y - 1)).
    { unfold symmetricalLogScaleX. rewrite Math_sign_pos by exact Hy.
      rewrite Rabs_pos_eq by lra. ring. }
    rewrite Hx. rewrite symY_pos; [| exact Hc |].
    + replace (c * (Math_pow 10 y - 1) / c + 1)
        with (Math_pow 10 y) by (field; lra).
      apply Math_log10_pow10.
    + apply Rmult_lt_0_compat; lra.
Qed.

Lemma symX_lt y1 y2 c :
  0 < c -> y1 < y2 -> symmetricalLogScaleX y1 c < symmetricalLogScaleX y2 c.
Proof.
  intros Hc Hlt.
  destruct (Rlt_le_dec (symmetricalLogScaleX y1 c) (symmetricalLogScaleX y2 c))
    as [H | H]; [exact H |].
  apply (symY_le _ _ c Hc) in H. rewrite !symY_symX in H by exact Hc. lra.
Qed.

Lemma symX_le y1 y2 c :
  0 < c -> y1 <= y2 -> symmetricalLogScaleX y1 c <= symmetricalLogScaleX y2 c.
Proof.
  intros Hc [H | ->]; [left; apply symX_lt; assumption | right; reflexivity].
Qed.

(** X1: for a positive constant c, [symmetricalLogScaleX] and
    [symmetricalLogScaleY] are inverse to each other on the whole real line,
    [symmetricalLogScaleY] is odd ([Y(-x) = -Y(x)]) and both are strictly
    increasing. *)
Theorem symmetricalLogScale_inverse (c : R) :
  0 < c ->
  (forall x, symmetricalLogScaleX (symmetricalLogScaleY x c) c = x)
  /\ (forall y, symmetricalLogScaleY (symmetricalLogScaleX y c) c = y)
  /\ (forall x, symmetricalLogScaleY (- x) c = - symmetricalLogScaleY x c)
  /\ (forall x1 x2, x1 < x2 ->
        symmetricalLogScaleY x1 c < symmetricalLogScaleY x2 c)
  /\ (forall y1 y2, y1 < y2 ->
        symmetricalLogScaleX y1 c < symmetricalLogScaleX y2 c).
Proof.
  intros Hc. split; [| split; [| split; [| split]]].
  - intros x. apply symX_symY, Hc.
  - intros y. apply symY_symX, Hc.
  - intros x. destruct (Rtotal_order x 0) as [Hx | [Hx | Hx]].
    + rewrite (symY_pos (- x)), (symY_neg x) by lra. ring.
    + subst x. rewrite Ropp_0, symY_zero. ring.
    + rewrite (symY_neg (- x)), (symY_pos x) by lra.
      rewrite Ropp_involutive. reflexivity.
  - intros x1 x2. apply symY_lt, Hc.
  - intros y1 y2. apply symX_lt, Hc.
Qed.

Lemma symmetricalLogScale_inverse_witness :
  symmetricalLogScaleX (symmetricalLogScaleY 7 mixer_c) mixer_c = 7
  /\ symmetricalLogScaleY (symmetricalLogScaleX (-2) mixer_c) mixer_c = -2.
Proof.
  destruct (symmetricalLogScale_inverse mixer_c mixer_c_pos) as [H1 [H2 _]].
  split; [apply H1 | apply H2].
Defined.

(** *** Position, decibels and gain *)

Lemma symX_maxY : symmetricalLogScaleX (symmetricalLogScaleY 10 mixer_c) mixer_c = 10.
Proof. apply symX_symY, mixer_c_pos. Qed.

Lemma symX_minY :
  symmetricalLogScaleX (symmetricalLogScaleY (-50) mixer_c) mixer_c = -50.
Proof. apply symX_symY, mixer_c_pos. Qed.

Lemma clamp_low r : r <= 0 -> clamp r 0 1 = 0.
Proof.
  intros H. unfold clamp. rewrite Rmax_right by exact H.
  apply Rmin_left. lra.
Qed.

Lemma clamp_high v lo hi : lo <= hi -> hi <= v -> clamp v lo hi = hi.
Proof.
  intros Hlh H. unfold clamp. rewrite Rmax_left by lra. apply Rmin_right, H.
Qed.

(** The position of the decibel value of a position is the position forced
    into the track. *)
Lemma position_of_db_of_position r :
  mixerDBToPositionRatio (mixerPositionRatioToDB r) = clamp r 0 1.
Proof.
  pose proof mixer_c_pos as Hc. pose proof mixer_span_pos as Hspan.
  pose proof symX_maxY as Emax. pose proof symX_minY as Emin.
  unfold mixerPositionRatioToDB.
  destruct (Rle_dec 1 r) as [Hge | Hlt].
  - simpl. symmetry. apply clamp_high; lra.
  - apply Rnot_le_lt in Hlt. cbv zeta.
    set (maxY := symmetricalLogScaleY 10 mixer_c) in *.
    set (minY := symmetricalLogScaleY (-50) mixer_c) in *.
    set (y := maxY - r * (maxY - minY)).
    destruct (Rle_lt_dec r 0) as [Hneg | Hpos].
    + assert (Hy : maxY <= y).
      { unfold y. assert (0 <= - r * (maxY - minY)) by
          (apply Rmult_le_pos; lra). lra. }
      pose proof (symX_le _ _ mixer_c Hc Hy) as HX.
      rewrite Emax in HX.
      rewrite (clamp_high _ (-50) 10) by lra.
      destruct (position_unclamped 10) as [Eq _]; [lra | lra |].
      rewrite Eq. fold maxY minY. rewrite clamp_low by exact Hneg.
      unfold Rdiv. ring.
    + assert (Hy1 : minY < y).
      { unfold y. assert (r * (maxY - minY) < 1 * (maxY - minY)) by
          (apply Rmult_lt_compat_r; lra). lra. }
      assert (Hy2 : y < maxY).
      { unfold y. assert (0 < r * (maxY - minY)) by
          (apply Rmult_lt_0_compat; lra). lra. }
      pose proof (symX_lt _ _ mixer_c Hc Hy1) as HX1.
      pose proof (symX_lt _ _ mixer_c Hc Hy2) as HX2.
      rewrite Emin in HX1. rewrite Emax in HX2.
      rewrite (clamp_id _ (-50) 10) by lra.
      destruct (position_unclamped (symmetricalLogScaleX y mixer_c))
        as [Eq _]; [lra | lra |].
      rewrite Eq. rewrite symY_symX by exact Hc. fold maxY minY.
      rewrite clamp_id by lra. unfold y. field. lra.
Qed.

Lemma dbToGain_pos db : 0 < dbToGain db.
Proof. apply Math_pow10_pos. Qed.

Lemma gainToDB_dbToGain db : gainToDB (dbToGain db) = db.
Proof. unfold gainToDB, dbToGain. rewrite Math_log10_pow10. field. Qed.

Lemma dbToGain_gainToDB gain : 0 < gain -> dbToGain (gainToDB gain) = gain.
Proof.
  intros H. unfold gainToDB, dbToGain.
  replace (20 * Math_log10 gain / 20) with (Math_log10 gain) by field.
  apply Math_pow10_log10, H.
Qed.

Lemma gainToDB_ext_dbToGain_ext db : gainToDB_ext (dbToGain_ext db) = db.
Proof.
  destruct db as [| d]; simpl; unfold gainToDB_ext.
  - destruct (Req_dec_T 0 0); [reflexivity | lra].
  - pose proof (dbToGain_pos d).
    destruct (Req_dec_T (dbToGain d) 0); [lra |].
    f_equal. apply gainToDB_dbToGain.
Qed.

(** X2: sending a position ratio to decibels and back gives the ratio forced
    into the track: [mixerDBToPositionRatio(mixerPositionRatioToDB(ratio))] is
    [ratio] for every ratio from 0 to 1 (1 included, through [-Infinity]), 0
    for a negative ratio and 1 for a ratio above 1. *)
Theorem mixer_position_roundtrip :
  (forall ratio,
     mixerDBToPositionRatio (mixerPositionRatioToDB ratio) = clamp ratio 0 1)
  /\ (forall ratio, 0 <= ratio <= 1 ->
        mixerDBToPositionRatio (mixerPositionRatioToDB ratio) = ratio)
  /\ (forall ratio, ratio <= 0 ->
        mixerDBToPositionRatio (mixerPositionRatioToDB ratio) = 0)
  /\ (forall ratio, 1 <= ratio ->
        mixerDBToPositionRatio (mixerPositionRatioToDB ratio) = 1).
Proof.
  split; [exact position_of_db_of_position |]. split; [| split].
  - intros r Hr. rewrite position_of_db_of_position. apply clamp_id; lra.
  - intros r Hr. rewrite position_of_db_of_position. apply clamp_low, Hr.
  - intros r Hr. rewrite position_of_db_of_position. apply clamp_high; lra.
Qed.

Lemma mixer_position_roundtrip_witness :
  mixerDBToPositionRatio (mixerPositionRatioToDB (1 / 4)) = 1 / 4
  /\ mixerDBToPositionRatio (mixerPositionRatioToDB (-3)) = 0.
Proof.
  destruct mixer_position_roundtrip as [_ [Hin [Hlow _]]].
  split; [apply Hin; lra | apply Hlow; lra].
Defined.

(** X3: [gainToDB] and [dbToGain] are inverse to each other:
    [gainToDB(dbToGain(db))] is db for every decibel value, [-Infinity]
    included (it is sent to gain 0 and back), and [dbToGain(gainToDB(gain))]
    is gain for every gain that is not negative; [dbToGain] of a real is
    positive, is 1 at 0 dB and is strictly increasing. *)
Theorem gain_db_inverse :
  (forall db, gainToDB_ext (dbToGain_ext db) = db)
  /\ (forall gain, 0 <= gain -> dbToGain_ext (gainToDB_ext gain) = gain)
  /\ (forall db, 0 < dbToGain db)
  /\ dbToGain 0 = 1
  /\ (forall db1 db2, db1 < db2 -> dbToGain db1 < dbToGain db2).
Proof.
  split; [exact gainToDB_ext_dbToGain_ext |]. split; [| split; [| split]].
  - intros gain Hg. unfold gainToDB_ext.
    destruct (Req_dec_T gain 0) as [-> | Hne]; simpl; [reflexivity |].
    apply dbToGain_gainToDB. lra.
  - exact dbToGain_pos.
  - unfold dbToGain. replace (0 / 20) with 0 by field. apply Math_pow10_0.
  - intros db1 db2 H. unfold dbToGain. apply Math_pow10_lt. lra.
Qed.

Lemma gain_db_inverse_witness :
  dbToGain_ext (gainToDB_ext (1 / 2)) = 1 / 2
  /\ dbToGain (-6) < dbToGain 3.
Proof.
  destruct gain_db_inverse as [_ [H1 [_ [_ H2]]]].
  split; [apply H1; lra | apply H2; lra].
Defined.

(** *** Dragging and the arrow keys *)

Lemma db_of_position_of_db d :
  -50 < d -> d <= 10 ->
  mixerPositionRatioToDB (mixerDBToPositionRatio (Num d)) = Num d.
Proof.
  intros Hlo Hhi.
  destruct (position_unclamped d Hlo Hhi) as [Eq [Hq0 Hq1]].
  rewrite Eq. unfold mixerPositionRatioToDB.
  match goal with
  | |- context [Rle_dec 1 ?v] => destruct (Rle_dec 1 v) as [Hge | _]
  end; [lra |].
  cbv zeta. f_equal.
  pose proof mixer_span_pos as Hspan.
  match goal with
  | |- clamp (symmetricalLogScaleX ?y _) _ _ = _ =>
      replace y with (symmetricalLogScaleY d mixer_c) by (field; lra)
  end.
  rewrite symX_symY by apply mixer_c_pos.
  apply clamp_id; lra.
Qed.

Lemma db_of_low_position r : r <= 0 -> mixerPositionRatioToDB r = Num 10.
Proof.
  intros Hr. pose proof mixer_c_pos as Hc. pose proof mixer_span_pos as Hspan.
  pose proof symX_maxY as Emax.
  unfold mixerPositionRatioToDB.
  destruct (Rle_dec 1 r) as [Hge | _]; [lra |]. cbv zeta. f_equal.
  set (maxY := symmetricalLogScaleY 10 mixer_c) in *.
  set (minY := symmetricalLogScaleY (-50) mixer_c) in *.
  assert (Hy : maxY <= maxY - r * (maxY - minY)).
  { assert (0 <= - r * (maxY - minY)) by (apply Rmult_le_pos; lra). lra. }
  pose proof (symX_le _ _ mixer_c Hc Hy) as HX. rewrite Emax in HX.
  apply clamp_high; lra.
Qed.

Lemma db_gain_bounds r :
  0 <= dbToGain_ext (mixerPositionRatioToDB r) <= dbToGain 10.
Proof.
  unfold mixerPositionRatioToDB.
  destruct (Rle_dec 1 r); simpl.
  - pose proof (dbToGain_pos 10). lra.
  - match goal with
    | |- context [clamp ?v (-50) 10] =>
        pose proof (clamp_bounds v (-50) 10) as Hb
    end.
    split; [left; apply dbToGain_pos |].
    unfold dbToGain. apply Math_pow10_le. lra.
Qed.

Lemma zeroPos_bounds : 0 < zeroPos < 1 / 2.
Proof.
  pose proof mixer_c_pos as Hc.
  destruct (position_unclamped 0) as [Eq _]; [lra | lra |].
  unfold zeroPos. rewrite Eq. rewrite symY_zero.
  set (maxY := symmetricalLogScaleY 10 mixer_c).
  set (minY := symmetricalLogScaleY (-50) mixer_c).
  assert (Hmax : 0 < maxY) by (apply symY_pos_gt0; lra).
  assert (Hmin : minY < - maxY).
  { unfold minY, maxY. rewrite (symY_neg (-50)) by lra.
    pose proof (symY_lt 10 50 mixer_c Hc) as H.
    rewrite (symY_pos 50) in H by lra.
    replace (- -50 / mixer_c + 1) with (50 / mixer_c + 1) by (unfold Rdiv; ring).
    lra. }
  replace (maxY - 0) with maxY by ring.
  assert (Hspan : 0 < maxY - minY) by lra.
  split.
  - apply Rdiv_lt_0_compat; assumption.
  - apply (Rmult_lt_reg_r (maxY - minY)); [exact Hspan |].
    unfold Rdiv. rewrite Rmult_assoc, Rinv_l by lra. lra.
Qed.

Lemma handlePercent_range y clientHeight :
  0 <= handlePercent y clientHeight <= 100.
Proof.
  unfold handlePercent. cbv zeta.
  pose proof (clamp_bounds (y / clientHeight * 100) 0 100) as Hb.
  pose proof zeroPos_bounds as Hz.
  destruct (Rlt_dec _ _); destruct (Rle_dec 98 _); lra.
Qed.

(** X4: dragging the handle of a channel (track of positive height). The
    handle stays between 0 and 100 percent and the gain set lies between 0
    and [dbToGain(10)]; a pointer within 2.5 percent of the track from the
    0 dB mark snaps the handle to that mark and sets the gain to exactly 1; a
    pointer at 98 percent or below it puts the handle at 100 percent and sets
    the gain to 0; and the position [createMixerChannel] computes from the
    gain that was set is the position the handle was left at. *)
Theorem mouseMove_snaps (y clientHeight : R) :
  0 < clientHeight ->
  let pointer := clamp (y / clientHeight * 100) 0 100 in
  0 <= fst (mouseMove y clientHeight) <= 100
  /\ 0 <= snd (mouseMove y clientHeight) <= dbToGain 10
  /\ (Rabs (pointer / 100 - zeroPos) < 0.025 ->
      mouseMove y clientHeight = (zeroPos * 100, 1))
  /\ (98 <= pointer -> mouseMove y clientHeight = (100, 0))
  /\ handleOfGain (snd (mouseMove y clientHeight)) * 100
     = fst (mouseMove y clientHeight).
Proof.
  intros _ pointer.
  pose proof zeroPos_bounds as Hz.
  pose proof (handlePercent_range y clientHeight) as Hrange.
  split; [exact Hrange |]. split; [apply db_gain_bounds |].
  split; [| split].
  - intros Hsnap. unfold mouseMove, handlePercent. cbv zeta. fold pointer.
    destruct (Rlt_dec (Rabs (pointer / 100 - zeroPos)) 0.025); [| contradiction].
    destruct (Rle_dec 98 (zeroPos * 100)); [lra |].
    replace (zeroPos * 100 / 100) with zeroPos by field.
    unfold zeroPos at 2. rewrite db_of_position_of_db by lra. simpl.
    f_equal. unfold dbToGain. replace (0 / 20) with 0 by field.
    apply Math_pow10_0.
  - intros Hlow. unfold mouseMove, handlePercent. cbv zeta. fold pointer.
    destruct (Rlt_dec (Rabs (pointer / 100 - zeroPos)) 0.025) as [Hsnap | _].
    + exfalso. apply Rabs_def2 in Hsnap. lra.
    + destruct (Rle_dec 98 pointer); [| contradiction].
      rewrite mixerPositionRatioToDB_guard by lra. reflexivity.
  - unfold mouseMove. cbv zeta. simpl fst. simpl snd.
    unfold handleOfGain. rewrite gainToDB_ext_dbToGain_ext.
    rewrite position_of_db_of_position.
    rewrite clamp_id by lra. field.
Qed.

Lemma mouseMove_snaps_witness :
  mouseMove 99 100 = (100, 0)
  /\ 0 <= snd (mouseMove 30 100) <= dbToGain 10.
Proof.
  destruct (mouseMove_snaps 99 100) as [_ [_ [_ [Hlow _]]]]; [lra |].
  destruct (mouseMove_snaps 30 100) as [_ [Hgain _]]; [lra |].
  split; [| exact Hgain].
  apply Hlow. replace (99 / 100 * 100) with 99 by field.
  rewrite clamp_id by lra. lra.
Defined.

(** X5: the arrow keys on the handle at position [ratio] move it by 2.5
    percent of the track and never off it: the new position is
    [ratio - 0.025] (ArrowUp) or [ratio + 0.025] (ArrowDown) forced between 0
    and 1, and the gain set lies between 0 and [dbToGain(10)]; ArrowDown
    from 97.5 percent or below it reaches the bottom with gain 0, ArrowUp
    from 2.5 percent or above it reaches the top with the gain of +10 dB. *)
Theorem arrowKey_stays_on_track (up : bool) (ratio : R) :
  fst (arrowKey up ratio)
  = clamp (if up then ratio - 0.025 else ratio + 0.025) 0 1
  /\ 0 <= fst (arrowKey up ratio) <= 1
  /\ 0 <= snd (arrowKey up ratio) <= dbToGain 10
  /\ (0.975 <= ratio -> arrowKey false ratio = (1, 0))
  /\ (ratio <= 0.025 -> arrowKey true ratio = (0, dbToGain 10)).
Proof.
  split; [| split; [| split; [| split]]].
  - unfold arrowKey. simpl. apply position_of_db_of_position.
  - unfold arrowKey. simpl. apply mixerDBToPositionRatio_range.
  - unfold arrowKey. simpl. apply db_gain_bounds.
  - intros H. unfold arrowKey.
    rewrite mixerPositionRatioToDB_guard by lra. reflexivity.
  - intros H. unfold arrowKey. rewrite db_of_low_position by lra.
    f_equal. destruct (position_unclamped 10) as [Eq _]; [lra | lra |].
    rewrite Eq. unfold Rdiv. ring.
Qed.

Lemma arrowKey_stays_on_track_witness :
  arrowKey false 0.99 = (1, 0) /\ arrowKey true 0.01 = (0, dbToGain 10).
Proof.
  destruct (arrowKey_stays_on_track false 0.99) as [_ [_ [_ [H1 _]]]].
  destruct (arrowKey_stays_on_track true 0.01) as [_ [_ [_ [_ H2]]]].
  split; [apply H1; lra | apply H2; lra].
Defined.

End Slider.

(** ** The frequency axis of the equalizer *)

Module Axis.
Local Open Scope R_scope.
Import Curve.

(** [ratioToFrequency(ratio)], for the sample rate of the analyser. *)
Definition ratioToFrequency (sampleRate ratio : R) : R :=
  let maxFreq := sampleRate / 2 in
  let frequencyWidth := maxFreq in
  let logFrequencyWidth := Math_log10 (frequencyWidth / 20) in
  clamp (Math_pow 10 (ratio * logFrequencyWidth + Math_log10 20)) 0 maxFreq.

(** The position that [updateEqualizerNodeMarkers] gives the marker of a
    node: [Math.log10(frequency / 20) / Math.log10(maxFreq / 20)]. *)
Definition frequencyPercent (sampleRate frequency : R) : R :=
  let maxFreq := sampleRate / 2 in
  Math_log10 (frequency / 20) / Math_log10 (maxFreq / 20).

(** The point that the drawing loops of [renderEqualizerResponse] give
    sample [i] of the response: [(x * xScale, height / 2 - y * yScale)] with
    [x = Math.log10(frequencyArray[i] / 20)] and [y = dbResponse[i]]. *)
Definition curvePoint (sampleRate width height : R) (frequency db : R)
  : R * R :=
  let maxFreq := sampleRate / 2 in
  let xScale := width / Math_log10 (maxFreq / 20) in
  let yScale := height / 40 in
  let x := Math_log10 (frequency / 20) in
  let y := db in
  (x * xScale, height / 2 - y * yScale).

Lemma Math_pow10_plus a b : Math_pow 10 (a + b) = Math_pow 10 a * Math_pow 10 b.
Proof. unfold Math_pow. apply Rpower_plus. Qed.

Lemma Math_log10_width maxFreq : 20 < maxFreq -> 0 < Math_log10 (maxFreq / 20).
Proof. intros H. apply Math_log10_pos. lra. Qed.

(** Between the ends of the axis the power is not clamped. *)
Lemma axis_power maxFreq ratio :
  20 < maxFreq -> 0 <= ratio <= 1 ->
  let f := Math_pow 10 (ratio * Math_log10 (maxFreq / 20) + Math_log10 20) in
  20 <= f <= maxFreq
  /\ Math_log10 (f / 20) = ratio * Math_log10 (maxFreq / 20).
Proof.
  intros Hmax Hr f.
  pose proof (Math_log10_width maxFreq Hmax) as HL.
  assert (Ef : f = Math_pow 10 (ratio * Math_log10 (maxFreq / 20)) * 20).
  { unfold f. rewrite Math_pow10_plus. rewrite (Math_pow10_log10 20) by lra.
    reflexivity. }
  assert (H1 : 1 <= Math_pow 10 (ratio * Math_log10 (maxFreq / 20))).
  { rewrite <- Slider.Math_pow10_0. apply Slider.Math_pow10_le.
    apply Rmult_le_pos; lra. }
  assert (H2 : Math_pow 10 (ratio * Math_log10 (maxFreq / 20)) <= maxFreq / 20).
  { rewrite <- (Math_pow10_log10 (maxFreq / 20)) at 2 by lra.
    apply Slider.Math_pow10_le.
    assert (ratio * Math_log10 (maxFreq / 20) <= 1 * Math_log10 (maxFreq / 20))
      by (apply Rmult_le_compat_r; lra).
    lra. }
  split; [rewrite Ef; lra |].
  rewrite Ef. replace (Math_pow 10 (ratio * Math_log10 (maxFreq / 20)) * 20 / 20)
    with (Math_pow 10 (ratio * Math_log10 (maxFreq / 20))) by field.
  apply Slider.Math_log10_pow10.
Qed.

Lemma ratioToFrequency_inside sampleRate ratio :
  40 < sampleRate -> 0 <= ratio <= 1 ->
  ratioToFrequency sampleRate ratio
  = Math_pow 10 (ratio * Math_log10 (sampleRate / 2 / 20) + Math_log10 20).
Proof.
  intros Hs Hr. unfold ratioToFrequency. cbv zeta.
  destruct (axis_power (sampleRate / 2) ratio) as [Hb _]; [lra | exact Hr |].
  cbv zeta in Hb. apply clamp_id; lra.
Qed.

(** X6: for a sample rate above 40 Hz, [ratioToFrequency] sends 0 to 20 Hz
    and 1 to the Nyquist frequency, keeps every ratio from 0 to 1 between
    these two, is strictly increasing on them, and never leaves the interval
    from 0 to the Nyquist frequency, whatever the ratio. *)
Theorem ratioToFrequency_axis (sampleRate : R) :
  40 < sampleRate ->
  let nyquist := sampleRate / 2 in
  ratioToFrequency sampleRate 0 = 20
  /\ ratioToFrequency sampleRate 1 = nyquist
  /\ (forall ratio, 0 <= ratio <= 1 ->
        20 <= ratioToFrequency sampleRate ratio <= nyquist)
  /\ (forall r1 r2, 0 <= r1 -> r1 < r2 -> r2 <= 1 ->
        ratioToFrequency sampleRate r1 < ratioToFrequency sampleRate r2)
  /\ (forall ratio, 0 <= ratioToFrequency sampleRate ratio <= nyquist).
Proof.
  intros Hs nyquist.
  assert (Hn : 20 < nyquist) by (unfold nyquist; lra).
  pose proof (Math_log10_width nyquist Hn) as HL.
  split; [| split; [| split; [| split]]].
  - rewrite ratioToFrequency_inside by lra. fold nyquist.
    rewrite Rmult_0_l, Rplus_0_l. apply Math_pow10_log10. lra.
  - rewrite ratioToFrequency_inside by lra. fold nyquist.
    rewrite Rmult_1_l, Math_pow10_plus.
    rewrite !Math_pow10_log10 by lra. field.
  - intros ratio Hr. rewrite ratioToFrequency_inside by lra.
    destruct (axis_power nyquist ratio Hn Hr) as [Hb _]. exact Hb.
  - intros r1 r2 H1 H12 H2. rewrite !ratioToFrequency_inside by lra.
    fold nyquist. apply Slider.Math_pow10_lt.
    assert (r1 * Math_log10 (nyquist / 20) < r2 * Math_log10 (nyquist / 20))
      by (apply Rmult_lt_compat_r; lra).
    lra.
  - intros ratio. unfold ratioToFrequency. cbv zeta. fold nyquist.
    apply clamp_bounds. lra.
Qed.

Lemma ratioToFrequency_axis_witness :
  ratioToFrequency 44100 0 = 20 /\ ratioToFrequency 44100 1 = 44100 / 2.
Proof.
  destruct (ratioToFrequency_axis 44100) as [H0 [H1 _]]; [lra |].
  split; [exact H0 | exact H1].
Defined.

(** X7: a node placed by a click at position [ratio] of the axis gets its
    marker at that position: for a sample rate above 40 Hz and a ratio from
    0 to 1, the marker position of [ratioToFrequency(ratio)] is [ratio]; and
    the frequency at the marker position of a frequency between 20 Hz and
    the Nyquist frequency is that frequency. *)
Theorem marker_at_click_position (sampleRate : R) :
  40 < sampleRate ->
  (forall ratio, 0 <= ratio <= 1 ->
     frequencyPercent sampleRate (ratioToFrequency sampleRate ratio) = ratio)
  /\ (forall frequency, 20 <= frequency <= sampleRate / 2 ->
        ratioToFrequency sampleRate (frequencyPercent sampleRate frequency)
        = frequency).
Proof.
  intros Hs.
  assert (Hn : 20 < sampleRate / 2) by lra.
  pose proof (Math_log10_width _ Hn) as HL.
  split.
  - intros ratio Hr. rewrite ratioToFrequency_inside by lra.
    destruct (axis_power (sampleRate / 2) ratio Hn Hr) as [_ He].
    unfold frequencyPercent. cbv zeta in *. rewrite He. field. lra.
  - intros frequency Hf. unfold frequencyPercent. cbv zeta.
    set (L := Math_log10 (sampleRate / 2 / 20)) in *.
    assert (Hp : 0 <= Math_log10 (frequency / 20) <= L).
    { split.
      - destruct (Req_dec frequency 20) as [-> | Hne].
        + replace (20 / 20) with 1 by field. rewrite Math_log10_1. lra.
        + left. apply Math_log10_pos. lra.
      - destruct (Req_dec frequency (sampleRate / 2)) as [-> | Hne].
        + unfold L. lra.
        + left. unfold L. apply Math_log10_lt; lra. }
    assert (Hq : 0 <= Math_log10 (frequency / 20) / L <= 1).
    { split.
      - apply Rmult_le_pos; [lra | left; apply Rinv_0_lt_compat, HL].
      - apply (Rmult_le_reg_r L); [exact HL |].
        unfold Rdiv. rewrite Rmult_assoc, Rinv_l by lra. lra. }
    rewrite ratioToFrequency_inside by assumption. fold L.
    replace (Math_log10 (frequency / 20) / L * L)
      with (Math_log10 (frequency / 20)) by (field; lra).
    rewrite Math_pow10_plus, !Math_pow10_log10 by lra. field.
Qed.

Lemma marker_at_click_position_witness :
  frequencyPercent 48000 (ratioToFrequency 48000 (1 / 3)) = 1 / 3.
Proof.
  destruct (marker_at_click_position 48000) as [H _]; [lra |].
  apply H. lra.
Defined.

(** X8: on a canvas of positive width, for a sample rate above 40 Hz, sample
    [i] of the response is drawn in column [i]: its frequency
    [frequencyArray[i]] is [ratioToFrequency(i / width)], and the drawing
    loop puts it at [x = i]; 0 dB is drawn at half the height, +20 dB at the
    top and -20 dB at the bottom. *)
Theorem curve_sample_in_its_column
    (sampleRate height : R) (width i : nat) (db : R) :
  40 < sampleRate -> (i < width)%nat ->
  let frequency := Response.frequencyAt (sampleRate / 2) width i in
  frequency = ratioToFrequency sampleRate (INR i / INR width)
  /\ fst (curvePoint sampleRate (INR width) height frequency db) = INR i
  /\ snd (curvePoint sampleRate (INR width) height frequency 0) = height / 2
  /\ snd (curvePoint sampleRate (INR width) height frequency 20) = 0
  /\ snd (curvePoint sampleRate (INR width) height frequency (-20)) = height.
Proof.
  intros Hs Hi frequency.
  assert (Hn : 20 < sampleRate / 2) by lra.
  pose proof (Math_log10_width _ Hn) as HL.
  assert (Hw : 0 < INR width) by (apply lt_0_INR; lia).
  assert (Hiw : 0 <= INR i / INR width <= 1).
  { split.
    - apply Rmult_le_pos; [apply pos_INR | left; apply Rinv_0_lt_compat, Hw].
    - apply (Rmult_le_reg_r (INR width)); [exact Hw |].
      unfold Rdiv. rewrite Rmult_assoc, Rinv_l by lra.
      rewrite Rmult_1_r, Rmult_1_l. apply le_INR. lia. }
  destruct (axis_power (sampleRate / 2) (INR i / INR width) Hn Hiw)
    as [Hb He]. cbv zeta in Hb, He.
  assert (Ef : frequency
               = Math_pow 10 (INR i / INR width
                              * Math_log10 (sampleRate / 2 / 20)
                              + Math_log10 20)).
  { unfold frequency, Response.frequencyAt. cbv zeta.
    replace (INR i * (Math_log10 (sampleRate / 2 / 20) / INR width))
      with (INR i / INR width * Math_log10 (sampleRate / 2 / 20))
      by (field; lra).
    apply Rmin_left. lra. }
  split; [| split; [| split; [| split]]].
  - rewrite ratioToFrequency_inside by assumption. exact Ef.
  - unfold curvePoint. cbv zeta. simpl fst. rewrite Ef, He. field. lra.
  - unfold curvePoint. simpl. field.
  - unfold curvePoint. simpl. field.
  - unfold curvePoint. simpl. field.
Qed.

Lemma curve_sample_in_its_column_witness :
  fst (curvePoint 44100 (INR 800) 300
         (Response.frequencyAt (44100 / 2) 800 200) (-3)) = INR 200.
Proof.
  destruct (curve_sample_in_its_column 44100 300 800 200 (-3))
    as [_ [H _]]; [lra | lia |].
  exact H.
Defined.

(** *** The ends of the frequency axis *)

Lemma ratioToFrequency_0 sampleRate :
  40 < sampleRate -> ratioToFrequency sampleRate 0 = 20.
Proof.
  intros Hs. rewrite ratioToFrequency_inside by lra.
  rewrite Rmult_0_l, Rplus_0_l. apply Math_pow10_log10. lra.
Qed.

Lemma ratioToFrequency_1 sampleRate :
  40 < sampleRate -> ratioToFrequency sampleRate 1 = sampleRate / 2.
Proof.
  intros Hs. rewrite ratioToFrequency_inside by lra.
  rewrite Rmult_1_l, Math_pow10_plus.
  rewrite !Math_pow10_log10 by lra. field.
Qed.

Lemma frequencyPercent_ratioToFrequency sampleRate ratio :
  40 < sampleRate -> 0 <= ratio <= 1 ->
  frequencyPercent sampleRate (ratioToFrequency sampleRate ratio) = ratio.
Proof.
  intros Hs Hr.
  assert (Hn : 20 < sampleRate / 2) by lra.
  pose proof (Math_log10_width _ Hn) as HL.
  rewrite ratioToFrequency_inside by lra.
  destruct (axis_power (sampleRate / 2) ratio Hn Hr) as [_ He].
  unfold frequencyPercent. cbv zeta in *. rewrite He. field. lra.
Qed.

(** *** Dragging a node marker *)

(** [mouseMove] of a node marker: the height of the pointer in percent of
    the equalizer, [Utils.clamp(y / clientHeight * 100, 0, 100)]. *)
Definition newYPercent (y clientHeight : R) : R :=
  clamp (y / clientHeight * 100) 0 100.

(** The gain assigned to the filter and to the node of the profile:
    [Utils.clamp(-newYPercent + 50, -50, 50) / 100 * 40]. *)
Definition newDB (newYPercent : R) : R :=
  clamp (- newYPercent + 50) (-50) 50 / 100 * 40.

(** The height in percent that [updateEqualizerNodeMarkers] gives the marker
    of a node whose type uses the gain:
    [(-gainDb + 0.5) * 100] with [gainDb = Utils.clamp(gain, -20, 20) / 40]. *)
Definition markerTop (gain : R) : R :=
  let gainDb := clamp gain (-20) 20 / 40 in
  (- gainDb + 0.5) * 100.

(** What the handlers of the marker of node [i] read and assign: the flag
    [isDragging], the style of the marker [el], the live filter [node] and
    the node of the active profile, [this.currentProfile.equalizerNodes[i]]. *)
Record nodeMarker : Type := mkNodeMarker {
  isDragging : bool;
  style_left : R;
  style_top : R;
  node_type : string;
  node_frequency : R;
  node_gain : R;
  profile_frequency : R;
  profile_gain : R
}.

(** [mouseMove] of a node marker, for the pointer at [(x, y)] from the left
    upper corner of an equalizer of [clientWidth] by [clientHeight]. The
    frequency is always assigned; the gain is assigned, and the marker
    follows the height of the pointer, only when the type of the live filter
    uses the gain. For the other types the marker is put at 50 percent. *)
Definition mouseMove (sampleRate x y clientWidth clientHeight : R)
    (s : nodeMarker) : nodeMarker :=
  if isDragging s then
    let newXPercent := clamp (x / clientWidth * 100) 0 100 in
    let newYPercent := newYPercent y clientHeight in
    let frequency := ratioToFrequency sampleRate (newXPercent / 100) in
    let newDB := newDB newYPercent in
    if bool_decide (node_type s ∈ Store.typesThatUseGain) then
      {| isDragging := true;
         style_left := newXPercent; style_top := newYPercent;
         node_type := node_type s;
         node_frequency := frequency; node_gain := newDB;
         profile_frequency := frequency; profile_gain := newDB |}
    else
      {| isDragging := true;
         style_left := newXPercent; style_top := 50;
         node_type := node_type s;
         node_frequency := frequency; node_gain := node_gain s;
         profile_frequency := frequency; profile_gain := profile_gain s |}
  else s.

Lemma markerTop_middle gain : markerTop gain = 50 <-> gain = 0.
Proof.
  unfold markerTop, clamp, Rmin, Rmax. cbv zeta.
  repeat destruct Rle_dec; split; intros H; lra.
Qed.

(** X24: [mouseMove] of a node marker, for a sample rate above 40 Hz and an
    equalizer of positive width and height. Outside a drag nothing changes.
    In a drag the pointer height is kept between 0 and 100 percent, and is
    the pointer's own height while the pointer is over the equalizer; the
    gain computed from it is [20 - 0.4 * percent], so between -20 and 20 dB.
    The type of the filter is kept; the marker moves to the pointer's
    horizontal position, the filter and the node of the profile get the
    frequency of that position, and the markers drawn again put the marker
    at the same place. When the type of the live filter uses the gain
    (peaking, lowshelf, highshelf), the filter and the node of the profile
    get the computed gain, the marker is at the pointer's height, the markers
    drawn again put it at the same height, and the response curve draws that
    gain at the same height of its canvas. For every other type no gain is
    assigned and the marker is put at 50 percent; the markers drawn again put
    it there exactly when the gain of the filter, or of the node of the
    profile from which [refreshEQNodes] makes the filter anew, is 0. A marker is always
    drawn between 0 and 100 percent, whatever gain the filter holds. *)
Theorem node_drag_gain (sampleRate x y clientWidth clientHeight : R)
    (s : nodeMarker) :
  40 < sampleRate -> 0 < clientWidth -> 0 < clientHeight ->
  let percent := newYPercent y clientHeight in
  let s' := mouseMove sampleRate x y clientWidth clientHeight s in
  (isDragging s = false -> s' = s)
  /\ (0 <= percent <= 100
      /\ (0 <= y <= clientHeight -> percent = y / clientHeight * 100)
      /\ newDB percent = 20 - 0.4 * percent
      /\ -20 <= newDB percent <= 20)
  /\ (isDragging s = true ->
      (isDragging s' = true /\ node_type s' = node_type s)
      /\ (0 <= style_left s' <= 100
          /\ (0 <= x <= clientWidth -> style_left s' = x / clientWidth * 100)
          /\ node_frequency s'
             = ratioToFrequency sampleRate (style_left s' / 100)
          /\ profile_frequency s' = node_frequency s'
          /\ frequencyPercent sampleRate (node_frequency s') * 100
             = style_left s')
      /\ (node_type s ∈ Store.typesThatUseGain ->
          style_top s' = percent
          /\ node_gain s' = newDB percent
          /\ profile_gain s' = newDB percent
          /\ markerTop (node_gain s') = style_top s'
          /\ markerTop (profile_gain s') = style_top s'
          /\ (forall sampleRate0 width height frequency,
                snd (curvePoint sampleRate0 width height frequency
                       (node_gain s'))
                = style_top s' / 100 * height))
      /\ (node_type s ∉ Store.typesThatUseGain ->
          style_top s' = 50
          /\ node_gain s' = node_gain s
          /\ profile_gain s' = profile_gain s
          /\ (markerTop (node_gain s') = style_top s' <-> node_gain s = 0)
          /\ (markerTop (profile_gain s') = style_top s'
              <-> profile_gain s = 0)))
  /\ (forall gain, 0 <= markerTop gain <= 100).
Proof.
  intros Hs Hw Hh percent s'.
  assert (Hp : 0 <= percent <= 100) by (apply clamp_bounds; lra).
  assert (Hdb : newDB percent = 20 - 0.4 * percent).
  { unfold newDB. rewrite clamp_id by lra. lra. }
  assert (Hinside : forall v extent, 0 < extent -> 0 <= v <= extent ->
            clamp (v / extent * 100) 0 100 = v / extent * 100).
  { intros v extent He Hv. apply clamp_id.
    - apply Rmult_le_pos; [| lra].
      apply Rmult_le_pos; [lra | left; apply Rinv_0_lt_compat, He].
    - assert (v / extent <= 1); [| lra].
      apply (Rmult_le_reg_r extent); [exact He |].
      unfold Rdiv. rewrite Rmult_assoc, Rinv_l by lra. lra. }
  assert (Hx : 0 <= clamp (x / clientWidth * 100) 0 100 <= 100)
    by (apply clamp_bounds; lra).
  assert (Hback :
    frequencyPercent sampleRate
      (ratioToFrequency sampleRate (clamp (x / clientWidth * 100) 0 100 / 100))
    * 100 = clamp (x / clientWidth * 100) 0 100).
  { rewrite frequencyPercent_ratioToFrequency by lra. field. }
  split; [| split; [| split]].
  - intros Hd. unfold s', mouseMove. rewrite Hd. reflexivity.
  - split; [exact Hp |]. split; [| split; [exact Hdb | rewrite Hdb; lra]].
    intros Hy. apply Hinside; assumption.
  - intros Hd. unfold s', mouseMove. rewrite Hd. cbv zeta. fold percent.
    destruct (bool_decide (node_type s ∈ Store.typesThatUseGain)) eqn:Ht.
    + apply bool_decide_eq_true_1 in Ht. simpl.
      split; [split; reflexivity |].
      split; [split; [exact Hx |]; split; [apply Hinside, Hw |];
              split; [reflexivity |]; split; [reflexivity | exact Hback] |].
      split.
      * assert (Htop : markerTop (newDB percent) = percent).
        { unfold markerTop. cbv zeta.
          rewrite clamp_id by (rewrite Hdb; lra). rewrite Hdb. lra. }
        intros _. split; [reflexivity |]. split; [reflexivity |].
        split; [reflexivity |]. split; [exact Htop |].
        split; [exact Htop |].
        intros sampleRate0 width height frequency. unfold curvePoint.
        simpl. rewrite Hdb. lra.
      * intros Hn. contradiction.
    + apply bool_decide_eq_false_1 in Ht. simpl.
      split; [split; reflexivity |].
      split; [split; [exact Hx |]; split; [apply Hinside, Hw |];
              split; [reflexivity |]; split; [reflexivity | exact Hback] |].
      split.
      * intros Hn. contradiction.
      * intros _. split; [reflexivity |]. split; [reflexivity |].
        split; [reflexivity |]. split; apply markerTop_middle.
  - intros gain. unfold markerTop. cbv zeta.
    pose proof (clamp_bounds gain (-20) 20) as Hc. lra.
Qed.

Lemma node_drag_gain_witness :
  node_gain
    (mouseMove 48000 400 75 800 300
       (mkNodeMarker true 10 50 "peaking" 100 0 100 0))
  = newDB (newYPercent 75 300)
  /\ style_top
       (mouseMove 48000 400 75 800 300
          (mkNodeMarker true 10 50 "lowpass" 100 3 100 3)) = 50.
Proof.
  split.
  - destruct (node_drag_gain 48000 400 75 800 300
                (mkNodeMarker true 10 50 "peaking" 100 0 100 0))
      as [_ [_ [H _]]]; [lra | lra | lra |].
    destruct (H eq_refl) as [_ [_ [Hgain _]]].
    destruct Hgain as [_ [Hg _]];
      [apply (bool_decide_unpack _); reflexivity | exact Hg].
  - vm_compute. reflexivity.
Defined.

(** *** The zero line *)

(** The marker on the zero line: its [style.left] in percent and the two
    classes that [moveZeroLineNode] adds and removes. *)
Record zeroLine : Type := mkZeroLine {
  left : R;
  highpass : bool;
  lowpass : bool
}.

(** [moveZeroLineNode(e)] for the pointer at [pos] from the left edge of an
    equalizer of width [clientWidth]. At the left edge the class [highpass]
    is added, at the right edge the class [lowpass], and both are removed
    anywhere else. *)
Definition moveZeroLineNode (pos clientWidth : R) (s : zeroLine) : zeroLine :=
  let x := clamp (pos / clientWidth * 100) 0 100 in
  let x := if Rlt_dec x 1 then 0 else if Rgt_dec x 99 then 100 else x in
  if Req_dec_T x 0 then
    {| left := x; highpass := true; lowpass := lowpass s |}
  else if Req_dec_T x 100 then
    {| left := x; highpass := highpass s; lowpass := true |}
  else
    {| left := x; highpass := false; lowpass := false |}.

(** The click on the zero line, once the analysers exist: the type and the
    frequency of the node [new AudioEQNode(type, frequency, 0, 1)] that is
    added. *)
Definition zeroLineClick (sampleRate : R) (s : zeroLine) : string * R :=
  let type :=
    if highpass s then "highpass"%string
    else if lowpass s then "lowpass"%string
    else "peaking"%string in
  (type, ratioToFrequency sampleRate (left s / 100)).

(** X28: the node that a click on the zero line adds, for a sample rate
    above 40 Hz and an equalizer of positive width, with the pointer at [x]
    percent of the width (forced between 0 and 100). From 1 to 99 percent the
    node is a peaking filter, and its marker is drawn where the pointer was:
    at [x] percent, on the zero line. Below 1 percent the marker snaps to
    the left edge and the node is a highpass at 20 Hz. Above 99 percent the
    marker snaps to the right edge and the node is at the Nyquist frequency:
    a lowpass, or a highpass when the class [highpass] is still set from a
    visit of the left edge that no position between the edges has followed. *)
Theorem zeroLine_click (sampleRate pos clientWidth : R) (s : zeroLine) :
  40 < sampleRate -> 0 < clientWidth ->
  let x := clamp (pos / clientWidth * 100) 0 100 in
  let s' := moveZeroLineNode pos clientWidth s in
  (0 <= pos <= clientWidth -> x = pos / clientWidth * 100)
  /\ (1 <= x <= 99 ->
      zeroLineClick sampleRate s'
      = ("peaking"%string, ratioToFrequency sampleRate (x / 100))
      /\ frequencyPercent sampleRate (snd (zeroLineClick sampleRate s')) * 100
         = x
      /\ markerTop 0 = 50)
  /\ (x < 1 ->
      left s' = 0
      /\ zeroLineClick sampleRate s' = ("highpass"%string, 20))
  /\ (99 < x ->
      left s' = 100
      /\ zeroLineClick sampleRate s'
         = (if highpass s then "highpass"%string else "lowpass"%string,
            sampleRate / 2)).
Proof.
  intros Hs Hw x s'.
  assert (Hx : 0 <= x <= 100) by (apply clamp_bounds; lra).
  split; [| split; [| split]].
  - intros Hpos. unfold x. apply clamp_id.
    + apply Rmult_le_pos; [| lra].
      apply Rmult_le_pos; [lra | left; apply Rinv_0_lt_compat, Hw].
    + assert (pos / clientWidth <= 1); [| lra].
      apply (Rmult_le_reg_r clientWidth); [exact Hw |].
      unfold Rdiv. rewrite Rmult_assoc, Rinv_l by lra. lra.
  - intros Hmid.
    assert (Es : s' = {| left := x; highpass := false; lowpass := false |}).
    { unfold s', moveZeroLineNode. cbv zeta. fold x.
      destruct (Rlt_dec x 1) as [H | _]; [lra |].
      destruct (Rgt_dec x 99) as [H | _]; [lra |].
      destruct (Req_dec_T x 0) as [H | _]; [lra |].
      destruct (Req_dec_T x 100) as [H | _]; [lra |].
      reflexivity. }
    rewrite Es. unfold zeroLineClick. simpl.
    split; [reflexivity |]. split.
    + rewrite frequencyPercent_ratioToFrequency by lra. field.
    + unfold markerTop. cbv zeta. rewrite clamp_id by lra. lra.
  - intros Hlow.
    assert (Es : s' = {| left := 0; highpass := true; lowpass := lowpass s |}).
    { unfold s', moveZeroLineNode. cbv zeta. fold x.
      destruct (Rlt_dec x 1) as [_ | H]; [| lra].
      destruct (Req_dec_T 0 0) as [_ | H]; [reflexivity | lra]. }
    rewrite Es. unfold zeroLineClick. simpl.
    split; [reflexivity |].
    replace (0 / 100) with 0 by field.
    rewrite ratioToFrequency_0 by exact Hs. reflexivity.
  - intros Hhigh.
    assert (Es : s' = {| left := 100; highpass := highpass s;
                         lowpass := true |}).
    { unfold s', moveZeroLineNode. cbv zeta. fold x.
      destruct (Rlt_dec x 1) as [H | _]; [lra |].
      destruct (Rgt_dec x 99) as [_ | H]; [| lra].
      destruct (Req_dec_T 100 0) as [H | _]; [lra |].
      destruct (Req_dec_T 100 100) as [_ | H]; [reflexivity | lra]. }
    rewrite Es. unfold zeroLineClick. simpl.
    split; [reflexivity |].
    replace (100 / 100) with 1 by field.
    rewrite ratioToFrequency_1 by exact Hs.
    destruct (highpass s); reflexivity.
Qed.

Lemma zeroLine_click_witness :
  zeroLineClick 48000
    (moveZeroLineNode 799 800 {| left := 0; highpass := false;
                                 lowpass := false |})
  = ("lowpass"%string, 48000 / 2).
Proof.
  destruct (zeroLine_click 48000 799 800
              {| left := 0; highpass := false; lowpass := false |})
    as [Hin [_ [_ Hright]]]; [lra | lra |].
  cbv zeta in Hin, Hright.
  assert (Hx : clamp (799 / 800 * 100) 0 100 = 799 / 800 * 100)
    by (apply Hin; lra).
  destruct Hright as [_ Hclick]; [rewrite Hx; lra |].
  exact Hclick.
Defined.

End Axis.

(** ** The mixer at its edges: ids without a gain node, mute against solo *)

Module MixerEdge.
Local Open Scope Q_scope.
Import Mixer.


Lemma arrayIndex_None len id :
  arrayIndex len id = None <-> ~ (0 <= id < Z.of_nat len)%Z.
Proof.
  unfold arrayIndex.
  destruct (0 <=? id)%Z eqn:E1; destruct (id <? Z.of_nat len)%Z eqn:E2; simpl;
    split; try discriminate; try reflexivity; try lia.
Qed.

Lemma arrayIndex_in_range len id :
  (0 <= id < Z.of_nat len)%Z -> arrayIndex len id = Some (Z.to_nat id).
Proof. intros H. apply arrayIndex_Some. split; [exact H | reflexivity]. Qed.







(** *** Refreshing, then pushing *)






(** *** A solo click that throws *)

Lemma clearSolo_prefix nElements before rest :
  (forall c, c ∈ before ->
     (0 <= channelId c < Z.of_nat nElements)%Z) ->
  clearSolo nElements (before ++ rest)
  = match clearSolo nElements rest with
    | Returned rest' => Returned (map (setSolo false) before ++ rest')
    | Thrown e rest' => Thrown e (map (setSolo false) before ++ rest')
    end.
Proof.
  induction before as [| c before IH]; intros Hrange; simpl.
  - destruct (clearSolo nElements rest); reflexivity.
  - rewrite arrayIndex_in_range by (apply Hrange; left).
    rewrite IH by (intros c' Hin; apply Hrange; right; exact Hin).
    destruct (clearSolo nElements rest); reflexivity.
Qed.

(** X12: a click that would enable solo throws a TypeError when some
    channel's id has no mixer element; the flags of the channels up to and
    including the first such channel have been cleared, the later channels
    are as they were, and the clicked channel is not soloed. *)
Theorem soloClick_throws_at_bad_id
    (nElements : nat) (before after : list AudioChannelControl)
    (bad clicked : AudioChannelControl) (k : nat) :
  (forall c, c ∈ before ->
     (0 <= channelId c < Z.of_nat nElements)%Z) ->
  ~ (0 <= channelId bad < Z.of_nat nElements)%Z ->
  let channels := before ++ bad :: after in
  channels !! k = Some clicked -> solo clicked = false ->
  let left := map (setSolo false) before ++ setSolo false bad :: after in
  soloClick nElements channels k = Thrown TypeError left
  /\ (solo <$> left !! k) = Some false
  /\ (forall i c, (i <= length before)%nat -> left !! i = Some c ->
        solo c = false).
Proof.
  intros Hrange Hbad channels Hk Hs left.
  assert (Hclear : clearSolo nElements channels = Thrown TypeError left).
  { unfold channels. rewrite clearSolo_prefix by exact Hrange. simpl.
    apply arrayIndex_None in Hbad. rewrite Hbad. reflexivity. }
  assert (Hcleared : forall i c, (i <= length before)%nat ->
            left !! i = Some c -> solo c = false).
  { intros i c Hi Hc. unfold left in Hc.
    apply lookup_app_Some in Hc as [Hc | [Hge Hc]].
    - rewrite list_lookup_fmap in Hc.
      destruct (before !! i); [| discriminate Hc].
      simpl in Hc. injection Hc as <-. reflexivity.
    - rewrite length_map in Hge, Hc.
      replace (i - length before)%nat with 0%nat in Hc by lia.
      simpl in Hc. injection Hc as <-. reflexivity. }
  split; [| split; [| exact Hcleared]].
  - unfold soloClick. rewrite Hk, Hs, Hclear. reflexivity.
  - destruct (le_lt_dec k (length before)) as [Hle | Hgt].
    + destruct (lookup_lt_is_Some_2 left k) as [c Hc].
      { unfold left. rewrite length_app, length_map. simpl. lia. }
      rewrite Hc. simpl. f_equal. apply (Hcleared k c Hle Hc).
    + assert (Hsame : left !! k = channels !! k).
      { unfold left, channels.
        rewrite !lookup_app_r by (rewrite ?length_map; lia).
        rewrite length_map.
        destruct (k - length before)%nat as [| j] eqn:Ej; [lia |].
        reflexivity. }
      rewrite Hsame, Hk. simpl. f_equal. exact Hs.
Qed.

Lemma soloClick_throws_at_bad_id_witness :
  soloClick 7
    [mkChannel 0 1 false true; mkChannel 9 1 false true;
     mkChannel 2 1 false false] 2
  = Thrown TypeError
      [mkChannel 0 1 false false; mkChannel 9 1 false false;
       mkChannel 2 1 false false].
Proof.
  destruct (soloClick_throws_at_bad_id 7 [mkChannel 0 1 false true]
              [mkChannel 2 1 false false] (mkChannel 9 1 false true)
              (mkChannel 2 1 false false) 2) as [Hrun _].
  - intros c Hc. apply list_elem_of_singleton in Hc as ->. simpl. lia.
  - simpl. lia.
  - reflexivity.
  - reflexivity.
  - exact Hrun.
Defined.

(** *** The gain slider against mute and solo *)

(** [setChannelGain(channel, gain)] for the channel at position [k] of the
    profile that the handlers of [createMixerChannel] captured: the channels
    and the values of the host gain nodes afterwards. The gain node is
    written under the guard
    [this.channelGains && this.channelGains[channel.id]]. *)
Definition setChannelGain (channelGains : option (list Q))
    (channels : list AudioChannelControl) (k : nat) (gain0 : Q)
  : list AudioChannelControl * option (list Q) :=
  match channels !! k with
  | None => (channels, channelGains)
  | Some channel =>
      let channels' :=
        <[k := mkChannel (channelId channel) gain0 (muted channel)
                 (solo channel)]> channels in
      match channelGains with
      | Some gains =>
          match arrayIndex (length gains) (channelId channel) with
          | Some j => (channels', Some (<[j := gain0]> gains))
          | None => (channels', channelGains)
          end
      | None => (channels', None)
      end
  end.





End MixerEdge.

(** ** The level of a meter and what a tick draws *)

Module MeterLevel.
Import Meter.
Local Open Scope Z_scope.

(** The byte data of an analyser: every entry from 0 to 255. *)
Definition byteData (dataArray : list Z) : Prop :=
  Forall (fun b => 0 <= b <= 255) dataArray.

Lemma fold_add_bounds dataArray : forall acc,
  byteData dataArray ->
  acc <= fold_left Z.add dataArray acc
  /\ fold_left Z.add dataArray acc
     <= acc + 255 * Z.of_nat (length dataArray).
Proof.
  induction dataArray as [| b rest IH]; intros acc Hb; simpl.
  - lia.
  - apply Forall_cons in Hb as [Hb Hrest].
    destruct (IH (acc + b) Hrest) as [H1 H2]. lia.
Qed.

(** The unit roundoff of double precision, [2^-53], and the least and the
    greatest power of two among the normal doubles. *)
Definition unitRoundoff : Q := 1 # 9007199254740992.
Definition minNormal : Q := 1 # (2 ^ 1022).
Definition maxPower : Q := inject_Z (2 ^ 1023).

(** What the host's rounding to the nearest double does on the numbers met
    here: it is monotone, it keeps the integers up to [2^53], and its
    relative error on the normal range is at most the unit roundoff. *)
Record rounding (fl : Q -> Q) : Prop := mkRounding {
  fl_mono : forall x y, (x <= y)%Q -> (fl x <= fl y)%Q;
  fl_integer : forall z, Z.abs z <= 2 ^ 53 -> (fl (inject_Z z) == inject_Z z)%Q;
  fl_error : forall x, (minNormal <= x <= maxPower)%Q ->
               (x * (1 - unitRoundoff) <= fl x <= x * (1 + unitRoundoff))%Q
}.

Lemma minNormal_le : (minNormal <= 1 # (2 ^ 200))%Q.
Proof. unfold Qle. apply Z.leb_le. vm_compute. reflexivity. Qed.

Lemma maxPower_ge : (inject_Z (2 ^ 200) <= maxPower)%Q.
Proof. unfold Qle. apply Z.leb_le. vm_compute. reflexivity. Qed.

Lemma fl_proper fl x y : rounding fl -> (x == y)%Q -> (fl x == fl y)%Q.
Proof.
  intros Hfl Hxy. apply Qle_antisym; apply (fl_mono fl Hfl);
    rewrite Hxy; apply Qle_refl.
Qed.

Lemma fl_0 fl : rounding fl -> (fl 0 == 0)%Q.
Proof. intros Hfl. apply (fl_integer fl Hfl 0). vm_compute. discriminate. Qed.

(** Rounding a number between [2^-200] and [2^200]. *)
Lemma fl_near fl x :
  rounding fl -> (1 # (2 ^ 200) <= x <= inject_Z (2 ^ 200))%Q ->
  (x * (1 - unitRoundoff) <= fl x <= x * (1 + unitRoundoff))%Q.
Proof.
  intros Hfl [H1 H2]. apply (fl_error fl Hfl). split.
  - eapply Qle_trans; [apply minNormal_le | exact H1].
  - eapply Qle_trans; [exact H2 | apply maxPower_ge].
Qed.

Lemma getVolume_bounds fl dataArray :
  rounding fl -> byteData dataArray -> dataArray <> [] ->
  Z.of_nat (length dataArray) <= 16384 ->
  (0 <= getVolume fl dataArray <= 1)%Q
  /\ (fold_left Z.add dataArray 0 = 0 -> (getVolume fl dataArray == 0)%Q)
  /\ (fold_left Z.add dataArray 0 <> 0 ->
      (1 # 1073741824 <= getVolume fl dataArray)%Q).
Proof.
  intros Hfl Hb Hne Hlen. unfold getVolume.
  destruct (fold_add_bounds dataArray 0 Hb) as [H1 H2].
  set (s := fold_left Z.add dataArray 0) in *.
  set (n := Z.of_nat (length dataArray)) in *.
  assert (Hn : 0 < n <= 16384).
  { unfold n. destruct dataArray; [contradiction | simpl in *; lia]. }
  assert (HnQ : (0 < inject_Z n)%Q).
  { change (inject_Z 0 < inject_Z n)%Q. rewrite <- Zlt_Qlt. lia. }
  assert (HnQ' : (inject_Z n <= 16384)%Q).
  { change (inject_Z n <= inject_Z 16384)%Q. rewrite <- Zle_Qle. lia. }
  assert (Hs0 : (0 <= inject_Z s)%Q).
  { change (inject_Z 0 <= inject_Z s)%Q. rewrite <- Zle_Qle. lia. }
  assert (Hq : (0 <= inject_Z s / inject_Z n <= 255)%Q).
  { split.
    - apply Qle_shift_div_l; [exact HnQ |]. rewrite Qmult_0_l. exact Hs0.
    - apply Qle_shift_div_r; [exact HnQ |].
      change 255%Q with (inject_Z 255).
      rewrite <- inject_Z_mult, <- Zle_Qle. lia. }
  set (q := (inject_Z s / inject_Z n)%Q) in *.
  assert (E255 : (fl 255 == 255)%Q).
  { apply (fl_integer fl Hfl 255). vm_compute. discriminate. }
  assert (E1 : (fl 1 == 1)%Q).
  { apply (fl_integer fl Hfl 1). vm_compute. discriminate. }
  pose proof (fl_0 fl Hfl) as E0.
  assert (Hv1 : (0 <= fl q <= 255)%Q).
  { split.
    - rewrite <- E0. apply (fl_mono fl Hfl), Hq.
    - rewrite <- E255. apply (fl_mono fl Hfl), Hq. }
  assert (Hd : (0 <= fl q / 255 <= 1)%Q).
  { split.
    - apply Qle_shift_div_l; [reflexivity |]. rewrite Qmult_0_l. apply Hv1.
    - apply Qle_shift_div_r; [reflexivity |]. rewrite Qmult_1_l. apply Hv1. }
  split; [| split].
  - split.
    + rewrite <- E0. apply (fl_mono fl Hfl), Hd.
    + rewrite <- E1. apply (fl_mono fl Hfl), Hd.
  - intros Hz.
    assert (Eq : (q == 0)%Q).
    { unfold q. rewrite Hz. unfold Qdiv. apply Qmult_0_l. }
    assert (Ef : (fl q == 0)%Q).
    { eapply Qeq_trans; [apply (fl_proper fl _ _ Hfl Eq) | exact E0]. }
    eapply Qeq_trans; [apply (fl_proper fl _ 0%Q Hfl) | exact E0].
    rewrite Ef. reflexivity.
  - intros Hnz.
    assert (Hs1 : (1 <= inject_Z s)%Q).
    { change (inject_Z 1 <= inject_Z s)%Q. rewrite <- Zle_Qle. lia. }
    assert (Hqlo : (1 # 16384 <= q)%Q).
    { unfold q. apply Qle_shift_div_l; [exact HnQ |]. Lqa.lra. }
    assert (Hflq : (q * (1 - unitRoundoff) <= fl q)%Q).
    { apply (fl_near fl q Hfl). split.
      - eapply Qle_trans; [| exact Hqlo]. unfold Qle. apply Z.leb_le.
        vm_compute. reflexivity.
      - eapply Qle_trans; [apply Hq |]. unfold Qle. apply Z.leb_le.
        vm_compute. reflexivity. }
    unfold unitRoundoff in *.
    assert (Hflq' : (1 # 32768 <= fl q)%Q) by (clear - Hflq Hqlo; Lqa.lra).
    assert (Hdlo : (1 # 536870912 <= fl q / 255)%Q).
    { apply Qle_shift_div_l; [reflexivity |].
      eapply Qle_trans; [| exact Hflq']. unfold Qle. apply Z.leb_le.
      vm_compute. reflexivity. }
    assert (Hfld : (fl q / 255 * (1 - unitRoundoff) <= fl (fl q / 255))%Q).
    { apply (fl_near fl _ Hfl). split.
      - eapply Qle_trans; [| exact Hdlo]. unfold Qle. apply Z.leb_le.
        vm_compute. reflexivity.
      - eapply Qle_trans; [apply Hd |]. unfold Qle. apply Z.leb_le.
        vm_compute. reflexivity. }
    set (d := (fl q / 255)%Q) in *.
    unfold unitRoundoff in Hfld.
    clear - Hfld Hdlo. Lqa.lra.
Qed.

Ltac qconst := unfold Qle; apply Z.leb_le; vm_compute; reflexivity.

(** The bytes are all 0 exactly when their sum is. *)
Lemma sum_zero dataArray :
  byteData dataArray ->
  fold_left Z.add dataArray 0 = 0 <-> Forall (fun b => b = 0) dataArray.
Proof.
  intros Hb. split.
  - induction dataArray as [| b rest IH]; intros Hs; [constructor |].
    apply Forall_cons in Hb as [Hb Hrest]. simpl in Hs.
    destruct (fold_add_bounds rest (0 + b) Hrest) as [H1 _].
    assert (b = 0) by lia. subst b. constructor; [reflexivity |].
    apply (IH Hrest). exact Hs.
  - induction 1 as [| b rest -> _ IH]; [reflexivity |]. simpl.
    apply Forall_cons in Hb as [_ Hrest]. apply (IH Hrest).
Qed.

(** X13: the level of a meter, in double arithmetic. For the byte data of
    an analyser (at most 16384 entries, as [frequencyBinCount] is, and not
    empty) and a canvas height between 0.001 and 10^9, the volume
    [getVolume] returns lies between 0 and 1, and the number of rectangles
    drawn lies between 0 and 51: the rounding of the three operations
    before [Math.ceil] can lift it above 50 by one and no further. No
    rectangle is drawn exactly when every byte is 0. *)
Theorem meter_level_bounds (fl : Q -> Q) (dataArray : list Z) (height : Q) :
  rounding fl -> byteData dataArray -> dataArray <> [] ->
  Z.of_nat (length dataArray) <= 16384 ->
  (1 # 1000 <= height <= 1000000000)%Q ->
  (0 <= getVolume fl dataArray <= 1)%Q
  /\ 0 <= rectCountOf fl (getVolume fl dataArray) height <= 51
  /\ (rectCountOf fl (getVolume fl dataArray) height = 0
      <-> Forall (fun b => b = 0) dataArray).
Proof.
  intros Hfl Hb Hne Hlen [Hh1 Hh2].
  destruct (getVolume_bounds fl dataArray Hfl Hb Hne Hlen)
    as [Hv [Hzero Hpos]].
  pose proof (fl_0 fl Hfl) as E0.
  pose proof (fl_near fl) as Hnear.
  unfold unitRoundoff in Hnear.
  split; [exact Hv |].
  unfold rectCountOf. cbv zeta.
  set (v := getVolume fl dataArray) in *.
  destruct (Z.eq_dec (fold_left Z.add dataArray 0) 0) as [Hs | Hs].
  - (* silence *)
    assert (Ev : (v == 0)%Q) by (apply Hzero, Hs).
    assert (EA : (fl (v * height) == 0)%Q).
    { eapply Qeq_trans; [apply (fl_proper fl _ 0%Q Hfl) | exact E0].
      rewrite Ev. apply Qmult_0_l. }
    assert (EC : (fl (fl (v * height) / fl (height / 50)) == 0)%Q).
    { eapply Qeq_trans; [apply (fl_proper fl _ 0%Q Hfl) | exact E0].
      rewrite EA. unfold Qdiv. apply Qmult_0_l. }
    rewrite (Qceiling_comp _ _ EC).
    change (Qceiling 0) with 0. split; [lia |].
    split; [intros _; apply sum_zero; assumption | reflexivity].
  - (* some signal *)
    assert (Hvlo : (1 # 1073741824 <= v)%Q).
    { apply Hpos, Hs. }
    set (x1 := (v * height)%Q).
    assert (Hx1 : (1 # 1073741824000 <= x1 <= height)%Q).
    { unfold x1. destruct Hv as [_ Hv1]. clear - Hvlo Hv1 Hh1. split; Lqa.nra. }
    assert (HA : (x1 * (1 - (1 # 9007199254740992)) <= fl x1
                  <= x1 * (1 + (1 # 9007199254740992)))%Q).
    { apply (Hnear x1 Hfl). split.
      - eapply Qle_trans; [| apply Hx1]. qconst.
      - eapply Qle_trans; [apply Hx1 |].
        eapply Qle_trans; [exact Hh2 |]. qconst. }
    set (A := fl x1) in *.
    set (w := (height / 50)%Q).
    assert (Hw : (height == 50 * w)%Q) by (unfold w; field).
    assert (HB : (w * (1 - (1 # 9007199254740992)) <= fl w
                  <= w * (1 + (1 # 9007199254740992)))%Q).
    { apply (Hnear w Hfl). split.
      - apply Qle_trans with (1 # 50000); [qconst |].
        clear - Hw Hh1. Lqa.lra.
      - apply Qle_trans with 1000000000%Q; [| qconst].
        clear - Hw Hh2 Hh1. Lqa.lra. }
    set (B := fl w) in *.
    assert (Hwpos : (1 # 50000 <= w)%Q) by (clear - Hw Hh1; Lqa.lra).
    assert (HBpos : (0 < B)%Q) by (clear - HB Hwpos; Lqa.lra).
    assert (HAlo : ((1 # 1073741824) * height * (1 - (1 # 9007199254740992)) <= A)%Q).
    { destruct HA as [HA _]. unfold x1 in HA.
      clear - HA Hvlo Hh1. Lqa.nra. }
    assert (HAhi : (A <= height * (1 + (1 # 9007199254740992)))%Q).
    { destruct HA as [_ HA]. destruct Hx1 as [_ Hx1].
      clear - HA Hx1. Lqa.lra. }
    assert (Hx3 : (1 # 1073741824 <= A / B <= 50 + (1 # 1000))%Q).
    { split.
      - apply Qle_shift_div_l; [exact HBpos |].
        clear - HAlo HB Hw Hh1. Lqa.lra.
      - apply Qle_shift_div_r; [exact HBpos |].
        clear - HAhi HB Hw Hh1. Lqa.lra. }
    assert (HC : (A / B * (1 - (1 # 9007199254740992)) <= fl (A / B)
                  <= A / B * (1 + (1 # 9007199254740992)))%Q).
    { apply (Hnear _ Hfl). split.
      - eapply Qle_trans; [| apply Hx3]. qconst.
      - eapply Qle_trans; [apply Hx3 |]. qconst. }
    set (C := fl (A / B)%Q) in *.
    assert (HCb : (0 < C <= 51)%Q).
    { clear - HC Hx3. split; Lqa.lra. }
    assert (Hceil : 1 <= Qceiling C <= 51).
    { split.
      - assert (Hc : (0 < inject_Z (Qceiling C))%Q).
        { eapply Qlt_le_trans; [apply HCb | apply Qle_ceiling]. }
        change (inject_Z 0 < inject_Z (Qceiling C))%Q in Hc.
        rewrite <- Zlt_Qlt in Hc. lia.
      - rewrite <- (Qceiling_Z 51). apply Qceiling_resp_le. apply HCb. }
    split; [lia |]. split; [lia |].
    intros Hz. exfalso. apply Hs. apply sum_zero; assumption.
Qed.

Lemma meter_level_bounds_witness :
  0 <= rectCountOf (fun x => x) (getVolume (fun x => x) [255; 0; 128; 17]) 120
    <= 51.
Proof.
  destruct (meter_level_bounds (fun x => x) [255; 0; 128; 17] 120)
    as [_ [H _]].
  - split.
    + intros x y H. exact H.
    + intros z _. reflexivity.
    + intros x [Hx _]. unfold unitRoundoff.
      assert (0 <= x)%Q by (eapply Qle_trans; [| exact Hx]; discriminate).
      split; Lqa.lra.
  - repeat constructor; lia.
  - discriminate.
  - simpl. lia.
  - split; [qconst | qconst].
  - exact H.
Defined.





End MeterLevel.

(** ** The profile store read as plain objects *)

Module StoreOps.
Import Store.
Local Open Scope string_scope.
Local Open Scope list_scope.

(** [this.profiles.map((profile) => profile.toObj())], the list that
    [saveProfilesToStorage] writes; [None] when a stored reference is no
    profile of the heap. *)
Definition storeObjs (m : manager) : option (list ProfileObj) :=
  mapM (fun l => toObj l (heapOf m)) (profiles m).


(** The loop of [getNextProfileID] on a list of ids. *)
Fixpoint scanIds (fuel : nat) (ids : list Z) (i : Z) : Z :=
  match fuel with
  | O => i
  | S fuel' =>
      if bool_decide (i ∈ ids) then scanIds fuel' ids (i + 1)%Z else i
  end.

Definition nextFreeId (ids : list Z) : Z := scanIds (S (length ids)) ids 1.



(** The heap [h'] reads every profile that [h] reads, with the same
    content. *)
Definition preserves (h h' : heap) : Prop :=
  forall p o, toObj p h = Some o -> toObj p h' = Some o.

(** A heap that grew from [h]: well formed, and an extension of [h] from its
    next reference on. *)
Definition grown (h h' : heap) : Prop :=
  wfHeap h' /\ extends (next h) h h'.

Lemma extends_next_le n0 h0 h : extends n0 h0 h -> (n0 <= next h)%nat.
Proof. intros [H _ _]. exact H. Qed.



Lemma grown_preserves h h' : wfHeap h -> grown h h' -> preserves h h'.
Proof.
  intros Hwf [_ Hext] p o Hp. apply (toObj_extends h); assumption.
Qed.

Lemma grown_fromObj obj h : wfHeap h -> grown h (snd (fromObj obj h)).
Proof.
  intros Hwf. split; [apply wfHeap_fromObj, Hwf |].
  apply extends_fromObj, extends_refl, Hwf.
Qed.

Lemma fromObj_fresh obj h : wfHeap h -> (next h <= fst (fromObj obj h))%nat.
Proof.
  intros Hwf. apply (extends_fromObj (next h) h h obj), extends_refl, Hwf.
Qed.


Lemma preserves_mapM h h' (ps : list nat) (os : list ProfileObj) :
  preserves h h' ->
  mapM (fun l => toObj l h) ps = Some os ->
  mapM (fun l => toObj l h') ps = Some os.
Proof.
  intros Hpres Hread. apply mapM_Some in Hread. apply mapM_Some.
  eapply Forall2_impl; [exact Hread |]. intros l o. apply Hpres.
Qed.

(** The profile record behind a profile that reads. *)
Lemma toObj_getProfile l h o :
  toObj l h = Some o ->
  exists p, getProfile h l = Some p /\ id p = obj_id o /\ label p = obj_label o.
Proof.
  intros Hread. unfold toObj in Hread.
  destruct (getProfile h l) as [p |]; [| discriminate Hread].
  simpl in Hread.
  destruct (getArray h (equalizerNodes p)); [| discriminate Hread].
  simpl in Hread.
  destruct (getArray h (mixerChannels p)); [| discriminate Hread].
  simpl in Hread.
  destruct (mapM (getNode h) _); [| discriminate Hread]. simpl in Hread.
  destruct (mapM (getChannel h) _); [| discriminate Hread]. simpl in Hread.
  injection Hread as <-. exists p. simpl. repeat split; reflexivity.
Qed.

Lemma hasId_objs h (ps : list nat) (os : list ProfileObj) i :
  mapM (fun l => toObj l h) ps = Some os ->
  hasId h ps i = bool_decide (i ∈ (obj_id <$> os)).
Proof.
  intros Hread. apply mapM_Some in Hread.
  induction Hread as [| l o ps os Hl _ IH]; [reflexivity |].
  destruct (toObj_getProfile l h o Hl) as [p [Hp [Hid _]]].
  unfold hasId in *. simpl. rewrite Hp, Hid, IH.
  destruct (Z.eqb_spec (obj_id o) i) as [<- | Hne]; simpl.
  - symmetry. apply bool_decide_eq_true_2. left.
  - apply bool_decide_ext. rewrite elem_of_cons. split; [tauto |].
    intros [-> | H]; [congruence | exact H].
Qed.


Lemma scanId_objs h (ps : list nat) (os : list ProfileObj) fuel : forall i,
  mapM (fun l => toObj l h) ps = Some os ->
  scanId fuel h ps i = scanIds fuel (obj_id <$> os) i.
Proof.
  induction fuel as [| fuel IH]; intros i Hread; simpl; [reflexivity |].
  rewrite (hasId_objs h ps os i Hread).
  destruct (bool_decide (i ∈ (obj_id <$> os))); [apply IH, Hread | reflexivity].
Qed.

Lemma getNextProfileID_objs m os :
  storeObjs m = Some os ->
  getNextProfileID m = nextFreeId (obj_id <$> os).
Proof.
  intros Hread. unfold getNextProfileID, nextFreeId.
  rewrite (scanId_objs _ _ os _ _ Hread).
  rewrite length_fmap. apply length_mapM in Hread. rewrite Hread. reflexivity.
Qed.

(** *** The free id *)



(** *** Plain objects in and out of the heap *)






(** Assigning [id] and [label] of a profile object changes these two fields
    of what it reads as, and nothing else. *)
Lemma toObj_set_id_label l h o p id' label' :
  toObj l h = Some o -> getProfile h l = Some p ->
  toObj l (store l (ProfileObject
                      {| id := id'; label := label';
                         equalizerNodes := equalizerNodes p;
                         mixerChannels := mixerChannels p |}) h)
  = Some {| obj_id := id'; obj_label := label';
            obj_equalizerNodes := obj_equalizerNodes o;
            obj_mixerChannels := obj_mixerChannels o |}.
Proof.
  intros Hread Hp. unfold toObj in Hread. rewrite Hp in Hread.
  simpl in Hread.
  destruct (getArray h (equalizerNodes p)) as [ns |] eqn:En;
    [| discriminate Hread].
  simpl in Hread.
  destruct (getArray h (mixerChannels p)) as [cs |] eqn:Ec;
    [| discriminate Hread].
  simpl in Hread.
  destruct (mapM (getNode h) ns) as [nodes |] eqn:Enodes;
    [| discriminate Hread].
  simpl in Hread.
  destruct (mapM (getChannel h) cs) as [chans |] eqn:Echans;
    [| discriminate Hread].
  simpl in Hread. injection Hread as <-. simpl.
  set (h' := store l _ h).
  assert (Hl : exists pr, objects h !! l = Some (ProfileObject pr)).
  { unfold getProfile in Hp.
    destruct (objects h !! l) as [[| | | pr] |]; try discriminate Hp.
    exists pr. reflexivity. }
  destruct Hl as [pr Hl].
  assert (Hother : forall l', (forall pr', objects h !! l' <> Some (ProfileObject pr')) ->
            objects h' !! l' = objects h !! l').
  { intros l' Hno. unfold h'. apply store_lookup_ne.
    intros ->. apply (Hno pr Hl). }
  assert (Hp' : getProfile h' l
                = Some {| id := id'; label := label';
                          equalizerNodes := equalizerNodes p;
                          mixerChannels := mixerChannels p |}).
  { unfold getProfile, h'. rewrite store_lookup_eq. reflexivity. }
  assert (Harr : forall a els, getArray h a = Some els ->
            getArray h' a = Some els).
  { intros a els Ha. unfold getArray in *. rewrite Hother; [exact Ha |].
    intros pr' Hpr. rewrite Hpr in Ha. discriminate Ha. }
  assert (Hns : mapM (getNode h') ns = Some nodes).
  { apply mapM_Some. apply mapM_Some in Enodes.
    eapply Forall2_impl; [exact Enodes |]. intros n v Hn.
    unfold getNode in *. rewrite Hother; [exact Hn |].
    intros pr' Hpr. rewrite Hpr in Hn. discriminate Hn. }
  assert (Hcs : mapM (getChannel h') cs = Some chans).
  { apply mapM_Some. apply mapM_Some in Echans.
    eapply Forall2_impl; [exact Echans |]. intros n v Hn.
    unfold getChannel in *. rewrite Hother; [exact Hn |].
    intros pr' Hpr. rewrite Hpr in Hn. discriminate Hn. }
  clearbody h'. unfold toObj. rewrite Hp'. simpl.
  rewrite (Harr _ _ En). simpl. rewrite (Harr _ _ Ec). simpl.
  rewrite Hns. simpl. rewrite Hcs. reflexivity.
Qed.

(** Assigning fields of a new profile object keeps the heap grown. *)
Lemma grown_store_profile h h1 l p id' label' :
  grown h h1 -> (next h <= l)%nat -> getProfile h1 l = Some p ->
  grown h (store l (ProfileObject
                      {| id := id'; label := label';
                         equalizerNodes := equalizerNodes p;
                         mixerChannels := mixerChannels p |}) h1).
Proof.
  intros [W1 E1] Hl Hp.
  assert (Ho : objects h1 !! l = Some (ProfileObject p)).
  { unfold getProfile in Hp.
    destruct (objects h1 !! l) as [[| | | pr] |]; try discriminate Hp.
    injection Hp as ->. reflexivity. }
  destruct (W1 l _ Ho) as [Hlt Hrefs].
  split.
  - apply wfHeap_store; assumption.
  - apply extends_store; [exact E1 | exact Hl |].
    apply (ext_above _ _ _ E1 l _ Hl Ho).
Qed.

(** *** Creating and importing profiles *)

Lemma storeObjs_snoc h (ps : list nat) (os : list ProfileObj) l o :
  mapM (fun l0 => toObj l0 h) ps = Some os -> toObj l h = Some o ->
  mapM (fun l0 => toObj l0 h) (ps ++ [l]) = Some (os ++ [o]).
Proof.
  intros Hps Hl. apply mapM_Some. apply mapM_Some in Hps.
  apply Forall2_app; [exact Hps |]. constructor; [exact Hl | constructor].
Qed.

Lemma newProfile_spec m (os : list ProfileObj) :
  wfHeap (heapOf m) -> storeObjs m = Some os ->
  let newID := nextFreeId (obj_id <$> os) in
  grown (heapOf m) (heapOf (newProfile m))
  /\ currentProfile (newProfile m) = currentProfile m
  /\ (exists created,
        profiles (newProfile m) = (profiles m ++ [created])%list
        /\ (next (heapOf m) <= created)%nat)
  /\ storeObjs (newProfile m)
     = Some (os ++ [{| obj_id := newID;
                       obj_label := "Profile " +:+ pretty newID;
                       obj_equalizerNodes := [];
                       obj_mixerChannels := [] |}])%list.
Proof.
  intros Hwf Hread newID.
  pose proof (getNextProfileID_objs m os Hread) as Hid. fold newID in Hid.
  unfold newProfile. rewrite Hid.
  pose proof (wfHeap_newAudioProfile newID (heapOf m) Hwf) as W.
  destruct (extends_newAudioProfile (next (heapOf m)) (heapOf m) (heapOf m)
              newID (extends_refl _ Hwf)) as [E L].
  pose proof (toObj_newAudioProfile newID (heapOf m)) as Hnew.
  destruct (newAudioProfile newID (heapOf m)) as [profile h].
  simpl in W, E, L, Hnew. simpl.
  assert (Hg : grown (heapOf m) h) by (split; assumption).
  split; [exact Hg |]. split; [reflexivity |].
  split; [exists profile; split; [reflexivity | exact L] |].
  unfold storeObjs. simpl. apply storeObjs_snoc; [| exact Hnew].
  apply (preserves_mapM (heapOf m)); [| exact Hread].
  apply grown_preserves; assumption.
Qed.









(** *** Deleting and saving *)

Lemma indexOf_Some profile ps : forall i,
  indexOf profile ps = Some i ->
  ps !! i = Some profile
  /\ forall j, (j < i)%nat -> ps !! j <> Some profile.
Proof.
  induction ps as [| l ps IH]; intros i Hi; simpl in Hi; [discriminate Hi |].
  destruct (decide (l = profile)) as [-> | Hne].
  - injection Hi as <-. split; [reflexivity |]. intros j Hj. lia.
  - apply fmap_Some in Hi as [k [Hk ->]].
    destruct (IH k Hk) as [H1 H2]. split; [exact H1 |].
    intros [| j] Hj; simpl.
    + congruence.
    + apply H2. lia.
Qed.

Lemma indexOf_None profile ps : indexOf profile ps = None -> profile ∉ ps.
Proof.
  induction ps as [| l ps IH]; intros Hi; simpl in Hi.
  - apply not_elem_of_nil.
  - destruct (decide (l = profile)) as [-> | Hne]; [discriminate Hi |].
    apply fmap_None in Hi. apply not_elem_of_cons. split; [congruence |].
    apply IH, Hi.
Qed.

(** X18: [deleteProfile] on a store that keeps another profile. If the
    profile is stored, exactly its first occurrence is removed: the other
    profiles keep their order and content, no object of the heap changes and
    the active profile stays, also when it was copied from the deleted one.
    If the profile is not stored, nothing changes at all. *)
Theorem deleteProfile_removes_one
    (profile : loc) (m : manager) (os : list ProfileObj) :
  storeObjs m = Some os ->
  (forall i, indexOf profile (profiles m) = Some i ->
     (1 < length (profiles m))%nat ->
     let m' := {| heapOf := heapOf m; profiles := delete i (profiles m);
                  currentProfile := currentProfile m |} in
     deleteProfile profile m = Returned m'
     /\ profiles m !! i = Some profile
     /\ (forall j, (j < i)%nat -> profiles m !! j <> Some profile)
     /\ storeObjs m' = Some (delete i os))
  /\ (indexOf profile (profiles m) = None -> profiles m <> [] ->
      (profile ∉ profiles m) /\ deleteProfile profile m = Returned m).
Proof.
  intros Hread. split.
  - intros i Hi Hlen m'.
    destruct (indexOf_Some _ _ _ Hi) as [Hat Hfirst].
    pose proof (indexOf_lt _ _ _ Hi) as Hlt.
    assert (Hdl : length (delete i (profiles m))
                  = (length (profiles m) - 1)%nat)
      by (apply length_delete; eauto).
    split; [| split; [exact Hat | split; [exact Hfirst |]]].
    + unfold deleteProfile. rewrite Hi. cbv beta iota zeta. fold m'.
      replace (length (profiles m') =? 0)%nat with false
        by (symmetry; apply Nat.eqb_neq; simpl; lia).
      destruct (lookup_lt_is_Some_2 (profiles m') (i - 1)) as [l Hl];
        [simpl; lia |].
      rewrite Hl. reflexivity.
    + unfold storeObjs in *. simpl. apply mapM_Some. apply mapM_Some in Hread.
      apply Forall2_delete, Hread.
  - intros Hi Hne. split; [apply indexOf_None, Hi |].
    unfold deleteProfile. rewrite Hi. cbv beta iota zeta.
    destruct (profiles m) as [| l ps] eqn:Hps; [contradiction |].
    simpl. rewrite Hps. reflexivity.
Qed.

Lemma deleteProfile_removes_one_witness :
  profiles (outcome_state
              (deleteProfile 2 (newProfile (newProfile emptyManager))))
  = [5%nat].
Proof.
  destruct (deleteProfile_removes_one 2 (newProfile (newProfile emptyManager))
              [{| obj_id := 1; obj_label := "Profile 1";
                  obj_equalizerNodes := []; obj_mixerChannels := [] |};
               {| obj_id := 2; obj_label := "Profile 2";
                  obj_equalizerNodes := []; obj_mixerChannels := [] |}])
    as [Hdel _]; [vm_compute; reflexivity |].
  destruct (Hdel 0%nat) as [Hrun _]; [reflexivity | simpl; lia |].
  rewrite Hrun. reflexivity.
Defined.

(** X19: [saveCurrentProfile] commits the active profile. For a stored
    profile selected in the dropdown, the store keeps its length and holds,
    in the place of the first occurrence of that profile, a new object with
    the equalizer nodes and mixer channels of the active profile and the id
    and label of the stored one; every other stored profile and the active
    profile read as before. *)
Theorem saveCurrentProfile_commits
    (profile active : loc) (i : nat) (m : manager)
    (os : list ProfileObj) (stored current : ProfileObj) :
  wfHeap (heapOf m) -> storeObjs m = Some os ->
  indexOf profile (profiles m) = Some i -> os !! i = Some stored ->
  currentProfile m = Some active ->
  toObj active (heapOf m) = Some current ->
  let m' := saveCurrentProfile (Some profile) m in
  wfHeap (heapOf m')
  /\ currentProfile m' = Some active
  /\ toObj active (heapOf m') = Some current
  /\ (exists saved,
        profiles m' = <[i := saved]> (profiles m)
        /\ (next (heapOf m) <= saved)%nat)
  /\ storeObjs m'
     = Some (<[i := {| obj_id := obj_id stored;
                       obj_label := obj_label stored;
                       obj_equalizerNodes := obj_equalizerNodes current;
                       obj_mixerChannels := obj_mixerChannels current |}]>
               os).
Proof.
  intros Hwf Hread Hi Hstored Hactive Hcurrent.
  destruct (indexOf_Some _ _ _ Hi) as [Hat _].
  assert (Hprofile : toObj profile (heapOf m) = Some stored).
  { unfold storeObjs in Hread. apply mapM_Some in Hread.
    apply (Forall2_lookup_lr _ _ _ i profile stored Hread Hat Hstored). }
  destruct (toObj_getProfile _ _ _ Hprofile) as [p [Hp [Hid Hlbl]]].
  unfold saveCurrentProfile. rewrite Hactive, Hp.
  unfold copy. rewrite Hcurrent. simpl.
  pose proof (grown_fromObj current (heapOf m) Hwf) as G1.
  pose proof (fromObj_fresh current (heapOf m) Hwf) as L1.
  pose proof (toObj_fromObj current (heapOf m)) as R1.
  destruct (fromObj current (heapOf m)) as [saved h].
  simpl in G1, L1, R1.
  destruct (toObj_getProfile saved h current R1) as [np [Hnp _]].
  rewrite Hnp. cbv zeta. rewrite Hi.
  match goal with
  | |- context [store saved (ProfileObject ?rec) h] =>
      set (h2 := store saved (ProfileObject rec) h)
  end.
  assert (G2 : grown (heapOf m) h2).
  { unfold h2. apply grown_store_profile; assumption. }
  assert (R2 : toObj saved h2
               = Some {| obj_id := obj_id stored;
                         obj_label := obj_label stored;
                         obj_equalizerNodes := obj_equalizerNodes current;
                         obj_mixerChannels := obj_mixerChannels current |}).
  { unfold h2. rewrite Hid, Hlbl.
    apply (toObj_set_id_label saved h current np); assumption. }
  clearbody h2.
  pose proof (grown_preserves _ _ Hwf G2) as Hpres.
  simpl. split; [apply G2 |]. split; [reflexivity |].
  split; [apply Hpres, Hcurrent |].
  split; [exists saved; split; [reflexivity | exact L1] |].
  unfold storeObjs in *. simpl. apply mapM_Some. apply mapM_Some in Hread.
  apply Forall2_insert; [| exact R2].
  eapply Forall2_impl; [exact Hread |]. intros l o. apply Hpres.
Qed.

Lemma saveCurrentProfile_commits_witness :
  storeObjs
    (saveCurrentProfile (Some 2%nat)
       (zeroLineClick "peaking" 1000
          (outcome_state (setCurrentProfile 2 (newProfile emptyManager)))))
  = Some [{| obj_id := 1; obj_label := "Profile 1";
             obj_equalizerNodes := [mkEQNode "peaking" 1000 0 1];
             obj_mixerChannels := [] |}].
Proof.
  destruct (saveCurrentProfile_commits 2 5 0
              (zeroLineClick "peaking" 1000
                 (outcome_state
                    (setCurrentProfile 2 (newProfile emptyManager))))
              [{| obj_id := 1; obj_label := "Profile 1";
                  obj_equalizerNodes := []; obj_mixerChannels := [] |}]
              {| obj_id := 1; obj_label := "Profile 1";
                 obj_equalizerNodes := []; obj_mixerChannels := [] |}
              {| obj_id := 1; obj_label := "Profile 1";
                 obj_equalizerNodes := [mkEQNode "peaking" 1000 0 1];
                 obj_mixerChannels := [] |})
    as [_ [_ [_ [_ R]]]].
  - apply (wfHeap_applyEdit _ (ZeroLineClick "peaking" 1000)).
    apply wfHeap_setCurrentProfile.
    apply (wfHeap_newAudioProfile 1 _ wfHeap_empty).
  - vm_compute. reflexivity.
  - reflexivity.
  - reflexivity.
  - reflexivity.
  - vm_compute. reflexivity.
  - exact R.
Defined.

(** *** Storage *)

(** What [chrome.storage.local] holds under the keys [audioProfiles] (after
    [JSON.parse]) and [currentAudioProfile]. *)
Record storage : Type := mkStorage {
  audioProfiles : list ProfileObj;
  currentAudioProfile : Z
}.


(** [audioProfiles.map((profile) => AudioProfile.fromObj(profile))]. *)
Fixpoint fromObjs (objs : list ProfileObj) (h : heap) : list loc * heap :=
  match objs with
  | [] => ([], h)
  | obj :: rest =>
      let '(l, h1) := fromObj obj h in
      let '(ls, h2) := fromObjs rest h1 in
      (l :: ls, h2)
  end.

(** [this.profiles.find((profile) => profile.id === id)]. *)
Definition findProfile (h : heap) (ps : list loc) (i : Z) : option loc :=
  find (fun l => match getProfile h l with
                 | Some profile => (id profile =? i)%Z
                 | None => false
                 end) ps.

(** The calls that end both branches of the callback of
    [loadProfilesFromStorage]:
    [this.setCurrentProfile(selected); this.refreshEQNodes(); this.refreshMixer()].
    [channelGains] is [this.channelGains]. It is undefined as long as
    [setupNodes] has not run; the analysers and the audio context are
    undefined then as well, and [refreshEQNodes] throws a TypeError at them
    before [refreshMixer] is reached. Once [setupNodes] has run,
    [refreshEQNodes] rebuilds the filters of the host (see [Graph]),
    [refreshMixer] pads the mixer channels of the active profile and ends
    with [updateMixerNodes]. *)
Definition activate (channelGains : option (list Q)) (selected : option loc)
    (m : manager) : outcome manager :=
  match selected with
  | None => Thrown TypeError m
  | Some profile =>
      match setCurrentProfile profile m with
      | Thrown e m1 => Thrown e m1
      | Returned m1 =>
          match channelGains with
          | None => Thrown TypeError m1
          | Some gains =>
              let m2 := activeRefreshMixer m1 in
              match activeArray mixerChannels m2 with
              | Some (_, channels) =>
                  match mapM (getChannel (heapOf m2)) channels with
                  | Some values =>
                      match Mixer.updateMixerNodes (Some gains) (Some values)
                      with
                      | Returned _ => Returned m2
                      | Thrown e _ => Thrown e m2
                      end
                  | None => Thrown TypeError m2
                  end
              | None => Thrown TypeError m2
              end
          end
      end
  end.

(** The callback of [loadProfilesFromStorage()] for the data read from
    storage. *)
Definition loadProfilesFromStorage (channelGains : option (list Q))
    (data : storage) (m : manager) : outcome manager :=
  let currentAudioProfileID :=
    if (currentAudioProfile data =? 0)%Z then (-1)%Z
    else currentAudioProfile data in
  match audioProfiles data with
  | [] =>
      let m1 := newProfile m in
      activate channelGains (profiles m1 !! 0%nat) m1
  | _ :: _ =>
      let '(ps, h) := fromObjs (audioProfiles data) (heapOf m) in
      let m1 := {| heapOf := h; profiles := ps;
                   currentProfile := currentProfile m |} in
      activate channelGains
        (match findProfile h ps currentAudioProfileID with
         | Some profile => Some profile
         | None => ps !! 0%nat
         end) m1
  end.


(** A plain object with its mixer channels padded as [refreshMixer] pads
    them. *)
Definition withPaddedMixer (o : ProfileObj) : ProfileObj :=
  {| obj_id := obj_id o; obj_label := obj_label o;
     obj_equalizerNodes := obj_equalizerNodes o;
     obj_mixerChannels := Mixer.padChannels (obj_mixerChannels o) |}.

(** What the active profile reads as after [activate]. *)
Definition activeObj (channelGains : option (list Q)) (o : ProfileObj)
  : ProfileObj :=
  match channelGains with
  | Some _ => withPaddedMixer o
  | None => o
  end.

Lemma toObj_parts l h o :
  toObj l h = Some o ->
  exists p ns cs,
    getProfile h l = Some p
    /\ getArray h (equalizerNodes p) = Some ns
    /\ getArray h (mixerChannels p) = Some cs
    /\ mapM (getNode h) ns = Some (obj_equalizerNodes o)
    /\ mapM (getChannel h) cs = Some (obj_mixerChannels o)
    /\ id p = obj_id o /\ label p = obj_label o.
Proof.
  intros Hread. unfold toObj in Hread.
  destruct (getProfile h l) as [p |]; [| discriminate Hread].
  simpl in Hread.
  destruct (getArray h (equalizerNodes p)) as [ns |] eqn:En;
    [| discriminate Hread].
  simpl in Hread.
  destruct (getArray h (mixerChannels p)) as [cs |] eqn:Ec;
    [| discriminate Hread].
  simpl in Hread.
  destruct (mapM (getNode h) ns) as [nodes |] eqn:Enodes;
    [| discriminate Hread].
  simpl in Hread.
  destruct (mapM (getChannel h) cs) as [chans |] eqn:Echans;
    [| discriminate Hread].
  simpl in Hread. injection Hread as <-. exists p, ns, cs. simpl.
  repeat split; assumption.
Qed.

(** The two arrays of a profile built by [fromObj] are different objects. *)
Lemma fromObj_arrays obj h :
  exists p,
    getProfile (snd (fromObj obj h)) (fst (fromObj obj h)) = Some p
    /\ equalizerNodes p <> mixerChannels p.
Proof.
  unfold fromObj.
  destruct (newAudioProfile (obj_id obj) h) as [profile h1].
  destruct (allocAll (map EQNodeObject (obj_equalizerNodes obj)) h1)
    as [nodes h2] eqn:E2.
  destruct (alloc (ArrayObject nodes) h2) as [a h3] eqn:E3.
  destruct (alloc_spec _ _ _ _ E3) as [Ha [Hn3 _]].
  destruct (allocAll (map ChannelObject (obj_mixerChannels obj)) h3)
    as [channels h4] eqn:E4.
  destruct (allocAll_spec _ _ _ _ E4) as [Hn4 _].
  destruct (alloc (ArrayObject channels) h4) as [b h5] eqn:E5.
  destruct (alloc_spec _ _ _ _ E5) as [Hb _].
  simpl. eexists. split.
  - unfold getProfile. rewrite store_lookup_eq. reflexivity.
  - simpl. lia.
Qed.

Lemma getProfile_object h l p :
  getProfile h l = Some p -> objects h !! l = Some (ProfileObject p).
Proof.
  unfold getProfile. intros H.
  destruct (objects h !! l) as [[| | | pr] |]; try discriminate H.
  injection H as ->. reflexivity.
Qed.

Lemma getArray_object h l els :
  getArray h l = Some els -> objects h !! l = Some (ArrayObject els).
Proof.
  unfold getArray. intros H.
  destruct (objects h !! l) as [[| | els' |] |]; try discriminate H.
  injection H as ->. reflexivity.
Qed.

(** On the heap, the padding of [refreshMixer] is [Mixer.padChannels] on the
    channel values of the active profile. *)
Lemma toObj_activeRefreshMixer m active p o :
  wfHeap (heapOf m) -> currentProfile m = Some active ->
  getProfile (heapOf m) active = Some p ->
  equalizerNodes p <> mixerChannels p ->
  toObj active (heapOf m) = Some o ->
  toObj active (heapOf (activeRefreshMixer m)) = Some (withPaddedMixer o).
Proof.
  intros Hwf Hcur Hp Hne Hread.
  destruct (toObj_parts _ _ _ Hread)
    as [p' [ns [cs [Hp' [Hns [Hcs [Hnodes [Hchans [Hid Hlbl]]]]]]]]].
  rewrite Hp in Hp'. injection Hp' as <-.
  pose proof (length_mapM _ _ _ Hchans) as Hlen.
  unfold activeRefreshMixer, activeArray. rewrite Hcur. simpl.
  rewrite Hp. simpl. rewrite Hcs. simpl.
  unfold withPaddedMixer, Mixer.padChannels. cbv zeta. rewrite <- Hlen.
  destruct (length cs <? 7)%nat eqn:Hshort.
  2: { rewrite Hread. destruct o; reflexivity. }
  set (h := heapOf m) in *.
  destruct (allocAll
              (map (fun i => ChannelObject
                               (Mixer.mkChannel (Z.of_nat i) 1 false false))
                 (seq (length cs) (7 - length cs))) h)
    as [added h1] eqn:Ealloc.
  destruct (allocAll_spec _ _ _ _ Ealloc) as [_ [Hadded [Hnew Hold]]].
  simpl.
  pose proof (getProfile_object _ _ _ Hp) as Op.
  pose proof (getArray_object _ _ _ Hns) as On.
  pose proof (getArray_object _ _ _ Hcs) as Oc.
  set (h2 := store (mixerChannels p) (ArrayObject (cs ++ added)) h1).
  assert (Hsame : forall l ob, objects h !! l = Some ob ->
            l <> mixerChannels p -> objects h2 !! l = Some ob).
  { intros l ob Hl Hd. unfold h2. rewrite store_lookup_ne by exact Hd.
    rewrite Hold; [exact Hl |]. apply (Hwf l ob Hl). }
  assert (Hc2 : objects h2 !! mixerChannels p
                = Some (ArrayObject (cs ++ added)))
    by apply store_lookup_eq.
  assert (Hadd2 : forall i ob,
            map (fun i => ChannelObject
                            (Mixer.mkChannel (Z.of_nat i) 1 false false))
              (seq (length cs) (7 - length cs)) !! i = Some ob ->
            objects h2 !! (next h + i)%nat = Some ob).
  { intros i ob Hi. unfold h2. rewrite store_lookup_ne.
    - apply Hnew, Hi.
    - destruct (Hwf _ _ Oc) as [Hlt _]. lia. }
  clearbody h2.
  assert (Hp2 : getProfile h2 active = Some p).
  { unfold getProfile. rewrite (Hsame _ _ Op); [reflexivity |].
    intros ->. rewrite Oc in Op. discriminate Op. }
  assert (Hn2 : getArray h2 (equalizerNodes p) = Some ns).
  { unfold getArray. rewrite (Hsame _ _ On Hne). reflexivity. }
  assert (Hc2' : getArray h2 (mixerChannels p) = Some (cs ++ added)).
  { unfold getArray. rewrite Hc2. reflexivity. }
  assert (Hnodes2 : mapM (getNode h2) ns = Some (obj_equalizerNodes o)).
  { apply mapM_Some. apply mapM_Some in Hnodes.
    eapply Forall2_impl; [exact Hnodes |]. intros l v Hl.
    unfold getNode in *.
    destruct (objects h !! l) as [[node | | |] |] eqn:El;
      try discriminate Hl.
    rewrite (Hsame _ _ El); [exact Hl |].
    intros ->. rewrite Oc in El. discriminate El. }
  assert (Hchans2 : mapM (getChannel h2) (cs ++ added)
            = Some (obj_mixerChannels o
                    ++ map (fun i => Mixer.mkChannel (Z.of_nat i) 1 false false)
                         (seq (length cs) (7 - length cs)))).
  { apply mapM_Some. apply Forall2_app.
    - apply mapM_Some in Hchans.
      eapply Forall2_impl; [exact Hchans |]. intros l v Hl.
      unfold getChannel in *.
      destruct (objects h !! l) as [[| channel | |] |] eqn:El;
        try discriminate Hl.
      rewrite (Hsame _ _ El); [exact Hl |].
      intros ->. rewrite Oc in El. discriminate El.
    - apply mapM_Some. rewrite Hadded, length_map.
      rewrite <- (length_map (fun i => Mixer.mkChannel (Z.of_nat i) 1 false false)
                    (seq (length cs) (7 - length cs))).
      apply mapM_allocated. intros i v Hv. unfold getChannel.
      rewrite (Hadd2 i (ChannelObject v)); [reflexivity |].
      rewrite list_lookup_fmap in Hv. rewrite list_lookup_fmap.
      destruct (seq (length cs) (7 - length cs) !! i) as [k |];
        [| discriminate Hv].
      simpl in *. injection Hv as <-. reflexivity. }
  unfold toObj. rewrite Hp2. simpl. rewrite Hn2. simpl. rewrite Hc2'. simpl.
  rewrite Hnodes2. simpl. rewrite Hchans2. simpl.
  rewrite Hid, Hlbl. reflexivity.
Qed.



Lemma activate_spec channelGains m profile chosen (os : list ProfileObj) :
  wfHeap (heapOf m) -> storeObjs m = Some os ->
  toObj profile (heapOf m) = Some chosen ->
  let m' := outcome_state (activate channelGains (Some profile) m) in
  wfHeap (heapOf m')
  /\ profiles m' = profiles m
  /\ storeObjs m' = Some os
  /\ (exists active,
        currentProfile m' = Some active
        /\ (next (heapOf m) <= active)%nat
        /\ toObj active (heapOf m') = Some (activeObj channelGains chosen))
  /\ (channelGains = None ->
      activate channelGains (Some profile) m = Thrown TypeError m').
Proof.
  intros Hwf Hos Hread.
  unfold activate, setCurrentProfile, copy. rewrite Hread. simpl.
  pose proof (grown_fromObj chosen (heapOf m) Hwf) as G1.
  pose proof (fromObj_fresh chosen (heapOf m) Hwf) as L1.
  pose proof (toObj_fromObj chosen (heapOf m)) as R1.
  destruct (fromObj_arrays chosen (heapOf m)) as [p [Hp Hne]].
  destruct (fromObj chosen (heapOf m)) as [active h1].
  simpl in G1, L1, R1, Hp.
  set (m1 := {| heapOf := h1; profiles := profiles m;
                currentProfile := Some active |}).
  destruct channelGains as [gains |].
  - cbv zeta. set (m2 := activeRefreshMixer m1).
    match goal with
    | |- context [outcome_state ?t] => assert (Hstate : outcome_state t = m2)
    end.
    { destruct (activeArray mixerChannels m2) as [[a channels] |];
        [| reflexivity].
      destruct (mapM (getChannel (heapOf m2)) channels) as [values |];
        [| reflexivity].
      destruct (Mixer.pushGains (Mixer.findSolo values) 0 values gains);
        reflexivity. }
    rewrite !Hstate.
    assert (Hdet : detached (next (heapOf m)) (heapOf m) (profiles m) m2).
    { apply activeRefreshMixer_detached. split; simpl.
      - apply G1.
      - reflexivity.
      - intros c [= <-]. exact L1. }
    assert (Hwf2 : wfHeap (heapOf m2)).
    { apply (wfHeap_applyEdit m1 RefreshMixer). apply G1. }
    assert (Hcur2 : currentProfile m2 = Some active).
    { unfold m2, activeRefreshMixer.
      destruct (activeArray mixerChannels m1) as [[a cs] |]; [| reflexivity].
      destruct (length cs <? 7)%nat; [| reflexivity].
      destruct (allocAll _ (heapOf m1)); reflexivity. }
    assert (Hps2 : profiles m2 = profiles m) by apply Hdet.
    split; [exact Hwf2 |]. split; [exact Hps2 |]. split; [| split].
    + unfold storeObjs. rewrite Hps2.
      apply mapM_Some. apply mapM_Some in Hos.
      eapply Forall2_impl; [exact Hos |]. intros l o Hl.
      apply (toObj_extends (heapOf m)); [exact Hwf | apply Hdet | exact Hl].
    + exists active. split; [exact Hcur2 |]. split; [exact L1 |].
      apply (toObj_activeRefreshMixer m1 active p); try assumption.
      * apply G1.
      * reflexivity.
    + intros H. discriminate H.
  - simpl. split; [apply G1 |]. split; [reflexivity |]. split; [| split].
    + unfold storeObjs. simpl.
      apply (preserves_mapM (heapOf m)); [| exact Hos].
      apply grown_preserves; assumption.
    + exists active. split; [reflexivity |]. split; [exact L1 | exact R1].
    + reflexivity.
Qed.



(** X21: the callback of [loadProfilesFromStorage] when storage holds no
    profile. One profile is created and appended to what the manager holds
    (nothing, when the callback follows the constructor): it has the least id
    from 1 on that is free and no nodes or channels. The active profile is a
    copy of the first profile of the store, padded to seven mixer channels
    once the audio nodes exist. *)
Theorem loadProfilesFromStorage_first_run
    (channelGains : option (list Q)) (data : storage) (m : manager)
    (os : list ProfileObj) :
  wfHeap (heapOf m) -> storeObjs m = Some os -> audioProfiles data = [] ->
  let m' := outcome_state (loadProfilesFromStorage channelGains data m) in
  let created :=
    {| obj_id := nextFreeId (obj_id <$> os);
       obj_label := "Profile " +:+ pretty (nextFreeId (obj_id <$> os));
       obj_equalizerNodes := []; obj_mixerChannels := [] |} in
  wfHeap (heapOf m')
  /\ storeObjs m' = Some (os ++ [created])%list
  /\ (exists active chosen,
        currentProfile m' = Some active
        /\ head (os ++ [created])%list = Some chosen
        /\ toObj active (heapOf m') = Some (activeObj channelGains chosen))
  /\ (os = [] ->
      storeObjs m'
      = Some [{| obj_id := 1; obj_label := "Profile 1";
                 obj_equalizerNodes := []; obj_mixerChannels := [] |}]).
Proof.
  intros Hwf Hos Hdata m' created.
  assert (Hrun : m' = outcome_state
                        (activate channelGains
                           (profiles (newProfile m) !! 0%nat) (newProfile m))).
  { unfold m', loadProfilesFromStorage. rewrite Hdata. reflexivity. }
  clearbody m'. subst m'.
  destruct (newProfile_spec m os Hwf Hos) as [G [_ [[l [P _]] R]]].
  cbv zeta in R. fold created in R.
  assert (Hall : Forall2 (fun l o => toObj l (heapOf (newProfile m)) = Some o)
                   (profiles (newProfile m)) (os ++ [created])%list)
    by (apply mapM_Some, R).
  assert (Hsel : exists profile chosen,
            profiles (newProfile m) !! 0%nat = Some profile
            /\ head (os ++ [created])%list = Some chosen
            /\ toObj profile (heapOf (newProfile m)) = Some chosen).
  { remember (profiles (newProfile m)) as ps eqn:Eps.
    remember (os ++ [created])%list as os2 eqn:Eos.
    destruct Hall as [| l0 o1 ps1 os1 Hl Hrest].
    - destruct (profiles m); simpl in P; discriminate P.
    - exists l0, o1. split; [reflexivity | split; [reflexivity | exact Hl]]. }
  destruct Hsel as [profile [chosen [Hsel [Hchosen Hread]]]].
  rewrite Hsel.
  destruct (activate_spec channelGains (newProfile m) profile chosen
              (os ++ [created])%list (proj1 G) R Hread)
    as [W [_ [S [[active [C [_ A]]] _]]]].
  cbv zeta in W, S, C, A.
  split; [exact W |]. split; [exact S |]. split.
  - exists active, chosen. split; [exact C |]. split; [exact Hchosen | exact A].
  - intros ->. rewrite S. reflexivity.
Qed.

Lemma loadProfilesFromStorage_first_run_witness :
  storeObjs
    (outcome_state
       (loadProfilesFromStorage None
          {| audioProfiles := []; currentAudioProfile := -1 |} emptyManager))
  = Some [{| obj_id := 1; obj_label := "Profile 1";
             obj_equalizerNodes := []; obj_mixerChannels := [] |}].
Proof.
  destruct (loadProfilesFromStorage_first_run None
              {| audioProfiles := []; currentAudioProfile := -1 |}
              emptyManager []) as [_ [_ [_ S]]].
  - apply wfHeap_empty.
  - reflexivity.
  - reflexivity.
  - apply S. reflexivity.
Defined.

(** *** Rotating the type of a node *)













(** *** Downloading a profile *)




End StoreOps.

(** ** The equalizer chain in the audio graph

    The audio nodes of the host are numbered in their order of creation; a
    connection is a pair of a source and a destination, and the connections
    of the graph form a set: connecting two nodes twice is one connection.
    This is the state once [setupNodes] has created the two analysers. *)

Module Graph.

















End Graph.

(** ** The render loop

    [startRenderLoop], [stopRenderLoop] and [renderLoop] share two flags; the
    loop itself lives in the callbacks handed to [requestAnimationFrame]. *)

Module RenderLoop.

(** The two flags, and the number of callbacks requested from the host that
    have not run yet. *)
Record loop : Type := mkLoop {
  shouldRunRenderLoop : bool;
  renderLoopRunning : bool;
  scheduled : nat
}.

(** [renderLoop()]. The next callback is requested before anything is drawn:
    an exception of the drawing part leaves the loop as it is here. *)
Definition renderLoop (s : loop) : loop :=
  if negb (shouldRunRenderLoop s) then
    {| shouldRunRenderLoop := shouldRunRenderLoop s;
       renderLoopRunning := false;
       scheduled := scheduled s |}
  else
    {| shouldRunRenderLoop := shouldRunRenderLoop s;
       renderLoopRunning := renderLoopRunning s;
       scheduled := S (scheduled s) |}.

(** [startRenderLoop()], called by [openUI] and by [setupNodes]. *)
Definition startRenderLoop (s : loop) : loop :=
  if renderLoopRunning s then s
  else
    renderLoop {| shouldRunRenderLoop := true; renderLoopRunning := true;
                  scheduled := scheduled s |}.

(** [stopRenderLoop()], called by [closeUI]. *)
Definition stopRenderLoop (s : loop) : loop :=
  {| shouldRunRenderLoop := false;
     renderLoopRunning := renderLoopRunning s;
     scheduled := scheduled s |}.

(** The host runs a requested callback, which calls [renderLoop()]; without
    a requested callback nothing runs. *)
Definition animationFrame (s : loop) : loop :=
  match scheduled s with
  | O => s
  | S n =>
      renderLoop {| shouldRunRenderLoop := shouldRunRenderLoop s;
                    renderLoopRunning := renderLoopRunning s;
                    scheduled := n |}
  end.

Inductive event : Type :=
  | StartRenderLoop
  | StopRenderLoop
  | AnimationFrame.

Definition step (s : loop) (e : event) : loop :=
  match e with
  | StartRenderLoop => startRenderLoop s
  | StopRenderLoop => stopRenderLoop s
  | AnimationFrame => animationFrame s
  end.

(** The flags as the constructor sets them. *)
Definition constructed : loop :=
  {| shouldRunRenderLoop := false; renderLoopRunning := false;
     scheduled := 0 |}.

(** One callback is requested while the loop runs, none otherwise; a loop
    that should run is running. *)
Definition single (s : loop) : Prop :=
  scheduled s = (if renderLoopRunning s then 1 else 0)%nat
  /\ (shouldRunRenderLoop s = true -> renderLoopRunning s = true).

Lemma single_step s e : single s -> single (step s e).
Proof.
  destruct s as [should running n]. unfold single. simpl.
  intros [Hn Himp].
  destruct e; unfold step, startRenderLoop, stopRenderLoop, animationFrame,
    renderLoop; simpl.
  - destruct running; simpl; [split; assumption |]. subst n.
    split; [reflexivity | reflexivity].
  - split; [exact Hn | discriminate].
  - destruct running; subst n; simpl.
    + destruct should; simpl; split; try reflexivity; discriminate.
    + split; [reflexivity | exact Himp].
Qed.

Lemma single_run events : forall s, single s -> single (fold_left step events s).
Proof.
  induction events as [| e events IH]; intros s Hs; simpl; [exact Hs |].
  apply IH, single_step, Hs.
Qed.

(** X23: the render loop never runs twice. After any sequence of calls of
    [startRenderLoop] and [stopRenderLoop] and of animation frames, exactly
    one callback is requested from the host while [renderLoopRunning] is set,
    and none otherwise; a loop that should run is running. After
    [stopRenderLoop] the next frame ends the loop and requests nothing. A
    [startRenderLoop] that follows [stopRenderLoop] before an animation frame
    has run returns at its guard: that frame ends the loop although it was
    started last. *)
Theorem renderLoop_single (events : list event) :
  let s := fold_left step events constructed in
  scheduled s = (if renderLoopRunning s then 1 else 0)%nat
  /\ (shouldRunRenderLoop s = true -> renderLoopRunning s = true)
  /\ (let stopped := animationFrame (stopRenderLoop s) in
      renderLoopRunning stopped = false /\ scheduled stopped = 0%nat)
  /\ (renderLoopRunning s = true ->
      let s' := animationFrame (startRenderLoop (stopRenderLoop s)) in
      shouldRunRenderLoop s' = false
      /\ renderLoopRunning s' = false /\ scheduled s' = 0%nat).
Proof.
  intros s.
  assert (Hs : single s).
  { apply single_run. split; [reflexivity | discriminate]. }
  clearbody s. destruct s as [should running n].
  destruct Hs as [Hn Himp]. simpl in Hn, Himp.
  split; [exact Hn |]. split; [exact Himp |].
  unfold animationFrame, startRenderLoop, stopRenderLoop, renderLoop. simpl.
  destruct running; subst n; simpl.
  - repeat split; reflexivity.
  - split; [split; reflexivity | discriminate].
Qed.

Lemma renderLoop_single_witness :
  scheduled
    (fold_left step
       [StartRenderLoop; AnimationFrame; StopRenderLoop; StartRenderLoop;
        AnimationFrame; AnimationFrame] constructed)
  = 0%nat.
Proof.
  destruct (renderLoop_single
              [StartRenderLoop; AnimationFrame; StopRenderLoop;
               StartRenderLoop; AnimationFrame; AnimationFrame])
    as [Hn _].
  exact Hn.
Defined.

End RenderLoop.
